(** * ThreeView: playback clock, series extraction and load orchestration

    A shallow embedding of the algorithmic core of
    [src/components/ThreeView.tsx]: the per-frame playback loop
    ([startLoop]), the duration callback ([onReadyDuration]), the seek from
    a plot ([handleGraphSeek]), the channel and series extraction
    ([listNumericChannels], [pickPreferredChannel], [buildSeries]), the
    manifest / table loaders with their React state, the keyboard controls
    of the two sliders ([onTimeKey], [onSpeedKey]), and the helpers
    [joinPath] and [initialPlayers].

    Numbers.  JavaScript numbers are IEEE doubles.  The finite ones are
    idealised here as exact rationals ([Q]); every equation between times is
    therefore stated up to [==] ([Qeq]).  The non-finite ones ([NaN],
    [Infinity], [-Infinity]) can reach the code only as cell values of the
    rows (a JSON number such as [1e999] parses to [Infinity]); they are kept
    as separate constructors of [jsnum].

    React.  A piece of [useState] state is a record field, a setter is a
    record update, a [useRef] cell is a record field as well, and an effect
    is a function on the record that is run after the handlers that change
    its dependencies.  A request in flight is an entry of a list, and its
    response is an event, so that responses can be taken in any order.
    What a render derives from the URL ([isPlayerLocked]) is a field that
    [Loader] keeps fixed and that [Url] derives anew after every rewrite of
    the URL.

    Left out: the rendering, the layout, the admin uploads and the parsing
    of the files themselves ([parseExcelToDataSets], whose result is an
    input here). *)

From Stdlib Require Import QArith Qround Qminmax Lqa Lia ZArith Ascii String.
From stdpp Require Import base option list strings sorting gmap.

#[local] Open Scope Q_scope.

(* ===================================================================== *)
(** ** JavaScript arithmetic on finite numbers *)
(* ===================================================================== *)

Module JS.

(** [Math.trunc]: rounding towards zero. *)
Definition trunc (x : Q) : Z := Z.quot (Qnum x) (Zpos (Qden x)).

(** The [%] operator: the result has the sign of the dividend,
    [x % d = x - d * trunc (x / d)].  The code only evaluates [x % d] under
    a guard [d > 0]. *)
Definition rem (x d : Q) : Q := x - d * inject_Z (trunc (x / d)).

(** [Math.floor], [Math.round] (halves go up), [Math.min], [Math.max]. *)
Definition floor (x : Q) : Z := Qfloor x.
Definition round (x : Q) : Z := Qfloor (x + (1 # 2)).
Definition min (x y : Q) : Q := Qmin x y.
Definition max (x y : Q) : Q := Qmax x y.

(** The comparisons [x > y] and [x <= y] as booleans. *)
Definition gt (x y : Q) : bool := if Qlt_le_dec y x then true else false.
Definition le (x y : Q) : bool := negb (gt x y).

End JS.

(* ===================================================================== *)
(** ** The playback clock *)
(* ===================================================================== *)

Module Clock.

(** [const FPS = 120]. *)
Definition FPS : Q := 120.

(** The clock's share of the component state: the [useState] cells [time],
    [duration], [playing], [speed], [snapFrames] and the [useRef] cells
    [lastTsRef] and [subFrameAccRef]. *)
Record state := mkState {
  time : Q;
  duration : Q;
  playing : bool;
  speed : Q;
  snapFrames : bool;
  lastTsRef : option Q;
  subFrameAccRef : Q;
}.

Definition set_time (t : Q) (st : state) : state :=
  mkState t (duration st) (playing st) (speed st) (snapFrames st)
          (lastTsRef st) (subFrameAccRef st).

(** The wrap-around used at three places: [((x % d) + d) % d]. *)
Definition wrap (x d : Q) : Q := JS.rem (JS.rem x d + d) d.

(** The updater passed to [setTime] inside [loop]: from the clamped elapsed
    time [dt] and the previous time it gives the next time and the new
    value of [subFrameAccRef]. *)
Definition advance (st : state) (dt : Q) (prev : Q) : Q * Q :=
  if negb (playing st) || JS.le (duration st) 0 then (prev, subFrameAccRef st)
  else
    let s := JS.min 2 (JS.max (1 # 10) (speed st)) in
    let delta := dt * s in
    if negb (snapFrames st) then
      let next := prev + delta in
      let next := if JS.gt (duration st) 0 then wrap next (duration st) else next in
      (next, subFrameAccRef st)
    else
      let step := 1 / FPS in
      let acc := subFrameAccRef st + delta in
      let frames := JS.floor (acc / step) in
      let acc' := acc - inject_Z frames * step in
      if (frames <=? 0)%Z then (prev, acc')
      else
        let next := prev + inject_Z frames * step in
        let next :=
          if JS.gt (duration st) 0 then
            let next := wrap next (duration st) in
            JS.min (JS.max 0 next) (JS.max 0 (duration st - step / 2))
          else next in
        (next, acc').

(** One call of [loop ts], the [requestAnimationFrame] callback. *)
Definition loop (ts : Q) (st : state) : state :=
  let last := default ts (lastTsRef st) in
  let dtRaw := (ts - last) / 1000 in
  let dt := JS.min (JS.max dtRaw 0) (5 # 100) in
  let '(next, acc) := advance st dt (time st) in
  mkState next (duration st) (playing st) (speed st) (snapFrames st)
          (Some ts) acc.

(** What the two effects on [speed, snapFrames, playing, duration] do when
    one of them changes: [subFrameAccRef.current = 0], and [startLoop] runs
    again, whose [cancelLoop] clears [lastTsRef]. *)
Definition restart (st : state) : state :=
  mkState (time st) (duration st) (playing st) (speed st) (snapFrames st)
          None 0.

(** React runs an effect again only when one of its dependencies differs
    from the previous render. *)
Definition same_deps (old new : state) : bool :=
  Qeq_bool (speed old) (speed new) && Bool.eqb (snapFrames old) (snapFrames new)
  && Bool.eqb (playing old) (playing new) && Qeq_bool (duration old) (duration new).

Definition commit (old new : state) : state :=
  if same_deps old new then new else restart new.

(** [onReadyDuration dur]: [setDuration(dur)] and the re-wrap of [time]. *)
Definition onReadyDuration (dur : Q) (st : state) : state :=
  commit st
    (mkState (if JS.gt dur 0 then wrap (time st) dur else 0)
             dur (playing st) (speed st) (snapFrames st)
             (lastTsRef st) (subFrameAccRef st)).

(** [handleGraphSeek tJson], with [jsonDuration] the duration of series A. *)
Definition handleGraphSeek (jsonDuration : Q) (tJson : Q) (st : state) : state :=
  if JS.gt (duration st) 0 && JS.gt jsonDuration 0 then
    let t := (tJson / jsonDuration) * duration st in
    let t := if snapFrames st then inject_Z (JS.round (t * FPS)) / FPS else t in
    set_time (JS.max 0 (JS.min (duration st) t)) st
  else if JS.gt (duration st) 0 then
    let t := JS.max 0 (JS.min (duration st) tJson) in
    let t := if snapFrames st then inject_Z (JS.round (t * FPS)) / FPS else t in
    set_time t st
  else st.

(** The controls of the toolbar that reconfigure the clock. *)
Definition setPlaying (b : bool) (st : state) : state :=
  commit st (mkState (time st) (duration st) b (speed st) (snapFrames st)
                   (lastTsRef st) (subFrameAccRef st)).
Definition setSpeed (v : Q) (st : state) : state :=
  commit st (mkState (time st) (duration st) (playing st) v (snapFrames st)
                   (lastTsRef st) (subFrameAccRef st)).
Definition setSnapFrames (b : bool) (st : state) : state :=
  commit st (mkState (time st) (duration st) (playing st) (speed st) b
                   (lastTsRef st) (subFrameAccRef st)).

(** What can happen to a running clock whose animation stays the same. *)
Inductive event :=
| Tick (ts : Q)
| SetPlaying (b : bool)
| SetSpeed (v : Q)
| SetSnapFrames (b : bool).

Definition step (st : state) (e : event) : state :=
  match e with
  | Tick ts => loop ts st
  | SetPlaying b => setPlaying b st
  | SetSpeed v => setSpeed v st
  | SetSnapFrames b => setSnapFrames b st
  end.

Definition run (st : state) (es : list event) : state := foldl step st es.

(** The seek of the specification's clock, [seekAbsolute]: clamp into
    [[0, animationDuration]], then round to a multiple of [1 / FPS] when
    snapping.  Written from the specification, to be compared with
    [handleGraphSeek]. *)
Definition seekAbsolute_spec (t : Q) (st : state) : state :=
  let c := JS.max 0 (JS.min (duration st) t) in
  set_time (if snapFrames st then inject_Z (JS.round (c * FPS)) / FPS else c) st.

(** The specification's [mapDataTimeToAnimationTime] followed by
    [seekAbsolute]. *)
Definition graphSeek_spec (seriesDuration : Q) (tData : Q) (st : state) : state :=
  if JS.gt (duration st) 0 && JS.gt seriesDuration 0 then
    seekAbsolute_spec ((tData / seriesDuration) * duration st) st
  else if JS.gt (duration st) 0 then seekAbsolute_spec tData st
  else st.

End Clock.

(* ===================================================================== *)
(** ** The keyboard and slider controls of the clock *)
(* ===================================================================== *)

Module Controls.
Import Clock.

(** The keys the two sliders listen to; every other key is [OtherKey]. *)
Inductive key := ArrowRight | ArrowUp | ArrowLeft | ArrowDown | OtherKey.

(** [snapFrames ? Math.round(t * FPS) / FPS : t] *)
Definition snapTime (st : state) (t : Q) : Q :=
  if snapFrames st then inject_Z (JS.round (t * FPS)) / FPS else t.

(** [stepTime]: one frame when snapping, else a thousandth of the duration
    and at least a millisecond; [duration || 1] reads a duration of 0
    as 1. *)
Definition stepTime (st : state) : Q :=
  if snapFrames st then 1 / FPS
  else JS.max (1 # 1000)
              ((if Qeq_bool (duration st) 0 then 1 else duration st) / 1000).

(** [onTimeKey e] *)
Definition onTimeKey (k : key) (shiftKey : bool) (st : state) : state :=
  if JS.le (duration st) 0 then st
  else
    let mult : Q := if shiftKey then 10 else 1 in
    match k with
    | ArrowRight | ArrowUp =>
        let t := JS.min (duration st) (time st + stepTime st * mult) in
        set_time (snapTime st t) st
    | ArrowLeft | ArrowDown =>
        let t := JS.max 0 (time st - stepTime st * mult) in
        set_time (snapTime st t) st
    | OtherKey => st
    end.

(** The [onChange] of the time slider, with [t] the value of the slider. *)
Definition onTimeChange (t : Q) (st : state) : state :=
  set_time (snapTime st t) st.

(** [+x.toFixed(2)]: the nearest multiple of 0.01, a tie going away from
    zero. *)
Definition toFixed2 (x : Q) : Q :=
  if JS.gt 0 x then - (inject_Z (Qfloor (- x * 100 + (1 # 2))) / 100)
  else inject_Z (Qfloor (x * 100 + (1 # 2))) / 100.

(** [onSpeedKey e] *)
Definition onSpeedKey (k : key) (shiftKey : bool) (st : state) : state :=
  let d : Q := if shiftKey then 2 # 10 else 1 # 10 in
  match k with
  | ArrowRight | ArrowUp => setSpeed (JS.min 2 (toFixed2 (speed st + d))) st
  | ArrowLeft | ArrowDown => setSpeed (JS.max (1 # 10) (toFixed2 (speed st - d))) st
  | OtherKey => st
  end.

End Controls.

(* ===================================================================== *)
(** ** Rows, channels and series *)
(* ===================================================================== *)

(** The two shapes of regular expression the component tests names with,
    both with the [i] flag: [/a/i] and [/a.*b/i] for literal [a] and [b].
    Characters are compared after folding the ASCII letters; [.] matches
    every character except a line terminator. *)
Module Regex.

Definition fold_case (c : ascii) : ascii :=
  let n := nat_of_ascii c in
  if (65 <=? n)%nat && (n <=? 90)%nat then ascii_of_nat (n + 32) else c.

Definition line_terminator (c : ascii) : bool :=
  let n := nat_of_ascii c in (n =? 10)%nat || (n =? 13)%nat.

(** [strip p s]: what is left of [s] after the literal [p] at its start. *)
Fixpoint strip (p s : string) : option string :=
  match p, s with
  | EmptyString, _ => Some s
  | String a p', String b s' =>
      if Ascii.eqb (fold_case a) (fold_case b) then strip p' s' else None
  | String _ _, EmptyString => None
  end.

(** [/a/i.test(s)] *)
Fixpoint test (a s : string) : bool :=
  match strip a s with
  | Some _ => true
  | None => match s with EmptyString => false | String _ s' => test a s' end
  end.

(** [.*b] matched at the start of [s]. *)
Fixpoint dots_then (b s : string) : bool :=
  match strip b s with
  | Some _ => true
  | None =>
      match s with
      | EmptyString => false
      | String c s' => if line_terminator c then false else dots_then b s'
      end
  end.

(** [/a.*b/i.test(s)] *)
Fixpoint test_seq (a b s : string) : bool :=
  match strip a s with
  | Some r => dots_then b r
  | None => false
  end
  || match s with EmptyString => false | String _ s' => test_seq a b s' end.

End Regex.

Module Series.

(** A JavaScript number: finite, [NaN], [Infinity] or [-Infinity]. *)
Inductive jsnum :=
| Fin (q : Q)
| NaN
| Inf (negative : bool).

(** The value of a cell of a row: a number, a string, or one of the other
    scalars a parsed JSON document or sheet can hold. *)
Inductive jsvalue :=
| VUndefined
| VNull
| VBool (b : bool)
| VNumber (x : jsnum)
| VString (s : string).

(** A row of [data]: an object from field names to values, or [null] /
    [undefined], which the code guards against with [?.] and [!d]. *)
Inductive row :=
| RNullish
| RObject (fields : gmap string jsvalue).

(** [d?.[k]]; a missing field reads as [undefined].  (The fields inherited
    from [Object.prototype] are functions or objects, never numbers, and
    none of them is called [t] or [time].) *)
Definition get (d : row) (k : string) : jsvalue :=
  match d with
  | RNullish => VUndefined
  | RObject fields => default VUndefined (fields !! k)
  end.

(** [typeof v === "number"] *)
Definition typeof_number (v : jsvalue) : bool :=
  match v with VNumber _ => true | _ => false end.

(** [Number.isFinite(x)], giving the finite value. *)
Definition isFinite (x : jsnum) : option Q :=
  match x with Fin q => Some q | _ => None end.

(** [typeof v === "number" && Number.isFinite(v)] *)
Definition finite_number (v : jsvalue) : option Q :=
  match v with VNumber x => isFinite x | _ => None end.

(** [type SeriesPoint = { t?: number; value: number }].  Every point the
    code builds has its [t] set, and both fields hold finite numbers. *)
Record SeriesPoint := mkPoint { t : Q; value : Q }.

(** The result of [buildSeries]: [{ pts, dur }]. *)
Record SeriesResult := mkResult { pts : list SeriesPoint; dur : Q }.

(** The order of [Array.prototype.sort()] without a comparator: strings
    compared code unit by code unit. *)
Definition str_le (a b : string) : Prop := String.leb a b = true.

#[export] Instance str_le_dec a b : Decision (str_le a b).
Proof. unfold str_le. apply _. Defined.

(** The field names that are never a channel. *)
Definition reserved (k : string) : bool :=
  String.eqb k "t" || String.eqb k "time" || String.eqb k "frame".

(** The keys one row adds to the set: those that are not reserved and hold
    a finite number. *)
Definition numericKeys (fields : gmap string jsvalue) : gset string :=
  dom (filter (fun kv => negb (reserved kv.1) && bool_decide (is_Some (finite_number kv.2)))
              fields).

(** The body of the outer loop of [listNumericChannels]: a row that is not
    an object is skipped. *)
Definition addRow (set : gset string) (d : row) : gset string :=
  match d with
  | RNullish => set
  | RObject fields => set ∪ numericKeys fields
  end.

(** [listNumericChannels data].  The [Set] is filled row by row and then
    sorted, so the order in which [Object.keys] lists a row's fields does
    not show in the result. *)
Definition listNumericChannels (data : list row) : list string :=
  merge_sort str_le (elements (foldl addRow ∅ data)).

(** [pickPreferredChannel list] *)
Definition pickPreferredChannel (list : list string) : option string :=
  match List.find (Regex.test_seq "Wrist" "Velocity") list with
  | Some k => Some k
  | None =>
      match List.find (Regex.test "Velocity") list with
      | Some k => Some k
      | None =>
          match List.find (Regex.test "Rotation") list with
          | Some k => Some k
          | None => head list
          end
      end
  end.

(** [!channel]: [null] and the empty string are falsy. *)
Definition truthy (channel : option string) : option string :=
  match channel with
  | Some EmptyString | None => None
  | Some c => Some c
  end.

Section BuildSeries.

(** [Number(s)] for a string [s] (ECMAScript's StringToNumber), which
    [buildSeries] applies to whatever it finds under the time key. *)
Variable StringToNumber : string -> jsnum.

(** [Number(v)] *)
Definition Number (v : jsvalue) : jsnum :=
  match v with
  | VUndefined => NaN
  | VNull => Fin 0
  | VBool b => Fin (if b then 1 else 0)
  | VNumber x => x
  | VString s => StringToNumber s
  end.

(** [hasT], [hasTime] and [tKey]. *)
Definition hasKey (k : string) (data : list row) : bool :=
  existsb (fun d => typeof_number (get d k)) data.

Definition timeKey (data : list row) : option string :=
  if hasKey "t" data then Some "t"
  else if hasKey "time" data then Some "time"
  else None.

(** The choice of the time key as the specification words it, with "a
    finite value" in the place of [typeof ... === "number"]; to be compared
    with [timeKey]. *)
Definition hasFiniteKey (k : string) (data : list row) : bool :=
  existsb (fun d => bool_decide (is_Some (finite_number (get d k)))) data.

Definition timeKey_finite (data : list row) : option string :=
  if hasFiniteKey "t" data then Some "t"
  else if hasFiniteKey "time" data then Some "time"
  else None.

(** The index-based time of row [i] among [n] rows. *)
Definition indexTime (n i : nat) : Q :=
  if (1 <? n)%nat then inject_Z (Z.of_nat i) / inject_Z (Z.of_nat (n - 1)) else 0.

(** The body of the [for] loop for row [i]: the point it pushes, or [None]
    where it [continue]s. *)
Definition pointOf (tKey : option string) (channel : string) (n i : nat)
    (d : row) : option SeriesPoint :=
  match finite_number (get d channel) with
  | None => None
  | Some rawV =>
      match tKey with
      | Some k =>
          match isFinite (Number (get d k)) with
          | None => None
          | Some tv => Some (mkPoint tv rawV)
          end
      | None => Some (mkPoint (indexTime n i) rawV)
      end
  end.

(** The [for] loop from index [i] on, over the rows that are left. *)
Fixpoint collect (tKey : option string) (channel : string) (n i : nat)
    (rest : list row) : list SeriesPoint :=
  match rest with
  | [] => []
  | d :: rest' =>
      match pointOf tKey channel n i d with
      | None => collect tKey channel n (S i) rest'
      | Some p => p :: collect tKey channel n (S i) rest'
      end
  end.

(** [buildSeries data channel] *)
Definition buildSeries (data : list row) (channel : option string) : SeriesResult :=
  match data, truthy channel with
  | [], _ | _, None => mkResult [] 0
  | _ :: _, Some c =>
      let n := length data in
      let raw := collect (timeKey data) c n 0 data in
      match raw with
      | [] => mkResult [] 0
      | p0 :: _ =>
          let t0 := t p0 in
          let t1 := t (List.last raw p0) in
          let dur := JS.max 0 (t1 - t0) in
          let normalized := List.map (fun p => mkPoint (t p - t0) (value p)) raw in
          mkResult normalized dur
      end
  end.

End BuildSeries.

End Series.

(* ===================================================================== *)
(** ** The component state and the loaders *)
(* ===================================================================== *)

Module Loader.
Import Series.

#[local] Open Scope string_scope.
#[local] Open Scope list_scope.

(** [type PlayerManifest].  [sessions] is optional here because the code
    reads it with [m.sessions ?? []] and [m.sessions?.includes]. *)
Record SessionFiles := mkFiles { sf_fbx : option string; sf_excel : option string }.

Record PlayerManifest := mkManifest {
  player : string;
  defaultSession : option string;
  m_sessions : option (list string);
  fbx : option string;
  excel : option string;
  files : list (string * SessionFiles);
}.

(** [type RowsBySheet]: an object from sheet names to rows, as the list of
    its entries in the order in which [Object.keys] lists them. *)
Definition RowsBySheet := list (string * list row).

(** [sets[name]] *)
Fixpoint sheetRows (sets : RowsBySheet) (name : string) : option (list row) :=
  match sets with
  | [] => None
  | (k, rs) :: sets' => if String.eqb k name then Some rs else sheetRows sets' name
  end.

(** The address of an asset, [data/<player>/<session>/<file>] under the
    base URL. *)
Record AssetPath := mkPath { p_player : string; p_session : string; p_file : string }.

(** The [useState] cells of [ThreeView] that the loaders and the series
    effects read or write, with the cells of the clock in [clock]. *)
Record AppState := mkApp {
  playerName : string;
  session : option string;
  players : list string;
  manifest : option PlayerManifest;
  sessions : list string;
  fbxUrl : option AssetPath;
  clock : Clock.state;
  rowsBySheet : option RowsBySheet;
  sheetNames : list string;
  sheet : option string;
  rows : option (list row);
  channels : list string;
  selectedChannel : option string;
  series : option (list SeriesPoint);
  selectedChannelB : option string;
  seriesB : option (list SeriesPoint);
  jsonDuration : Q;
}.

(** The state of the first render: [useState] initial values. *)
Definition initialApp (initialPlayer : string) (urlSession : option string)
    (initialPlayers : list string) : AppState :=
  mkApp initialPlayer urlSession initialPlayers None [] None
        (Clock.mkState 0 0 true 1 true None 0)
        None [] None None [] None None None None 0.

(** Updates of single cells. *)
Definition with_manifest (m : option PlayerManifest) (ss : list string)
    (s : option string) (ps : list string) (a : AppState) : AppState :=
  mkApp (playerName a) s ps m ss (fbxUrl a) (clock a) (rowsBySheet a)
        (sheetNames a) (sheet a) (rows a) (channels a) (selectedChannel a)
        (series a) (selectedChannelB a) (seriesB a) (jsonDuration a).

Definition with_dataset (sets : option RowsBySheet) (names : list string)
    (sh : option string) (rs : option (list row)) (a : AppState) : AppState :=
  mkApp (playerName a) (session a) (players a) (manifest a) (sessions a)
        (fbxUrl a) (clock a) sets names sh rs (channels a) (selectedChannel a)
        (series a) (selectedChannelB a) (seriesB a) (jsonDuration a).

Definition with_channels (rs : option (list row)) (chs : list string)
    (selA selB : option string) (a : AppState) : AppState :=
  mkApp (playerName a) (session a) (players a) (manifest a) (sessions a)
        (fbxUrl a) (clock a) (rowsBySheet a) (sheetNames a) (sheet a) rs chs
        selA (series a) selB (seriesB a) (jsonDuration a).

Definition with_series (s : option (list SeriesPoint)) (d : Q) (a : AppState) : AppState :=
  mkApp (playerName a) (session a) (players a) (manifest a) (sessions a)
        (fbxUrl a) (clock a) (rowsBySheet a) (sheetNames a) (sheet a) (rows a)
        (channels a) (selectedChannel a) s (selectedChannelB a) (seriesB a) d.

Definition with_seriesB (s : option (list SeriesPoint)) (a : AppState) : AppState :=
  mkApp (playerName a) (session a) (players a) (manifest a) (sessions a)
        (fbxUrl a) (clock a) (rowsBySheet a) (sheetNames a) (sheet a) (rows a)
        (channels a) (selectedChannel a) (series a) (selectedChannelB a) s
        (jsonDuration a).

Definition with_player (p : string) (a : AppState) : AppState :=
  mkApp p (session a) (players a) (manifest a) (sessions a)
        (fbxUrl a) (clock a) (rowsBySheet a) (sheetNames a) (sheet a) (rows a)
        (channels a) (selectedChannel a) (series a) (selectedChannelB a)
        (seriesB a) (jsonDuration a).

Definition with_session (s : option string) (a : AppState) : AppState :=
  mkApp (playerName a) s (players a) (manifest a) (sessions a)
        (fbxUrl a) (clock a) (rowsBySheet a) (sheetNames a) (sheet a) (rows a)
        (channels a) (selectedChannel a) (series a) (selectedChannelB a)
        (seriesB a) (jsonDuration a).

Definition with_playback (u : AssetPath) (a : AppState) : AppState :=
  mkApp (playerName a) (session a) (players a) (manifest a) (sessions a)
        (Some u) (Clock.set_time 0 (Clock.setPlaying true (clock a)))
        (rowsBySheet a) (sheetNames a) (sheet a) (rows a)
        (channels a) (selectedChannel a) (series a) (selectedChannelB a)
        (seriesB a) (jsonDuration a).

Section Effects.

Variable StringToNumber : string -> jsnum.

(** [list.includes(k)] *)
Definition includes (l : list string) (k : string) : bool :=
  existsb (String.eqb k) l.

(** The effect on [rowsBySheet, sheet].  It returns early without a
    dataset or a sheet; [None] stands for the [TypeError] that
    [listNumericChannels(undefined)] raises when [sheet] is not a key of
    [rowsBySheet]. *)
Definition recompute (a : AppState) : option AppState :=
  match rowsBySheet a, truthy (sheet a) with
  | None, _ | _, None => Some a
  | Some sets, Some sh =>
      match sheetRows sets sh with
      | None => None
      | Some newRows =>
          let chs := listNumericChannels newRows in
          let keep (prev : option string) : option string :=
            match truthy prev with
            | Some k => if includes chs k then Some k else None
            | None => None
            end in
          let selA :=
            match keep (selectedChannel a) with
            | Some k => Some k
            | None => pickPreferredChannel chs
            end in
          let selB :=
            match keep (selectedChannelB a) with
            | Some k => Some k
            | None =>
                let first := pickPreferredChannel chs in
                match List.find (fun k => negb (bool_decide (Some k = first))) chs with
                | Some k => Some k
                | None => first
                end
            end in
          Some (with_channels (Some newRows) chs selA selB a)
      end
  end.

(** The effect on [rows, selectedChannel]. *)
Definition seriesEffect (a : AppState) : AppState :=
  match rows a, truthy (selectedChannel a) with
  | None, _ | _, None => with_series None 0 a
  | Some rs, Some _ =>
      let r := buildSeries StringToNumber rs (selectedChannel a) in
      with_series (Some (pts r)) (dur r) a
  end.

(** The effect on [rows, selectedChannelB]. *)
Definition seriesEffectB (a : AppState) : AppState :=
  match rows a, truthy (selectedChannelB a) with
  | None, _ | _, None => with_seriesB None a
  | Some rs, Some _ =>
      with_seriesB (Some (pts (buildSeries StringToNumber rs (selectedChannelB a)))) a
  end.

(** The three effects in the order of the component, run until the state
    is stable: the series effects depend on what [recompute] sets, and each
    effect is a function of its dependencies. *)
Definition settle (a : AppState) : option AppState :=
  a' ← recompute a; Some (seriesEffectB (seriesEffect a')).

(** The sheet shown first: [/joint.*position/i], else [/baseball.*data/i],
    else the first name. *)
Definition preferredSheet (names : list string) : option string :=
  match List.find (Regex.test_seq "joint" "position") names with
  | Some n => Some n
  | None =>
      match List.find (Regex.test_seq "baseball" "data") names with
      | Some n => Some n
      | None => head names
      end
  end.

(** The [catch] of the table load. *)
Definition excelCatch (a : AppState) : AppState := with_dataset None [] None None a.

(** The end of the table load of the session effect: [outcome] is what
    [fetch] and [parseExcelToDataSets] gave, [None] where one of them
    threw.  No sheet at all throws inside the [try] as well. *)
Definition excelLoaded (outcome : option RowsBySheet) (a : AppState) : AppState :=
  match outcome with
  | None => excelCatch a
  | Some sets =>
      let names := sets.*1 in
      match preferredSheet names with
      | None => excelCatch a
      | Some preferred =>
          with_dataset (Some sets) names (Some preferred) (sheetRows sets preferred) a
      end
  end.

(** The end of [loadManifest p] once the [cancelled] flag has been found
    clear, and its [catch]. *)
Definition manifestLoaded (locked : bool) (p : string) (m : PlayerManifest)
    (a : AppState) : AppState :=
  let s :=
    match truthy (session a) with
    | Some prev =>
        if includes (default [] (m_sessions m)) prev then Some prev
        else match defaultSession m with
             | Some d => Some d
             | None => head (default [] (m_sessions m))
             end
    | None =>
        match defaultSession m with
        | Some d => Some d
        | None => head (default [] (m_sessions m))
        end
    end in
  let ps :=
    if locked then [p]
    else if includes (players a) p then players a else players a ++ [p] in
  with_manifest (Some m) (default [] (m_sessions m)) s ps a.

Definition manifestCatch (a : AppState) : AppState :=
  with_manifest None [] None (players a) a.

(** The file names of a session: the entry of [files], else the top-level
    name, else the fixed fallback. *)
Definition sessionFile (pick : SessionFiles -> option string)
    (top : option string) (fallback : string) (m : PlayerManifest) (s : string) : string :=
  match List.find (fun e => String.eqb e.1 s) (files m) with
  | Some (_, f) =>
      match pick f with
      | Some n => n
      | None => default fallback top
      end
  | None => default fallback top
  end.

(** A request in flight.  A manifest load carries the [cancelled] flag of
    the effect run that started it; the table load of the session effect
    has no such flag. *)
Record ManifestLoad := mkManifestLoad { ml_player : string; cancelled : bool }.
Record ExcelLoad := mkExcelLoad { el_path : AssetPath }.

(** The component together with its requests; a request is removed when
    its response has been handled. *)
Record World := mkWorld {
  app : AppState;
  isPlayerLocked : bool;
  manifestLoads : list (option ManifestLoad);
  excelLoads : list (option ExcelLoad);
}.

(** The session effect, on [manifest, session, playerName]: without a
    manifest or a session it returns; else it points the viewer at the FBX
    file, restarts playback and starts the table load. *)
Definition sessionEffect (w : World) : World :=
  match manifest (app w), truthy (session (app w)) with
  | None, _ | _, None => w
  | Some m, Some s =>
      let p := playerName (app w) in
      let fileFBX := sessionFile sf_fbx (fbx m) "EXPORT.fbx" m s in
      let fileExcel := sessionFile sf_excel (excel m) "Kinematic_Data (1).xlsx" m s in
      mkWorld (with_playback (mkPath p s fileFBX) (app w)) (isPlayerLocked w)
              (manifestLoads w)
              (excelLoads w ++ [Some (mkExcelLoad (mkPath p s fileExcel))])
  end.

(** The manifest effect, on [playerName]: the cleanup of the previous run
    sets its [cancelled], and [loadManifest(playerName)] starts. *)
Definition cancel (l : option ManifestLoad) : option ManifestLoad :=
  (fun r => mkManifestLoad (ml_player r) true) <$> l.

Definition manifestEffect (w : World) : World :=
  mkWorld (app w) (isPlayerLocked w)
          ((cancel <$> manifestLoads w)
             ++ [Some (mkManifestLoad (playerName (app w)) false)])
          (excelLoads w).

(** The first render and its effects. *)
Definition mount (locked : bool) (initialPlayer : string)
    (urlSession : option string) (initialPlayers : list string) : World :=
  sessionEffect
    (manifestEffect
       (mkWorld (initialApp initialPlayer urlSession initialPlayers) locked [] [])).

(** What happens to the component: the user picks a player or a session,
    or a request, named by its position in the list of requests, ends with
    a response ([None] for a failed fetch or parse). *)
Inductive event :=
| SelectPlayer (p : string)
| SelectSession (s : string)
| ManifestResponse (id : nat) (response : option PlayerManifest)
| ExcelResponse (id : nat) (response : option RowsBySheet).

Definition with_app (a : AppState) (w : World) : World :=
  mkWorld a (isPlayerLocked w) (manifestLoads w) (excelLoads w).

(** One event, with the effects that follow it.  [None]: an effect threw. *)
Definition step (w : World) (e : event) : option World :=
  match e with
  | SelectPlayer p =>
      if String.eqb p (playerName (app w)) then Some w
      else Some (sessionEffect (manifestEffect (with_app (with_player p (app w)) w)))
  | SelectSession s =>
      if bool_decide (session (app w) = Some s) then Some w
      else Some (sessionEffect (with_app (with_session (Some s) (app w)) w))
  | ManifestResponse id response =>
      match manifestLoads w !! id with
      | Some (Some l) =>
          let w' := mkWorld (app w) (isPlayerLocked w)
                            (<[id := None]> (manifestLoads w)) (excelLoads w) in
          match response with
          | Some m =>
              if cancelled l then Some w'
              else
                let a := manifestLoaded (isPlayerLocked w) (ml_player l) m (app w) in
                Some (sessionEffect (with_app a w'))
          | None => Some (sessionEffect (with_app (manifestCatch (app w)) w'))
          end
      | _ => Some w
      end
  | ExcelResponse id response =>
      match excelLoads w !! id with
      | Some (Some _) =>
          let w' := mkWorld (app w) (isPlayerLocked w) (manifestLoads w)
                            (<[id := None]> (excelLoads w)) in
          a ← settle (excelLoaded response (app w));
          Some (with_app a w')
      | _ => Some w
      end
  end.

Fixpoint run (w : World) (es : list event) : option World :=
  match es with
  | [] => Some w
  | e :: es' => w' ← step w e; run w' es'
  end.

End Effects.

(** The state the specification asks for after a failed load: the dataset
    collection, the sheet names, the active sheet, the rows, the channels,
    both channel selections and the derived series are all empty.  Written
    from the specification, to be compared with what the [catch] blocks
    leave. *)
Definition fully_reset (a : AppState) : Prop :=
  rowsBySheet a = None /\ sheetNames a = [] /\ sheet a = None /\ rows a = None /\
  channels a = [] /\ selectedChannel a = None /\ selectedChannelB a = None /\
  series a = None /\ seriesB a = None.

End Loader.

(* ===================================================================== *)
(** ** Addresses and the list of players *)
(* ===================================================================== *)

Module Setup.

#[local] Open Scope string_scope.
#[local] Open Scope list_scope.

Definition is_slash (c : ascii) : bool := Ascii.eqb c "/"%char.

(** [b.replace(/^\/+/, "")]: [b] without the slashes it begins with. *)
Fixpoint dropLeadingSlashes (b : string) : string :=
  match b with
  | String c b' => if is_slash c then dropLeadingSlashes b' else b
  | EmptyString => EmptyString
  end.

(** [a.replace(/\/+$/, "")]: [a] without the slashes it ends with. *)
Fixpoint dropTrailingSlashes (a : string) : string :=
  match a with
  | EmptyString => EmptyString
  | String c a' =>
      match dropTrailingSlashes a' with
      | EmptyString => if is_slash c then EmptyString else String c EmptyString
      | r => String c r
      end
  end.

(** [joinPath a b] *)
Definition joinPath (a b : string) : string :=
  dropTrailingSlashes a ++ "/" ++ dropLeadingSlashes b.

(** [withBase p], for the base URL [BASE_URL] of the build; an empty base
    is read as ["/"]. *)
Definition withBase (BASE_URL : string) (p : string) : string :=
  joinPath (match BASE_URL with EmptyString => "/" | _ => BASE_URL end) p.

(** [const DEFAULT_PLAYERS = ["Pete Alonso"]] *)
Definition DEFAULT_PLAYERS : list string := ["Pete Alonso"].

(** [base.includes(p)] *)
Definition includes (l : list string) (p : string) : bool :=
  existsb (String.eqb p) l.

(** The body of [for (const p of playersFromUrl) if (!base.includes(p))
    base.push(p)]. *)
Definition pushNew (base : list string) (p : string) : list string :=
  if includes base p then base else base ++ [p].

(** [initialPlayers]: the locked player alone, or the default players, then
    the players of the URL that are new, with the initial player put in
    front when he is not among them. *)
Definition initialPlayers (isPlayerLocked : bool) (initialPlayer : string)
    (playersFromUrl : list string) : list string :=
  if isPlayerLocked then [initialPlayer]
  else
    let base := foldl pushNew DEFAULT_PLAYERS playersFromUrl in
    if includes base initialPlayer then base else initialPlayer :: base.

End Setup.

(* ===================================================================== *)
(** ** The lock of the player, derived from the URL at every render *)
(* ===================================================================== *)

Module Url.
Import Series Loader.

#[local] Open Scope string_scope.
#[local] Open Scope list_scope.

(** [Loader.step] keeps [isPlayerLocked] as it was at the first render.
    That is what the code does in admin mode and where the URL locks the
    player from the start; in player mode without a [player] parameter the
    session effect puts the player into the URL, and the next render
    derives a lock.  The pages below follow the URL through these renders. *)

(** The component with what it reads from the URL at each render: the
    [player] parameter and whether [lock] is ["1"].  [isPlayer] is the
    [mode] cell, which is never set; the session effect writes that mode
    back as the [mode] parameter, so that [initialMode] is the same at
    every render and [initialMode === "player"] is [isPlayer].  Player
    names are taken as they are: [decodeURIComponent] and the replacement
    of [+] are the identity on them, so that the effect that keeps
    [playerName] in step with the URL finds nothing to set. *)
Record Page := mkPage {
  world : World;
  isPlayer : bool;
  paramPlayerRaw : option string;
  lockParam : bool;
}.

(** [params.get("lock") === "1" || (initialMode === "player" &&
    !!paramPlayerRaw)] *)
Definition derivedLock (isPlayer : bool) (paramPlayerRaw : option string)
    (lockParam : bool) : bool :=
  lockParam ||
  (isPlayer && match truthy paramPlayerRaw with Some _ => true | None => false end).

(** The session effect with what it does to the URL: where it does not
    return early, [player] becomes the player name and [lock] is set or
    deleted after the lock of the render the effect belongs to. *)
Definition sessionEffectUrl (pg : Page) : Page :=
  let w := world pg in
  match manifest (app w), truthy (session (app w)) with
  | None, _ | _, None => pg
  | Some _, Some _ =>
      mkPage (sessionEffect w) (isPlayer pg)
             (Some (playerName (app w))) (isPlayerLocked w)
  end.

(** The render after a state change: the lock is derived anew; when it is
    not what it was, the manifest effect and the session effect, which
    have it among their dependencies, run again. *)
Definition render (pg : Page) : Page :=
  let w := world pg in
  let lock := derivedLock (isPlayer pg) (paramPlayerRaw pg) (lockParam pg) in
  if Bool.eqb lock (isPlayerLocked w) then pg
  else
    sessionEffectUrl
      (mkPage (manifestEffect (mkWorld (app w) lock (manifestLoads w) (excelLoads w)))
              (isPlayer pg) (paramPlayerRaw pg) (lockParam pg)).

(** A change of the cells the session effect depends on: the effect runs,
    and the component renders again. *)
Definition changed (pg : Page) (w : World) : Page :=
  render (sessionEffectUrl
            (mkPage w (isPlayer pg) (paramPlayerRaw pg) (lockParam pg))).

(** The first render and its effects, for a URL with the given [player]
    and [lock] parameters. *)
Definition mountPage (isPlayer : bool) (paramPlayerRaw : option string)
    (lockParam : bool) (urlSession : option string)
    (playersFromUrl : list string) : Page :=
  let initialPlayer :=
    match truthy paramPlayerRaw with
    | Some p => p
    | None => default "" (head Setup.DEFAULT_PLAYERS)
    end in
  let locked := derivedLock isPlayer paramPlayerRaw lockParam in
  mkPage (mount locked initialPlayer urlSession
                (Setup.initialPlayers locked initialPlayer playersFromUrl))
         isPlayer paramPlayerRaw lockParam.

Section Effects.

Variable StringToNumber : string -> jsnum.

(** One event, as [Loader.step] has it, with the URL and the renders that
    follow. *)
Definition stepPage (pg : Page) (e : event) : option Page :=
  let w := world pg in
  match e with
  | SelectPlayer p =>
      if String.eqb p (playerName (app w)) then Some pg
      else Some (changed pg (manifestEffect (with_app (with_player p (app w)) w)))
  | SelectSession s =>
      if bool_decide (session (app w) = Some s) then Some pg
      else Some (changed pg (with_app (with_session (Some s) (app w)) w))
  | ManifestResponse id response =>
      match manifestLoads w !! id with
      | Some (Some l) =>
          let w' := mkWorld (app w) (isPlayerLocked w)
                            (<[id := None]> (manifestLoads w)) (excelLoads w) in
          match response with
          | Some m =>
              if cancelled l
              then Some (mkPage w' (isPlayer pg) (paramPlayerRaw pg) (lockParam pg))
              else
                let a := manifestLoaded (isPlayerLocked w) (ml_player l) m (app w) in
                Some (changed pg (with_app a w'))
          | None => Some (changed pg (with_app (manifestCatch (app w)) w'))
          end
      | _ => Some pg
      end
  | ExcelResponse _ _ =>
      w' ← step StringToNumber w e;
      Some (mkPage w' (isPlayer pg) (paramPlayerRaw pg) (lockParam pg))
  end.

Fixpoint runPage (pg : Page) (es : list event) : option Page :=
  match es with
  | [] => Some pg
  | e :: es' => pg' ← stepPage pg e; runPage pg' es'
  end.

End Effects.

End Url.

(* ===================================================================== *)
(** ** The data of the examples *)
(* ===================================================================== *)

Module Scenarios.
Import Series Loader.

#[local] Open Scope string_scope.
#[local] Open Scope list_scope.

(** A clock in the middle of a clip, and a run of ticks and controls. *)
Definition witness_state : Clock.state :=
  Clock.mkState (3 # 2) 2 true 2 true None 0.
Definition witness_events : list Clock.event :=
  [Clock.Tick 0; Clock.Tick 16; Clock.SetSpeed (1 # 2); Clock.Tick 40;
   Clock.SetSnapFrames false; Clock.Tick 50; Clock.Tick 5000;
   Clock.SetPlaying false; Clock.Tick 6000].

(** Two rows used in the examples: [{t: tv, v: v}] and
    [{t: tv, time: tm, v: v}]. *)
Definition row_tv (tv : jsnum) (v : Q) : row :=
  RObject (<["t" := VNumber tv]> (<["v" := VNumber (Fin v)]> ∅)).
Definition row_ttv (tv tm : jsnum) (v : Q) : row :=
  RObject (<["t" := VNumber tv]> (<["time" := VNumber tm]>
            (<["v" := VNumber (Fin v)]> ∅))).

(** The examples hold no string under a time key, so that the conversion
    of strings plays no part in them. *)
Definition noStrings : string -> jsnum := fun _ => NaN.

(** Two players with one session each, and their tables. *)
Definition manifestA : PlayerManifest :=
  mkManifest "A" (Some "s1") (Some ["s1"]) None None [].
Definition manifestB : PlayerManifest :=
  mkManifest "B" (Some "s1") (Some ["s1"]) None None [].

Definition setsA : RowsBySheet :=
  [("Data", [RObject (<["t" := VNumber (Fin 0)]> {["v" := VNumber (Fin 1)]});
             RObject (<["t" := VNumber (Fin 1)]> {["v" := VNumber (Fin 2)]})])].
Definition setsB : RowsBySheet :=
  [("Data", [RObject (<["t" := VNumber (Fin 0)]> {["w" := VNumber (Fin 5)]});
             RObject (<["t" := VNumber (Fin 2)]> {["w" := VNumber (Fin 6)]})])].

(** Player A is loaded: the manifest arrives and then the table. *)
Definition loadA : list event :=
  [ManifestResponse 0 (Some manifestA); ExcelResponse 0 (Some setsA)].

(** Player A is loaded and a second session has been picked, whose table
    load is in flight. *)
Definition secondSession : World :=
  default (mount false "A" None ["A"])
          (run noStrings (mount false "A" None ["A"]) (loadA ++ [SelectSession "s2"])).

(** The user switches from player A to player B while the table of A is
    still being fetched; the table of B arrives first and the table of A
    afterwards. *)
Definition overlapping : list event :=
  [ManifestResponse 0 (Some manifestA);  (* table load 0, for A, starts *)
   SelectPlayer "B";                     (* manifest load 1; table load 1 *)
   ManifestResponse 1 (Some manifestB);  (* table load 2, for B, starts *)
   ExcelResponse 2 (Some setsB);         (* the table of B arrives *)
   ExcelResponse 0 (Some setsA)].        (* the table of A arrives late *)

(** A table with two channels, just stored and not yet looked at by the
    effects. *)
Definition setsTwo : RowsBySheet :=
  [("Data", [RObject (<["a" := VNumber (Fin 0)]> {["v" := VNumber (Fin 1)]});
             RObject (<["a" := VNumber (Fin 1)]> {["v" := VNumber (Fin 2)]})])].
Definition storedTwo : AppState :=
  with_dataset (Some setsTwo) ["Data"] (Some "Data") None (initialApp "A" None ["A"]).
Definition recomputedTwo : AppState := default storedTwo (recompute storedTwo).

End Scenarios.

(* ===================================================================== *)
(** ** Notions used to state properties *)
(* ===================================================================== *)

Module Notions.
Import Series.

(** The rows with every finite number under the field [k] moved by [c]:
    the same recording with another origin of time. *)
Definition shiftValue (c : Q) (v : jsvalue) : jsvalue :=
  match v with
  | VNumber (Fin q) => VNumber (Fin (q + c))
  | _ => v
  end.

Definition shiftRow (k : string) (c : Q) (d : row) : row :=
  match d with
  | RNullish => RNullish
  | RObject fields => RObject (alter (shiftValue c) k fields)
  end.

End Notions.

(* ===================================================================== *)
(** ** Facts about the arithmetic *)
(* ===================================================================== *)

Module JSFacts.

Lemma trunc_nonneg q : 0 <= q -> JS.trunc q = Qfloor q.
Proof.
  destruct q as [n d]. unfold JS.trunc, Qfloor, Qle. simpl. intros H.
  apply Z.quot_div_nonneg; lia.
Qed.

Lemma trunc_opp q : JS.trunc (- q) = (- JS.trunc q)%Z.
Proof. destruct q as [n d]. unfold JS.trunc. simpl. apply Z.quot_opp_l. lia. Qed.

Lemma floor_upper q : q < inject_Z (Qfloor q) + 1.
Proof. pose proof (Qlt_floor q) as H. rewrite inject_Z_plus in H. exact H. Qed.

(** An integer [k] with [k <= q < k + 1] is the floor of [q]. *)
Lemma floor_unique q k : inject_Z k <= q -> q < inject_Z k + 1 -> Qfloor q = k.
Proof.
  intros Hlo Hhi.
  pose proof (Qfloor_le q) as Hf. pose proof (floor_upper q) as Hg.
  assert (H1 : inject_Z (Qfloor q) < inject_Z (k + 1)).
  { rewrite inject_Z_plus. change (inject_Z 1) with 1. lra. }
  assert (H2 : inject_Z k < inject_Z (Qfloor q + 1)).
  { rewrite inject_Z_plus. change (inject_Z 1) with 1. lra. }
  rewrite <- Zlt_Qlt in H1, H2. lia.
Qed.

Lemma trunc_upper q : inject_Z (JS.trunc q) < q + 1.
Proof.
  destruct (Qlt_le_dec q 0) as [Hneg|Hpos].
  - assert (H : JS.trunc q = (- Qfloor (- q))%Z).
    { rewrite <- (trunc_nonneg (- q)) by lra. rewrite trunc_opp. lia. }
    rewrite H, inject_Z_opp. pose proof (floor_upper (- q)). lra.
  - rewrite trunc_nonneg by assumption. pose proof (Qfloor_le q). lra.
Qed.

(** A remainder by a positive divisor stays above the negated divisor. *)
Lemma rem_lower x d : 0 < d -> - d < JS.rem x d.
Proof.
  intros Hd. unfold JS.rem.
  assert (Hx : x == d * (x / d)) by (field; lra).
  pose proof (trunc_upper (x / d)) as Ht.
  apply (Qmult_lt_l _ _ d Hd) in Ht. lra.
Qed.

(** On a non-negative dividend [%] is the mathematical modulus. *)
Lemma rem_nonneg x d :
  0 < d -> 0 <= x -> JS.rem x d == x - d * inject_Z (Qfloor (x / d)).
Proof.
  intros Hd Hx. unfold JS.rem.
  assert (Hq : 0 <= x / d) by (apply Qle_shift_div_l; lra).
  now rewrite (trunc_nonneg _ Hq).
Qed.

Lemma mod_range x d :
  0 < d -> 0 <= x - d * inject_Z (Qfloor (x / d)) < d.
Proof.
  intros Hd.
  assert (Hxd : x == d * (x / d)) by (field; lra).
  pose proof (Qfloor_le (x / d)) as Hlo.
  pose proof (floor_upper (x / d)) as Hhi.
  apply (Qmult_le_l _ _ d Hd) in Hlo.
  apply (Qmult_lt_l _ _ d Hd) in Hhi. lra.
Qed.

Lemma rem_nonneg_range x d : 0 < d -> 0 <= x -> 0 <= JS.rem x d < d.
Proof.
  intros Hd Hx. pose proof (rem_nonneg x d Hd Hx) as E.
  pose proof (mod_range x d Hd). lra.
Qed.

Lemma gt_true x y : JS.gt x y = true <-> y < x.
Proof. unfold JS.gt. destruct (Qlt_le_dec y x); split; intros; try easy; lra. Qed.

Lemma gt_false x y : JS.gt x y = false <-> x <= y.
Proof. unfold JS.gt. destruct (Qlt_le_dec y x); split; intros; try easy; lra. Qed.

Lemma max_spec x y : (x <= y /\ JS.max x y == y) \/ (y <= x /\ JS.max x y == x).
Proof.
  unfold JS.max. destruct (Qlt_le_dec x y).
  - left. split; [lra|]. apply Q.max_r. lra.
  - right. split; [lra|]. apply Q.max_l. lra.
Qed.

Lemma min_spec x y : (x <= y /\ JS.min x y == x) \/ (y <= x /\ JS.min x y == y).
Proof.
  unfold JS.min. destruct (Qlt_le_dec x y).
  - left. split; [lra|]. apply Q.min_l. lra.
  - right. split; [lra|]. apply Q.min_r. lra.
Qed.

End JSFacts.

(** Case analysis on every [Math.min] / [Math.max] of the goal. *)
Ltac minmax :=
  repeat match goal with
  | |- context [JS.max ?a ?b] =>
      let H := fresh "Hmax" in
      destruct (JSFacts.max_spec a b) as [[? H]|[? H]];
      generalize dependent (JS.max a b); intros
  | |- context [JS.min ?a ?b] =>
      let H := fresh "Hmin" in
      destruct (JSFacts.min_spec a b) as [[? H]|[? H]];
      generalize dependent (JS.min a b); intros
  end.

(* ===================================================================== *)
(** ** The clock: wrap-around, ticks, duration callback and seek *)
(* ===================================================================== *)

Module ClockTheory.
Import Clock Scenarios.

(** [((x % d) + d) % d] is the mathematical modulus of [x] by [d]. *)
Lemma wrap_range x d : 0 < d -> 0 <= wrap x d < d.
Proof.
  intros Hd. unfold wrap. apply JSFacts.rem_nonneg_range; [assumption|].
  pose proof (JSFacts.rem_lower x d Hd). lra.
Qed.

Lemma wrap_floor x d :
  0 < d -> wrap x d == x - d * inject_Z (Qfloor (x / d)).
Proof.
  intros Hd. pose proof (wrap_range x d Hd) as Hr. unfold wrap in *.
  pose proof (JSFacts.rem_lower x d Hd) as Hl.
  rewrite JSFacts.rem_nonneg in * by lra.
  unfold JS.rem in *.
  set (a := JS.trunc (x / d)) in *.
  set (y := x - d * inject_Z a + d) in *.
  set (b := Qfloor (y / d)) in *.
  assert (Hk : Qfloor (x / d) = (a + - (1) + b)%Z).
  { assert (Hx : x == d * (x / d)) by (field; lra).
    assert (E : y - d * inject_Z b == d * (x / d - inject_Z (a + - (1) + b))).
    { unfold y. rewrite !inject_Z_plus, inject_Z_opp.
      change (inject_Z 1) with 1. rewrite Hx at 1. ring. }
    rewrite E in Hr. destruct Hr as [Hr1 Hr2].
    apply JSFacts.floor_unique.
    - apply (Qmult_le_l _ _ d Hd). lra.
    - apply (Qmult_lt_l _ _ d Hd). lra. }
  rewrite Hk. unfold y. rewrite !inject_Z_plus, inject_Z_opp.
  change (inject_Z 1) with 1. ring.
Qed.

(** A time already inside [[0, d)] is left where it is. *)
Lemma wrap_id x d : 0 <= x < d -> wrap x d == x.
Proof.
  intros [H0 H1]. assert (Hd : 0 < d) by lra.
  rewrite wrap_floor by assumption.
  assert (E : Qfloor (x / d) = 0%Z).
  { apply JSFacts.floor_unique.
    - change (inject_Z 0) with 0. apply Qle_shift_div_l; lra.
    - change (inject_Z 0) with 0. apply Qlt_shift_div_r; lra. }
  rewrite E. change (inject_Z 0) with 0. ring.
Qed.

(** The updater of [loop] keeps the time inside [[0, duration)], whatever
    the elapsed time and the accumulator are. *)
Lemma advance_range st dt prev :
  0 < duration st -> 0 <= prev < duration st ->
  0 <= fst (advance st dt prev) < duration st.
Proof.
  intros Hd Hp. unfold advance.
  destruct (negb (playing st) || JS.le (duration st) 0); [exact Hp|].
  assert (G : JS.gt (duration st) 0 = true) by (now apply JSFacts.gt_true).
  rewrite G.
  destruct (negb (snapFrames st)); cbn [fst].
  - now apply wrap_range.
  - destruct (JS.floor _ <=? 0)%Z; cbn [fst]; [exact Hp|].
    match goal with |- context [wrap ?x ?d] =>
      pose proof (wrap_range x d Hd) as Hw; generalize dependent (wrap x d) end.
    intros w Hw.
    assert (Hs : 0 < 1 / FPS / 2) by reflexivity.
    minmax; lra.
Qed.

Lemma loop_duration ts st : duration (loop ts st) = duration st.
Proof. unfold loop. now destruct (advance _ _ _). Qed.

Lemma loop_time ts st :
  time (loop ts st) =
  fst (advance st (JS.min (JS.max ((ts - default ts (lastTsRef st)) / 1000) 0)
                          (5 # 100)) (time st)).
Proof. unfold loop. now destruct (advance _ _ _). Qed.

Lemma commit_time old new : time (commit old new) = time new.
Proof. unfold commit. now destruct (same_deps old new). Qed.

Lemma commit_duration old new : duration (commit old new) = duration new.
Proof. unfold commit. now destruct (same_deps old new). Qed.

Lemma step_duration st e : duration (step st e) = duration st.
Proof.
  destruct e; cbn [step]; [apply loop_duration| | |];
    unfold setPlaying, setSpeed, setSnapFrames; now rewrite commit_duration.
Qed.

Lemma step_range st e :
  0 < duration st -> 0 <= time st < duration st ->
  0 <= time (step st e) < duration (step st e).
Proof.
  intros Hd Ht. rewrite step_duration. destruct e; cbn [step].
  - rewrite loop_time. now apply advance_range.
  - unfold setPlaying. now rewrite commit_time.
  - unfold setSpeed. now rewrite commit_time.
  - unfold setSnapFrames. now rewrite commit_time.
Qed.

Lemma run_snoc st es e : run st (es ++ [e]) = step (run st es) e.
Proof. unfold run. now rewrite foldl_app. Qed.

Lemma run_duration st es : duration (run st es) = duration st.
Proof.
  induction es as [|e es IH] using rev_ind; [reflexivity|].
  now rewrite run_snoc, step_duration.
Qed.

Lemma run_range st es :
  0 < duration st -> 0 <= time st < duration st ->
  0 <= time (run st es) < duration st.
Proof.
  intros Hd Ht. induction es as [|e es IH] using rev_ind; [exact Ht|].
  rewrite run_snoc. rewrite <- (run_duration st es) in IH, Hd.
  rewrite <- (run_duration st es), <- (step_duration (run st es) e).
  now apply step_range.
Qed.

(** C1.  Clock invariant: with a positive animation duration and a current
    time that starts inside [[0, duration)], the current time is inside
    [[0, duration)] after every prefix of every sequence of ticks, for all
    host timestamps and under every interleaved change of [playing],
    [speed] and [snapFrames]; the duration itself is never changed by a
    tick. *)
Theorem clock_invariant (st : state) (es : list event) :
  0 < duration st -> 0 <= time st < duration st ->
  forall k : nat,
    duration (run st (take k es)) = duration st /\
    0 <= time (run st (take k es)) < duration st.
Proof.
  intros Hd Ht k. split; [apply run_duration|now apply run_range].
Qed.

Lemma clock_invariant_witness :
  duration (run witness_state (take 9 witness_events)) = 2 /\
  0 <= time (run witness_state (take 9 witness_events)) < 2.
Proof.
  apply (clock_invariant witness_state witness_events).
  - reflexivity.
  - split; [discriminate|reflexivity].
Defined.

(** A tick of a playing clock without frame snapping. *)
Lemma loop_continuous ts st l :
  playing st = true -> snapFrames st = false -> 0 < duration st ->
  lastTsRef st = Some l ->
  time (loop ts st) =
    wrap (time st + JS.min (JS.max ((ts - l) / 1000) 0) (5 # 100)
                    * JS.min 2 (JS.max (1 # 10) (speed st)))
         (duration st)
  /\ lastTsRef (loop ts st) = Some ts
  /\ playing (loop ts st) = true /\ snapFrames (loop ts st) = false
  /\ speed (loop ts st) = speed st /\ duration (loop ts st) = duration st.
Proof.
  intros Hp Hs Hd Hl. unfold loop, advance. rewrite Hp, Hs, Hl. cbn.
  assert (G : JS.gt (duration st) 0 = true) by (now apply JSFacts.gt_true).
  unfold JS.le. rewrite G. cbn. repeat split; assumption.
Qed.

(** A stall of at least 50 ms advances a continuous clock at speed 1 by
    exactly 50 ms, as long as that does not reach the loop boundary. *)
Lemma loop_stalled ts st l :
  playing st = true -> snapFrames st = false -> lastTsRef st = Some l ->
  speed st == 1 -> 50 <= ts - l ->
  0 <= time st -> time st + (5 # 100) < duration st ->
  time (loop ts st) == time st + (5 # 100).
Proof.
  intros Hp Hs Hl Hv He H0 H1.
  destruct (loop_continuous ts st l) as [E _]; try assumption; [lra|].
  assert (D : 5 # 100 <= (ts - l) / 1000) by (apply Qle_shift_div_l; lra).
  assert (A : JS.min (JS.max ((ts - l) / 1000) 0) (5 # 100) == 5 # 100)
    by (minmax; lra).
  assert (B : JS.min 2 (JS.max (1 # 10) (speed st)) == 1) by (minmax; lra).
  rewrite E, wrap_id; rewrite A, B; lra.
Qed.

(** C2 (as the code has it).  With [animationDuration = 2], [speed = 1],
    snapping off, playing, and the current time at 0, two ticks whose
    elapsed wall times are 1.5 s and 1.0 s leave the current time at 0.1:
    each elapsed time is clamped to 0.05 s before it is used. *)
Theorem two_ticks_elapsed_clamped (ts0 acc : Q) :
  time (run (mkState 0 2 true 1 false (Some ts0) acc)
            [Tick (ts0 + 1500); Tick (ts0 + 2500)]) == 1 # 10.
Proof.
  unfold run. cbn [foldl step].
  set (st0 := mkState 0 2 true 1 false (Some ts0) acc).
  destruct (loop_continuous (ts0 + 1500) st0 ts0) as (_ & L1 & P1 & S1 & V1 & D1);
    try reflexivity.
  assert (T1 : time (loop (ts0 + 1500) st0) == 5 # 100).
  { rewrite (loop_stalled (ts0 + 1500) st0 ts0); try reflexivity; cbn; lra. }
  rewrite (loop_stalled _ _ (ts0 + 1500)); try assumption.
  - rewrite T1. reflexivity.
  - rewrite V1. reflexivity.
  - lra.
  - rewrite T1. discriminate.
  - rewrite D1, T1. reflexivity.
Qed.

(** C2, the scenario as the specification words it: the current time is
    not 0.5 after the two ticks. *)
Lemma two_ticks_not_half :
  ~ time (run (mkState 0 2 true 1 false (Some 0) 0) [Tick 1500; Tick 2500])
    == 1 # 2.
Proof. intros H. vm_compute in H. discriminate H. Qed.

(** What [onReadyDuration] stores. *)
Lemma onReadyDuration_time d st :
  time (onReadyDuration d st) = (if JS.gt d 0 then wrap (time st) d else 0).
Proof. unfold onReadyDuration. now rewrite commit_time. Qed.

Lemma onReadyDuration_duration d st : duration (onReadyDuration d st) = d.
Proof. unfold onReadyDuration. now rewrite commit_duration. Qed.

(** C6 (as the code has it).  [onReadyDuration d] stores [d] itself as the
    animation duration, for every [d].  When [d > 0] the current time
    becomes [((t % d) + d) % d], which is the modulus [t - d * floor (t / d)]
    and lies in [[0, d)]; otherwise it becomes 0.  This holds from every
    prior state, so also when the callback fires again; [playing], [speed]
    and [snapFrames] are left alone. *)
Theorem onReadyDuration_spec (d : Q) (st : state) :
  duration (onReadyDuration d st) = d /\
  (0 < d ->
     time (onReadyDuration d st) = wrap (time st) d /\
     time (onReadyDuration d st) == time st - d * inject_Z (Qfloor (time st / d)) /\
     0 <= time (onReadyDuration d st) < d) /\
  (d <= 0 -> time (onReadyDuration d st) = 0) /\
  playing (onReadyDuration d st) = playing st /\
  speed (onReadyDuration d st) = speed st /\
  snapFrames (onReadyDuration d st) = snapFrames st.
Proof.
  rewrite onReadyDuration_time, onReadyDuration_duration.
  split; [reflexivity|]. split; [|split].
  - intros Hd. pose proof Hd as G. apply JSFacts.gt_true in G. rewrite G.
    split; [reflexivity|]. split; [now apply wrap_floor|now apply wrap_range].
  - intros Hd. apply JSFacts.gt_false in Hd. now rewrite Hd.
  - unfold onReadyDuration, commit.
    destruct (same_deps _ _); repeat split; reflexivity.
Qed.

Lemma onReadyDuration_spec_witness :
  duration (onReadyDuration 2 (mkState (7 # 2) 5 true 1 true (Some 10) 0)) = 2 /\
  time (onReadyDuration 2 (mkState (7 # 2) 5 true 1 true (Some 10) 0)) == 3 # 2 /\
  time (onReadyDuration (-1) (mkState (7 # 2) 5 true 1 true (Some 10) 0)) = 0.
Proof.
  pose proof (onReadyDuration_spec 2 (mkState (7 # 2) 5 true 1 true (Some 10) 0))
    as (Hd & Hpos & _).
  pose proof (onReadyDuration_spec (-1) (mkState (7 # 2) 5 true 1 true (Some 10) 0))
    as (_ & _ & Hneg & _).
  split; [exact Hd|]. split.
  - destruct (Hpos eq_refl) as (_ & E & _). rewrite E. reflexivity.
  - apply Hneg. discriminate.
Defined.

(** C6, as the specification words it: a negative [d] is stored as it is,
    not as [max(0, d)]. *)
Lemma onReadyDuration_keeps_negative :
  ~ duration (onReadyDuration (-1) (mkState 0 2 true 1 true None 0))
    == JS.max 0 (-1).
Proof. intros H. vm_compute in H. discriminate H. Qed.

(** Firing the callback a second time with the same duration leaves the
    current time where the first call put it. *)
Lemma onReadyDuration_twice d st :
  time (onReadyDuration d (onReadyDuration d st)) == time (onReadyDuration d st).
Proof.
  rewrite (onReadyDuration_time d (onReadyDuration d st)).
  destruct (JS.gt d 0) eqn:G.
  - rewrite onReadyDuration_time, G. apply wrap_id, wrap_range.
    now apply JSFacts.gt_true.
  - rewrite onReadyDuration_time, G. reflexivity.
Qed.

(** The seek agrees with the specification's [seekAbsolute] when snapping
    is off, and in the two branches without a positive series duration. *)
Lemma handleGraphSeek_no_snap jd t st :
  snapFrames st = false -> handleGraphSeek jd t st = graphSeek_spec jd t st.
Proof.
  intros Hs. unfold handleGraphSeek, graphSeek_spec, seekAbsolute_spec.
  now rewrite Hs.
Qed.

Lemma handleGraphSeek_only_animation jd t st :
  jd <= 0 -> handleGraphSeek jd t st = graphSeek_spec jd t st.
Proof.
  intros Hj. unfold handleGraphSeek, graphSeek_spec, seekAbsolute_spec.
  apply JSFacts.gt_false in Hj. rewrite Hj, andb_false_r. reflexivity.
Qed.

Lemma handleGraphSeek_noop jd t st :
  duration st <= 0 -> handleGraphSeek jd t st = st.
Proof.
  intros Hd. unfold handleGraphSeek. apply JSFacts.gt_false in Hd.
  now rewrite Hd.
Qed.

(** C7.  With both durations positive and snapping on, [handleGraphSeek]
    rounds first and clamps afterwards.  A click at the end of a series of
    duration 1, with an animation of 1.006 s, stores 1.006, which is not a
    multiple of 1/120; clamping first and rounding afterwards, as the
    specification's [seekAbsolute] does, gives 121/120, and so does the
    code's own branch without a series duration for the same target time
    1.006. *)
Theorem handleGraphSeek_rounds_before_clamp :
  time (handleGraphSeek 1 1 (mkState 0 (503 # 500) true 1 true None 0))
    == 503 # 500 /\
  time (graphSeek_spec 1 1 (mkState 0 (503 # 500) true 1 true None 0))
    == 121 # 120 /\
  time (handleGraphSeek 0 (503 # 500) (mkState 0 (503 # 500) true 1 true None 0))
    == 121 # 120 /\
  ~ 503 # 500 == 121 # 120.
Proof. vm_compute. repeat split; try reflexivity. discriminate. Qed.

End ClockTheory.

(* ===================================================================== *)
(** ** Channel discovery *)
(* ===================================================================== *)

Module SeriesTheory.
Import Series.

#[local] Open Scope string_scope.

(** *** The sort order *)

Lemma str_le_nil_l (s : string) : str_le "" s.
Proof. now destruct s. Qed.

Lemma str_le_cons (x y : ascii) (a b : string) :
  str_le (String x a) (String y b) <->
  (N_of_ascii x < N_of_ascii y)%N \/ (x = y /\ str_le a b).
Proof.
  unfold str_le, String.leb. cbn [String.compare]. unfold Ascii.compare.
  destruct (N.compare_spec (N_of_ascii x) (N_of_ascii y)) as [E|L|G].
  - apply (f_equal ascii_of_N) in E. rewrite !ascii_N_embedding in E. subst y.
    split; [intros H; right; auto|intros [H|[_ H]]; [lia|exact H]].
  - split; [now left|reflexivity].
  - split; [discriminate|].
    intros [H|[H _]]; [lia|subst y; lia].
Qed.

#[export] Instance str_le_trans : Transitive str_le.
Proof.
  intros a. induction a as [|x a IH]; intros b c Hab Hbc.
  - apply str_le_nil_l.
  - destruct b as [|y b]; [discriminate Hab|].
    destruct c as [|z c]; [discriminate Hbc|].
    apply str_le_cons in Hab, Hbc. apply str_le_cons.
    destruct Hab as [Hab|[-> Hab]], Hbc as [Hbc|[-> Hbc]].
    + left. lia.
    + now left.
    + now left.
    + right. split; [reflexivity|]. now apply (IH b).
Qed.

#[export] Instance str_le_total : Total str_le.
Proof. intros a b. apply String.leb_total. Qed.

#[export] Instance str_le_antisym : AntiSymm (=) str_le.
Proof. intros a b. apply String.leb_antisym. Qed.

(** *** What one row contributes *)

Lemma finite_number_Some (v : jsvalue) (q : Q) :
  finite_number v = Some q <-> v = VNumber (Fin q).
Proof.
  destruct v as [| | |[]|]; cbn; split; intros H; try discriminate;
    now inversion H.
Qed.

Lemma elem_of_numericKeys (k : string) (fields : gmap string jsvalue) :
  k ∈ numericKeys fields <->
  reserved k = false /\ exists q : Q, fields !! k = Some (VNumber (Fin q)).
Proof.
  unfold numericKeys. rewrite elem_of_dom. unfold is_Some. split.
  - intros [v Hv]. apply map_lookup_filter_Some in Hv as [Hk HP].
    cbn in HP. apply andb_prop_elim in HP as [Hr Hf].
    apply negb_prop_elim, Is_true_false in Hr.
    apply bool_decide_unpack in Hf as [q Hq].
    apply finite_number_Some in Hq. subst v. eauto.
  - intros [Hr [q Hq]]. exists (VNumber (Fin q)).
    apply map_lookup_filter_Some. split; [exact Hq|].
    cbn [fst snd]. rewrite Hr. cbn [negb andb].
    apply bool_decide_pack. exists q. reflexivity.
Qed.

(** *** The accumulated set *)

Lemma elem_of_foldl_addRow (k : string) (data : list row) (set : gset string) :
  k ∈ foldl addRow set data <->
  k ∈ set \/ exists fields, RObject fields ∈ data /\ k ∈ numericKeys fields.
Proof.
  revert set. induction data as [|d data IH]; intros set; cbn [foldl].
  - split; [now left|]. intros [H|(f & H & _)]; [exact H|].
    now apply elem_of_nil in H.
  - rewrite IH. destruct d as [|f]; cbn [addRow].
    + split.
      * intros [H|(f & H & Hk)]; [now left|]. right. exists f.
        split; [now apply elem_of_cons; right|exact Hk].
      * intros [H|(f & H & Hk)]; [now left|]. right. exists f.
        apply elem_of_cons in H as [H|H]; [discriminate H|]. now split.
    + rewrite elem_of_union. split.
      * intros [[H|H]|(g & H & Hk)].
        -- now left.
        -- right. exists f. split; [apply elem_of_cons; now left|exact H].
        -- right. exists g. split; [apply elem_of_cons; now right|exact Hk].
      * intros [H|(g & H & Hk)]; [left; now left|].
        apply elem_of_cons in H as [H|H].
        -- inversion H; subst g. left. now right.
        -- right. exists g. now split.
Qed.

Lemma listNumericChannels_unfold (data : list row) :
  listNumericChannels data = merge_sort str_le (elements (foldl addRow ∅ data)).
Proof. reflexivity. Qed.

Lemma elem_of_listNumericChannels (data : list row) (k : string) :
  k ∈ listNumericChannels data <->
  reserved k = false /\
  exists (fields : gmap string jsvalue) (q : Q),
    RObject fields ∈ data /\ fields !! k = Some (VNumber (Fin q)).
Proof.
  rewrite listNumericChannels_unfold, merge_sort_Permutation.
  rewrite elem_of_elements, elem_of_foldl_addRow. split.
  - intros [H|(f & Hf & Hk)]; [now apply elem_of_empty in H|].
    apply elem_of_numericKeys in Hk as [Hr [q Hq]]. eauto.
  - intros [Hr (f & q & Hf & Hq)]. right. exists f. split; [exact Hf|].
    apply elem_of_numericKeys. eauto.
Qed.

Lemma listNumericChannels_sorted (data : list row) :
  StronglySorted str_le (listNumericChannels data).
Proof. rewrite listNumericChannels_unfold. apply StronglySorted_merge_sort; apply _. Qed.

Lemma listNumericChannels_NoDup (data : list row) :
  NoDup (listNumericChannels data).
Proof.
  rewrite listNumericChannels_unfold, merge_sort_Permutation.
  apply NoDup_elements.
Qed.

(** The order in which the [Set] hands out its elements does not show:
    sorting any enumeration of them gives the same list. *)
Lemma listNumericChannels_any_order (data : list row) (l : list string) :
  l ≡ₚ elements (foldl addRow ∅ data) ->
  merge_sort str_le l = listNumericChannels data.
Proof.
  intros Hl. apply (StronglySorted_unique str_le).
  - apply StronglySorted_merge_sort; apply _.
  - apply listNumericChannels_sorted.
  - rewrite listNumericChannels_unfold, !merge_sort_Permutation. exact Hl.
Qed.

(** C8.  [listNumericChannels] returns exactly the field names that are not
    reserved and hold a finite number in at least one row; [t], [time] and
    [frame] are never in the result; the result is sorted
    lexicographically and has no duplicates. *)
Theorem listNumericChannels_spec (data : list row) :
  (forall k : string,
     k ∈ listNumericChannels data <->
     reserved k = false /\
     exists (fields : gmap string jsvalue) (q : Q),
       RObject fields ∈ data /\ fields !! k = Some (VNumber (Fin q))) /\
  ("t" ∉ listNumericChannels data) /\
  ("time" ∉ listNumericChannels data) /\
  ("frame" ∉ listNumericChannels data) /\
  StronglySorted str_le (listNumericChannels data) /\
  NoDup (listNumericChannels data).
Proof.
  split; [apply elem_of_listNumericChannels|].
  repeat split.
  - intros H. apply elem_of_listNumericChannels in H as [H _]. discriminate H.
  - intros H. apply elem_of_listNumericChannels in H as [H _]. discriminate H.
  - intros H. apply elem_of_listNumericChannels in H as [H _]. discriminate H.
  - apply listNumericChannels_sorted.
  - apply listNumericChannels_NoDup.
Qed.

(** Sorted without duplicates: every name is strictly below the ones after
    it. *)
Lemma listNumericChannels_increasing (data : list row) :
  StronglySorted (fun a b => String.ltb a b = true) (listNumericChannels data).
Proof.
  pose proof (listNumericChannels_sorted data) as Hs.
  pose proof (listNumericChannels_NoDup data) as Hn.
  induction Hs as [|a l Hs IH Ha]; constructor.
  - apply IH. now apply NoDup_cons in Hn.
  - apply NoDup_cons in Hn as [Hnot _].
    apply Forall_forall. intros b Hb.
    rewrite Forall_forall in Ha. specialize (Ha b Hb).
    unfold str_le, String.leb in Ha. unfold String.ltb.
    destruct (String.compare a b) eqn:E; try easy.
    apply String.compare_eq_iff in E. now subst b.
Qed.

(** The scenario of a sheet with a frame counter: the reserved names and
    the text column are left out. *)
Example listNumericChannels_scenario :
  listNumericChannels
    [RNullish;
     RObject (<["frame" := VNumber (Fin 1)]> (<["t" := VNumber (Fin 0)]>
               (<["Wrist" := VNumber (Fin 3)]> {["label" := VString "a"]})));
     RObject (<["Elbow" := VNumber (Fin 2)]> (<["Wrist" := VNumber NaN]>
               {["Knee" := VNumber (Inf false)]}))]
  = ["Elbow"; "Wrist"].
Proof. vm_compute. reflexivity. Qed.

End SeriesTheory.

(* ===================================================================== *)
(** ** Series building *)
(* ===================================================================== *)

Module BuildSeriesTheory.
Import Series Scenarios.

#[local] Open Scope string_scope.
#[local] Open Scope list_scope.

Lemma hasKey_true (k : string) (data : list row) :
  hasKey k data = true <-> exists d x, d ∈ data /\ get d k = VNumber x.
Proof.
  unfold hasKey. rewrite existsb_exists. split.
  - intros (d & Hd & Ht). apply list_elem_of_In in Hd.
    destruct (get d k) eqn:E; try discriminate. eauto.
  - intros (d & x & Hd & E). exists d. split; [now apply list_elem_of_In|].
    now rewrite E.
Qed.

Lemma hasKey_false (k : string) (data : list row) :
  hasKey k data = false <-> ~ exists d x, d ∈ data /\ get d k = VNumber x.
Proof.
  rewrite <- hasKey_true. destruct (hasKey k data); split; easy.
Qed.

(** The choice of the key: [t] as soon as one row holds a value of type
    number under [t], finite or not; else [time] under the same test; else
    none. *)
Lemma timeKey_cases (data : list row) :
  (timeKey data = Some "t" <->
     exists d x, d ∈ data /\ get d "t" = VNumber x) /\
  (timeKey data = Some "time" <->
     (~ exists d x, d ∈ data /\ get d "t" = VNumber x) /\
     exists d x, d ∈ data /\ get d "time" = VNumber x) /\
  (timeKey data = None <->
     (~ exists d x, d ∈ data /\ get d "t" = VNumber x) /\
     ~ exists d x, d ∈ data /\ get d "time" = VNumber x).
Proof.
  unfold timeKey. rewrite <- !hasKey_false, <- !hasKey_true.
  destruct (hasKey "t" data), (hasKey "time" data);
    repeat split; intros; try easy; try (destruct_and?; easy).
Qed.

(** Where every number under [t] and [time] is finite, the code's choice is
    the one the specification words. *)
Lemma timeKey_finite_agree (data : list row) :
  (forall d k x, d ∈ data -> get d k = VNumber x -> is_Some (isFinite x)) ->
  timeKey data = timeKey_finite data.
Proof.
  intros Hfin.
  assert (E : forall k, hasKey k data = hasFiniteKey k data).
  { intros k. unfold hasKey, hasFiniteKey. apply eq_true_iff_eq.
    rewrite !existsb_exists. split; intros (d & Hd & H); exists d;
      (split; [exact Hd|]).
    - destruct (get d k) eqn:G; try discriminate. cbn.
      apply bool_decide_eq_true. apply (Hfin d k); [|exact G].
      now apply list_elem_of_In.
    - apply bool_decide_eq_true in H as [q Hq].
      destruct (get d k); try discriminate. reflexivity. }
  unfold timeKey, timeKey_finite. now rewrite !E.
Qed.

(** The index-based time is [i / (n - 1)], and 0 for a single row. *)
Lemma indexTime_many (n i : nat) :
  (1 < n)%nat ->
  indexTime n i == inject_Z (Z.of_nat i) / (inject_Z (Z.of_nat n) - 1).
Proof.
  intros Hn. unfold indexTime.
  destruct (Nat.ltb_spec 1 n) as [_|]; [|lia].
  replace (Z.of_nat (n - 1)) with (Z.of_nat n + - (1))%Z by lia.
  rewrite inject_Z_plus, inject_Z_opp. reflexivity.
Qed.

Lemma indexTime_single (n i : nat) : (n <= 1)%nat -> indexTime n i = 0.
Proof.
  intros Hn. unfold indexTime. destruct (Nat.ltb_spec 1 n); [lia|reflexivity].
Qed.

Section WithCoercion.

Variable StringToNumber : string -> jsnum.

#[local] Abbreviation collect := (collect StringToNumber).
#[local] Abbreviation pointOf := (pointOf StringToNumber).
#[local] Abbreviation buildSeries := (buildSeries StringToNumber).

Lemma collect_app tKey c n i (l1 l2 : list row) :
  collect tKey c n i (l1 ++ l2) =
  collect tKey c n i l1 ++ collect tKey c n (i + length l1) l2.
Proof.
  revert i. induction l1 as [|d l1 IH]; intros i; cbn [collect app length].
  - now rewrite Nat.add_0_r.
  - rewrite IH. replace (S i + length l1)%nat with (i + S (length l1))%nat by lia.
    now destruct (pointOf tKey c n i d).
Qed.

(** The loop, row by row: the points of the rows that are kept, in the
    order of the rows, each with the index of its row among all rows. *)
Lemma collect_imap tKey c n i (l : list row) :
  collect tKey c n i l =
  omap id (imap (fun j d => pointOf tKey c n (i + j) d) l).
Proof.
  revert i. induction l as [|d l IH]; intros i; [reflexivity|].
  cbn [collect imap omap]. rewrite Nat.add_0_r. rewrite IH.
  assert (E : imap (fun j d0 => pointOf tKey c n (S i + j) d0) l
            = imap ((fun j d0 => pointOf tKey c n (i + j) d0) ∘ S) l).
  { apply imap_ext. intros j x _. cbn. f_equal. lia. }
  rewrite E. now destruct (pointOf tKey c n i d).
Qed.

(** How [buildSeries] goes from the collected points to its result. *)
Lemma buildSeries_unfold (data : list row) (channel : option string) (c : string) :
  data <> [] -> truthy channel = Some c ->
  let raw := collect (timeKey data) c (length data) 0 data in
  buildSeries data channel =
    match raw with
    | [] => mkResult [] 0
    | p0 :: _ =>
        mkResult (List.map (fun p => mkPoint (t p - t p0) (value p)) raw)
                 (JS.max 0 (t (List.last raw p0) - t p0))
    end.
Proof.
  intros Hd Hc. unfold Series.buildSeries. rewrite Hc.
  destruct data; [contradiction|reflexivity].
Qed.

Lemma buildSeries_no_input (data : list row) (channel : option string) :
  data = [] \/ truthy channel = None -> buildSeries data channel = mkResult [] 0.
Proof.
  unfold Series.buildSeries. intros [-> | ->]; [reflexivity|now destruct data].
Qed.

Lemma last_map {A B} (f : A -> B) (l : list A) (a : A) :
  List.last (List.map f l) (f a) = f (List.last l a).
Proof.
  induction l as [|x l IH]; [reflexivity|].
  destruct l; [reflexivity|exact IH].
Qed.

(** The shape of every non-empty result. *)
Lemma buildSeries_nonempty (data : list row) (channel : option string)
    (p : SeriesPoint) (rest : list SeriesPoint) :
  pts (buildSeries data channel) = p :: rest ->
  exists (c : string) (p0 : SeriesPoint) (raw : list SeriesPoint),
    truthy channel = Some c /\
    collect (timeKey data) c (length data) 0 data = p0 :: raw /\
    p = mkPoint (t p0 - t p0) (value p0) /\
    List.last (p :: rest) p = mkPoint (t (List.last (p0 :: raw) p0) - t p0)
                                     (value (List.last (p0 :: raw) p0)) /\
    dur (buildSeries data channel) = JS.max 0 (t (List.last (p0 :: raw) p0) - t p0).
Proof.
  intros H.
  destruct (truthy channel) as [c|] eqn:Hc;
    [|rewrite buildSeries_no_input in H by (now right); discriminate H].
  destruct data as [|d data];
    [rewrite buildSeries_no_input in H by (now left); discriminate H|].
  rewrite (buildSeries_unfold _ _ c) in * by easy. cbv zeta in *.
  destruct (collect _ c _ 0 (d :: data)) as [|p0 raw] eqn:E; [discriminate H|].
  cbn [pts dur] in *. exists c, p0, raw.
  split; [reflexivity|]. split; [exact E|].
  assert (Hp : p = mkPoint (t p0 - t p0) (value p0))
    by (cbn [List.map] in H; now inversion H).
  split; [exact Hp|]. split; [|reflexivity].
  rewrite <- H, Hp.
  apply (last_map (fun q => mkPoint (t q - t p0) (value q)) (p0 :: raw) p0).
Qed.

(** Without a time key a kept row gets the index-based time of its
    position among all rows. *)
Lemma collect_fallback c n (l : list row) :
  collect None c n 0 l =
  omap id (imap (fun i d => mkPoint (indexTime n i) <$> finite_number (get d c)) l).
Proof.
  rewrite collect_imap. reflexivity.
Qed.

(** C9 (as the code has it).  For rows that are not empty and a channel
    that is set, [buildSeries] returns the points of the kept rows, made
    relative to the first of them, and as duration the last relative time
    clamped below at 0, where the kept rows and their times come from the
    time key: if one row holds a value of type number under [t] (finite or
    not), a row with a finite channel value is kept when [Number(row.t)] is
    finite, with that time; else, if one row holds a value of type number
    under [time], the same with [time]; else every row with a finite
    channel value is kept, with the time [i / (n - 1)] (0 when [n] is 1) of
    its index [i] among all [n] rows. *)
Theorem buildSeries_time_key (data : list row) (channel : option string)
    (c : string) :
  data <> [] -> truthy channel = Some c ->
  let n := length data in
  let relative (raw : list SeriesPoint) :=
    match raw with
    | [] => mkResult [] 0
    | p0 :: _ =>
        mkResult (List.map (fun p => mkPoint (t p - t p0) (value p)) raw)
                 (JS.max 0 (t (List.last raw p0) - t p0))
    end in
  let keyed (k : string) :=
    omap id (imap (fun (_ : nat) (d : row) =>
                     match finite_number (get d c) with
                     | Some v =>
                         match isFinite (Number StringToNumber (get d k)) with
                         | Some tv => Some (mkPoint tv v)
                         | None => None
                         end
                     | None => None
                     end) data) in
  let indexed :=
    omap id (imap (fun (i : nat) (d : row) =>
                     match finite_number (get d c) with
                     | Some v =>
                         Some (mkPoint
                                 (if (1 <? n)%nat
                                  then inject_Z (Z.of_nat i)
                                       / inject_Z (Z.of_nat (n - 1))
                                  else 0) v)
                     | None => None
                     end) data) in
  ((exists d x, d ∈ data /\ get d "t" = VNumber x) ->
   buildSeries data channel = relative (keyed "t")) /\
  ((~ exists d x, d ∈ data /\ get d "t" = VNumber x) ->
   (exists d x, d ∈ data /\ get d "time" = VNumber x) ->
   buildSeries data channel = relative (keyed "time")) /\
  ((~ exists d x, d ∈ data /\ get d "t" = VNumber x) ->
   (~ exists d x, d ∈ data /\ get d "time" = VNumber x) ->
   buildSeries data channel = relative indexed).
Proof.
  intros Hd Hc n relative keyed indexed.
  pose proof (buildSeries_unfold data channel c Hd Hc) as E. cbv zeta in E.
  rewrite collect_imap in E.
  destruct (timeKey_cases data) as (H1 & H2 & H3).
  split; [|split].
  - intros Ht. apply H1 in Ht. rewrite Ht in E. exact E.
  - intros Hnt Htime. rewrite (proj2 H2 (conj Hnt Htime)) in E. exact E.
  - intros Hnt Hntime. rewrite (proj2 H3 (conj Hnt Hntime)) in E. exact E.
Qed.

(** C10 (as the code has it).  In every non-empty result the first point
    has relative time 0, and the duration is the last point's relative
    time clamped below at 0: it is at least 0, and it is the last relative
    time whenever that is not negative. *)
Theorem buildSeries_first_and_duration (data : list row)
    (channel : option string) (p : SeriesPoint) (rest : list SeriesPoint) :
  pts (buildSeries data channel) = p :: rest ->
  t p == 0 /\
  dur (buildSeries data channel) = JS.max 0 (t (List.last (p :: rest) p)) /\
  0 <= dur (buildSeries data channel) /\
  (0 <= t (List.last (p :: rest) p) ->
   dur (buildSeries data channel) == t (List.last (p :: rest) p)).
Proof.
  intros H.
  destruct (buildSeries_nonempty _ _ _ _ H) as (c & p0 & raw & _ & _ & Hp & Hl & Hd).
  rewrite Hd, Hl. cbn [t]. split; [rewrite Hp; cbn [t]; ring|].
  split; [reflexivity|]. split; [|intros Hpos]; minmax; lra.
Qed.

(** A row with a finite channel value and a finite number under the time
    key is kept, with that number as its time. *)
Lemma pointOf_explicit (k c : string) (n i : nat) (d : row) (v x : Q) :
  finite_number (get d c) = Some v -> get d k = VNumber (Fin x) ->
  pointOf (Some k) c n i d = Some (mkPoint x v).
Proof. intros Hv Hx. unfold Series.pointOf. now rewrite Hv, Hx. Qed.

(** C3 (as the code has it).  For rows in which the channel is a finite
    number everywhere and whose first and last rows hold finite numbers
    [a] and [b] under [t], the duration is [max(0, b - a)]; it is [b - a]
    when the last time is not before the first. *)
Theorem buildSeries_duration_explicit_t (data : list row)
    (channel : option string) (c : string) (d0 dl : row) (a b : Q) :
  truthy channel = Some c ->
  head data = Some d0 -> last data = Some dl ->
  (forall d, d ∈ data -> is_Some (finite_number (get d c))) ->
  get d0 "t" = VNumber (Fin a) -> get dl "t" = VNumber (Fin b) ->
  dur (buildSeries data channel) = JS.max 0 (b - a) /\
  (a <= b -> dur (buildSeries data channel) == b - a).
Proof.
  intros Hc Hh Hl Hfin Ha Hb.
  assert (Hd : dur (buildSeries data channel) = JS.max 0 (b - a)).
  { destruct (Hfin d0) as [v0 Hv0];
      [destruct data; [discriminate Hh|inversion Hh; set_solver]|].
    apply last_Some in Hl as [l' Hl'].
    destruct (Hfin dl) as [vl Hvl]; [rewrite Hl'; set_solver|].
    assert (Hk : timeKey data = Some "t").
    { apply timeKey_cases. exists d0, (Fin a). split; [|exact Ha].
      destruct data; [discriminate Hh|inversion Hh; set_solver]. }
    rewrite (buildSeries_unfold _ _ c); [|now destruct data|exact Hc].
    cbv zeta. rewrite Hk. generalize (length data). intros n.
    subst data. rewrite collect_app. cbn [collect].
    rewrite (pointOf_explicit "t" c n _ dl vl b Hvl Hb).
    destruct l' as [|d' l'].
    - cbn in Hh. inversion Hh; subst dl. rewrite Hb in Ha.
      inversion Ha; subst. reflexivity.
    - cbn in Hh. inversion Hh; subst d'. cbn [collect].
      rewrite (pointOf_explicit "t" c n _ d0 v0 a Hv0 Ha).
      cbn [app dur]. rewrite app_comm_cons, List.last_last. reflexivity. }
  split; [exact Hd|]. intros Hab. rewrite Hd. minmax; lra.
Qed.

End WithCoercion.

(** The scenario of the specification: rows [{t:0,v:1}], [{t:0.5,v:2}],
    [{t:1,v:3}] and channel [v] give the series [(0,1)], [(0.5,2)],
    [(1,3)] with duration 1. *)
Example buildSeries_scenario :
  buildSeries noStrings
    [row_tv (Fin 0) 1; row_tv (Fin (1 # 2)) 2; row_tv (Fin 1) 3] (Some "v")
  = mkResult [mkPoint 0 1; mkPoint (1 # 2) 2; mkPoint 1 3] 1.
Proof. vm_compute. reflexivity. Qed.

Lemma buildSeries_time_key_witness :
  buildSeries noStrings
    [RObject {["v" := VNumber (Fin 1)]}; RNullish;
     RObject {["v" := VNumber (Fin 3)]}] (Some "v")
  = mkResult [mkPoint (0 / 2 - 0 / 2) 1; mkPoint (2 / 2 - 0 / 2) 3]
             (JS.max 0 (2 / 2 - 0 / 2)).
Proof.
  destruct (buildSeries_time_key noStrings
              [RObject {["v" := VNumber (Fin 1)]}; RNullish;
               RObject {["v" := VNumber (Fin 3)]}] (Some "v") "v")
    as (_ & _ & Hindexed).
  - discriminate.
  - reflexivity.
  - rewrite Hindexed.
    + reflexivity.
    + intros (d & x & Hin & Hget).
      repeat (apply elem_of_cons in Hin as [-> | Hin]);
        [discriminate Hget ..|now apply elem_of_nil in Hin].
    + intros (d & x & Hin & Hget).
      repeat (apply elem_of_cons in Hin as [-> | Hin]);
        [discriminate Hget ..|now apply elem_of_nil in Hin].
Defined.

(** C9, as the specification words it: in the rows
    [{t: Infinity, time: 0, v: 1}], [{t: Infinity, time: 1, v: 2}] no row
    has a finite value under [t] and every row has one under [time], so
    that [time] would be the key; the code takes [t], and [buildSeries]
    skips every row. *)
Lemma timeKey_not_finite_rule :
  (forall d q, d ∈ [row_ttv (Inf false) (Fin 0) 1; row_ttv (Inf false) (Fin 1) 2] ->
               get d "t" <> VNumber (Fin q)) /\
  (exists d q, d ∈ [row_ttv (Inf false) (Fin 0) 1; row_ttv (Inf false) (Fin 1) 2] /\
               get d "time" = VNumber (Fin q)) /\
  timeKey [row_ttv (Inf false) (Fin 0) 1; row_ttv (Inf false) (Fin 1) 2]
    <> timeKey_finite [row_ttv (Inf false) (Fin 0) 1; row_ttv (Inf false) (Fin 1) 2] /\
  buildSeries noStrings
    [row_ttv (Inf false) (Fin 0) 1; row_ttv (Inf false) (Fin 1) 2] (Some "v")
  = mkResult [] 0.
Proof.
  split; [|split; [|split]].
  - intros d q Hin.
    repeat (apply elem_of_cons in Hin as [-> | Hin]);
      [discriminate ..|now apply elem_of_nil in Hin].
  - exists (row_ttv (Inf false) (Fin 0) 1), 0. split; [|reflexivity].
    apply elem_of_cons. now left.
  - vm_compute. discriminate.
  - vm_compute. reflexivity.
Qed.

Lemma buildSeries_first_and_duration_witness :
  t (mkPoint 0 1) == 0 /\
  dur (buildSeries noStrings
         [row_tv (Fin 0) 1; row_tv (Fin (1 # 2)) 2; row_tv (Fin 1) 3] (Some "v"))
    = JS.max 0 (t (List.last [mkPoint 0 1; mkPoint (1 # 2) 2; mkPoint 1 3]
                             (mkPoint 0 1))).
Proof.
  destruct (buildSeries_first_and_duration noStrings
              [row_tv (Fin 0) 1; row_tv (Fin (1 # 2)) 2; row_tv (Fin 1) 3]
              (Some "v") (mkPoint 0 1) [mkPoint (1 # 2) 2; mkPoint 1 3])
    as (H0 & Hd & _).
  - vm_compute. reflexivity.
  - split; [exact H0|exact Hd].
Defined.

(** C10, as the specification words it: for rows [{t:1,v:1}], [{t:0,v:2}]
    the result is not empty, its last relative time is -1 and its
    duration is 0. *)
Lemma buildSeries_duration_not_last_time :
  pts (buildSeries noStrings [row_tv (Fin 1) 1; row_tv (Fin 0) 2] (Some "v"))
    = [mkPoint 0 1; mkPoint (-1) 2] /\
  ~ dur (buildSeries noStrings [row_tv (Fin 1) 1; row_tv (Fin 0) 2] (Some "v"))
    == t (mkPoint (-1) 2).
Proof. vm_compute. split; [reflexivity|discriminate]. Qed.

Lemma buildSeries_duration_explicit_t_witness :
  dur (buildSeries noStrings
         [row_tv (Fin 0) 1; row_tv (Fin (1 # 2)) 2; row_tv (Fin 1) 3] (Some "v"))
    == 1 - 0.
Proof.
  apply (buildSeries_duration_explicit_t noStrings
           [row_tv (Fin 0) 1; row_tv (Fin (1 # 2)) 2; row_tv (Fin 1) 3]
           (Some "v") "v" (row_tv (Fin 0) 1) (row_tv (Fin 1) 3) 0 1);
    try reflexivity.
  - intros d Hd. repeat (apply elem_of_cons in Hd as [-> | Hd]);
      [eexists; reflexivity ..|now apply elem_of_nil in Hd].
  - discriminate.
Defined.

(** C3, as the specification words it: for rows [{t:1,v:1}], [{t:0,v:2}]
    the duration is 0, not [rows.last.t - rows.first.t = -1]. *)
Lemma buildSeries_duration_not_difference :
  ~ dur (buildSeries noStrings [row_tv (Fin 1) 1; row_tv (Fin 0) 2] (Some "v"))
    == 0 - 1.
Proof. vm_compute. discriminate. Qed.

End BuildSeriesTheory.

(* ===================================================================== *)
(** ** Failed and overlapping loads *)
(* ===================================================================== *)

Module LoaderTheory.
Import Series Loader Scenarios.

#[local] Open Scope string_scope.
#[local] Open Scope list_scope.

Section WithCoercion.

Variable StringToNumber : string -> jsnum.

#[local] Abbreviation step := (step StringToNumber).
#[local] Abbreviation settle := (settle StringToNumber).

(** Without a dataset the effects clear the two series and the series
    duration and touch nothing else. *)
Lemma settle_excelCatch (a : AppState) :
  settle (excelCatch a) =
  Some (with_seriesB None (with_series None 0 (excelCatch a))).
Proof. reflexivity. Qed.

Lemma excelLoaded_failure (response : option RowsBySheet) (a : AppState) :
  response = None \/ response = Some [] ->
  excelLoaded response a = excelCatch a.
Proof. intros [-> | ->]; reflexivity. Qed.

(** The session effect leaves the dataset cells and the manifest cells
    alone. *)
Lemma sessionEffect_manifest (w : World) :
  manifest (app (sessionEffect w)) = manifest (app w) /\
  sessions (app (sessionEffect w)) = sessions (app w) /\
  session (app (sessionEffect w)) = session (app w).
Proof.
  unfold sessionEffect.
  destruct (manifest (app w)) eqn:Hm, (truthy (session (app w))) eqn:Hs;
    cbn; rewrite ?Hm; auto.
Qed.

(** The reset of a failed table load stops at the channels: the channels
    list and the two channel selections are what they were. *)
Lemma failed_table_load_keeps_channels (w : World) (id : nat) (l : ExcelLoad)
    (response : option RowsBySheet) :
  excelLoads w !! id = Some (Some l) ->
  response = None \/ response = Some [] ->
  exists w' : World,
    step w (ExcelResponse id response) = Some w' /\
    channels (app w') = channels (app w) /\
    selectedChannel (app w') = selectedChannel (app w) /\
    selectedChannelB (app w') = selectedChannelB (app w).
Proof.
  intros Hl Hr. unfold Loader.step. rewrite Hl.
  rewrite (excelLoaded_failure _ _ Hr), settle_excelCatch.
  eexists. split; [reflexivity|]. repeat split.
Qed.

(** C4 (as the code has it).  When the table load of a session fails (the
    fetch or the parse throws, or no sheet is found), the dataset
    collection, the sheet names, the active sheet and the rows are reset to
    null / empty and both derived series become null with a series
    duration of 0.  When a manifest load fails, the manifest, the session
    list and the session are reset to null / empty. *)
Theorem failed_load_resets (w : World) :
  (forall (id : nat) (l : ExcelLoad) (response : option RowsBySheet),
     excelLoads w !! id = Some (Some l) ->
     response = None \/ response = Some [] ->
     exists w' : World,
       step w (ExcelResponse id response) = Some w' /\
       rowsBySheet (app w') = None /\ sheetNames (app w') = [] /\
       sheet (app w') = None /\ rows (app w') = None /\
       series (app w') = None /\ seriesB (app w') = None /\
       jsonDuration (app w') = 0) /\
  (forall (id : nat) (l : ManifestLoad),
     manifestLoads w !! id = Some (Some l) ->
     exists w' : World,
       step w (ManifestResponse id None) = Some w' /\
       manifest (app w') = None /\ sessions (app w') = [] /\
       session (app w') = None).
Proof.
  split.
  - intros id l response Hl Hr. unfold Loader.step. rewrite Hl.
    rewrite (excelLoaded_failure _ _ Hr), settle_excelCatch.
    eexists. split; [reflexivity|]. repeat split.
  - intros id l Hl. unfold Loader.step. rewrite Hl.
    eexists. split; [reflexivity|].
    match goal with |- context [sessionEffect ?x] =>
      destruct (sessionEffect_manifest x) as (-> & -> & ->) end.
    repeat split.
Qed.

(** A manifest that arrives for a cancelled load is dropped: nothing of
    the component state changes. *)
Lemma cancelled_manifest_discarded (w : World) (id : nat) (l : ManifestLoad)
    (m : PlayerManifest) :
  manifestLoads w !! id = Some (Some l) -> cancelled l = true ->
  exists w' : World,
    step w (ManifestResponse id (Some m)) = Some w' /\ app w' = app w.
Proof.
  intros Hl Hc. unfold Loader.step. rewrite Hl, Hc. eexists. split; reflexivity.
Qed.

(** Picking another player cancels every manifest load in flight. *)
Lemma manifestEffect_cancels (w : World) (id : nat) (l : ManifestLoad) :
  manifestLoads w !! id = Some (Some l) ->
  exists l', manifestLoads (manifestEffect w) !! id = Some (Some l')
             /\ cancelled l' = true.
Proof.
  intros Hl. unfold manifestEffect. cbn [manifestLoads].
  exists (mkManifestLoad (ml_player l) true). split; [|reflexivity].
  rewrite lookup_app_l by (rewrite length_fmap; now apply lookup_lt_Some in Hl).
  rewrite list_lookup_fmap, Hl. reflexivity.
Qed.

(** A sheet that [preferredSheet] picks is a sheet of the dataset. *)
Lemma preferredSheet_elem (names : list string) (n : string) :
  preferredSheet names = Some n -> n ∈ names.
Proof.
  unfold preferredSheet. intros H. apply list_elem_of_In.
  destruct (List.find _ names) eqn:E1.
  { inversion H; subst. now apply List.find_some in E1. }
  destruct (List.find (Regex.test_seq "baseball" "data") names) eqn:E2.
  { inversion H; subst. now apply List.find_some in E2. }
  destruct names; inversion H. now left.
Qed.

Lemma sheetRows_elem (sets : RowsBySheet) (n : string) :
  n ∈ sets.*1 -> is_Some (sheetRows sets n).
Proof.
  induction sets as [|[k rs] sets IH]; cbn; intros H.
  - now apply elem_of_nil in H.
  - destruct (String.eqb_spec k n); [eauto|].
    apply elem_of_cons in H as [H|H]; [congruence|auto].
Qed.

Lemma recompute_dataset (a a' : AppState) :
  recompute a = Some a' ->
  rowsBySheet a' = rowsBySheet a /\ sheetNames a' = sheetNames a.
Proof.
  unfold recompute. intros H.
  destruct (rowsBySheet a) as [sets|] eqn:E, (truthy (sheet a)) as [sh|];
    try (inversion H; subst; now rewrite ?E).
  destruct (sheetRows sets sh); inversion H; subst. cbn. now rewrite E.
Qed.

Lemma seriesEffects_dataset (a : AppState) :
  rowsBySheet (seriesEffectB StringToNumber (seriesEffect StringToNumber a))
    = rowsBySheet a /\
  sheetNames (seriesEffectB StringToNumber (seriesEffect StringToNumber a))
    = sheetNames a.
Proof.
  destruct a as [? ? ? ? ? ? ? ? ? ? rs ? selA ? selB ? ?].
  unfold seriesEffectB, seriesEffect. cbn.
  destruct rs, (truthy selA); cbn; destruct (truthy selB); cbn; auto.
Qed.

(** Every table that arrives is applied, whatever has been selected since
    its load began: there is no flag to look at. *)
Lemma table_response_applied (w : World) (id : nat) (l : ExcelLoad)
    (sets : RowsBySheet) :
  excelLoads w !! id = Some (Some l) -> sets <> [] ->
  exists w' : World,
    step w (ExcelResponse id (Some sets)) = Some w' /\
    rowsBySheet (app w') = Some sets /\ sheetNames (app w') = sets.*1.
Proof.
  intros Hl Hne. unfold Loader.step. rewrite Hl. cbn [excelLoaded].
  destruct (preferredSheet sets.*1) as [n|] eqn:Hn.
  - pose proof (sheetRows_elem sets n (preferredSheet_elem _ _ Hn)) as [rs Hrs].
    rewrite Hrs. unfold Loader.settle.
    destruct (recompute (with_dataset _ _ _ _ _)) as [a'|] eqn:Hrec.
    + apply recompute_dataset in Hrec as [Hk Hs]. cbn in Hk, Hs.
      eexists. split; [reflexivity|]. cbn [app with_app].
      destruct (seriesEffects_dataset a') as [-> ->]. now split.
    + exfalso. unfold recompute in Hrec. cbn [rowsBySheet sheet with_dataset] in Hrec.
      destruct n as [|c n']; [discriminate Hrec|]. cbn [truthy] in Hrec.
      rewrite Hrs in Hrec. discriminate Hrec.
  - exfalso. unfold preferredSheet in Hn.
    destruct (List.find _ sets.*1); [discriminate|].
    destruct (List.find _ sets.*1); [discriminate|].
    destruct sets; [contradiction|discriminate].
Qed.

End WithCoercion.

(** *** Two players *)

Example loadA_ready :
  (fun w => (rowsBySheet (app w), channels (app w), selectedChannel (app w),
             series (app w), jsonDuration (app w)))
    <$> run noStrings (mount false "A" None ["A"]) loadA
  = Some (Some setsA, ["v"], Some "v", Some [mkPoint 0 1; mkPoint 1 2], 1).
Proof. vm_compute. reflexivity. Qed.

(** C4, as the specification words it.  After player A is loaded, the
    table load of another session fails: the channels list and both
    channel selections of the previous load are still there.  And when,
    instead, the manifest of another player is not found, the whole
    dataset of player A is still there. *)
Lemma failed_load_leaves_stale_state :
  (exists w : World,
     run noStrings (mount false "A" None ["A"])
         (loadA ++ [SelectSession "s2"; ExcelResponse 1 None]) = Some w /\
     channels (app w) = ["v"] /\ selectedChannel (app w) = Some "v" /\
     selectedChannelB (app w) = Some "v" /\ ~ fully_reset (app w)) /\
  (exists w : World,
     run noStrings (mount false "A" None ["A"])
         (loadA ++ [SelectPlayer "B"; ManifestResponse 1 None]) = Some w /\
     rowsBySheet (app w) = Some setsA /\ channels (app w) = ["v"] /\
     ~ fully_reset (app w)).
Proof.
  split; eexists; (split; [vm_compute; reflexivity|]).
  - repeat (split; [reflexivity|]).
    intros (_ & _ & _ & _ & H & _). discriminate H.
  - repeat (split; [reflexivity|]).
    intros (H & _). discriminate H.
Qed.

Lemma failed_load_resets_witness :
  exists w' : World,
    step noStrings secondSession (ExcelResponse 1 None) = Some w' /\
    rowsBySheet (app w') = None /\ rows (app w') = None /\
    series (app w') = None /\ jsonDuration (app w') = 0.
Proof.
  destruct (failed_load_resets noStrings secondSession) as [H _].
  destruct (H 1%nat (mkExcelLoad (mkPath "A" "s2" "Kinematic_Data (1).xlsx")) None)
    as (w' & Hs & Hr & _ & _ & Hrows & Hse & _ & Hd).
  - vm_compute. reflexivity.
  - left. reflexivity.
  - exists w'. repeat split; assumption.
Defined.

(** *** Overlapping loads *)

(** C5.  The table load of the session effect has no cancellation flag.
    When the table of A arrives after the table of B, it replaces it: the
    player is B and the dataset collection is the one of A.  The [catch]
    of the manifest load does not read the flag either: the late failure
    of a cancelled manifest load clears the manifest and the session of
    the player chosen since. *)
Theorem stale_table_load_overwrites :
  (fun w => (playerName (app w), rowsBySheet (app w)))
    <$> run noStrings (mount false "A" None ["A"; "B"]) (take 4 overlapping)
  = Some ("B", Some setsB) /\
  (fun w => (playerName (app w), rowsBySheet (app w), channels (app w)))
    <$> run noStrings (mount false "A" None ["A"; "B"]) overlapping
  = Some ("B", Some setsA, ["v"]) /\
  (fun w => (playerName (app w), manifest (app w), session (app w)))
    <$> run noStrings (mount false "A" None ["A"; "B"])
          [SelectPlayer "B"; ManifestResponse 1 (Some manifestB);
           ManifestResponse 0 None]
  = Some ("B", None, None).
Proof. vm_compute. repeat split. Qed.

End LoaderTheory.

(* ===================================================================== *)
(** ** More on the clock: restarts, the frame accumulator, seeks *)
(* ===================================================================== *)

Module ClockExtra.
Import Clock.

(** The clamped speed of a tick. *)
Lemma speed_clamped (v : Q) : 1 # 10 <= JS.min 2 (JS.max (1 # 10) v) <= 2.
Proof. minmax; lra. Qed.

(** The clamped elapsed time of a tick. *)
Lemma elapsed_clamped (x : Q) : 0 <= JS.min (JS.max x 0) (5 # 100) <= 5 # 100.
Proof. minmax; lra. Qed.

Lemma wrap_id_eq (x y d : Q) : x == y -> 0 <= y < d -> wrap x d == y.
Proof. intros E H. rewrite <- E. apply ClockTheory.wrap_id. lra. Qed.

(** A tick of a clock that is paused, or that has no animation, changes
    neither the time nor the accumulator, and still records the
    timestamp. *)
Lemma loop_idle (ts : Q) (st : state) :
  playing st = false \/ duration st <= 0 ->
  loop ts st = mkState (time st) (duration st) (playing st) (speed st)
                       (snapFrames st) (Some ts) (subFrameAccRef st).
Proof.
  intros H. unfold loop, advance.
  assert (E : negb (playing st) || JS.le (duration st) 0 = true).
  { destruct H as [-> | H]; [reflexivity|].
    unfold JS.le. apply JSFacts.gt_false in H. rewrite H. apply orb_true_r. }
  now rewrite E.
Qed.

Lemma loop_first_tick (ts : Q) (st : state) :
  lastTsRef st = None -> subFrameAccRef st == 0 ->
  (0 < duration st -> 0 <= time st < duration st) ->
  time (loop ts st) == time st /\ lastTsRef (loop ts st) = Some ts.
Proof.
  intros Hl Ha Hr. split; [|unfold loop; now destruct (advance _ _ _)].
  rewrite ClockTheory.loop_time, Hl. cbn [default].
  set (dt := JS.min (JS.max ((ts - ts) / 1000) 0) (5 # 100)).
  assert (Hdt : dt == 0).
  { unfold dt. assert (E : (ts - ts) / 1000 == 0) by (field).
    minmax; lra. }
  unfold advance.
  destruct (negb (playing st) || JS.le (duration st) 0) eqn:Hidle; [reflexivity|].
  apply orb_false_elim in Hidle as [_ Hd]. unfold JS.le in Hd.
  apply negb_false_iff in Hd. rewrite Hd. apply JSFacts.gt_true in Hd.
  specialize (Hr Hd).
  destruct (snapFrames st); cbn [negb fst].
  - set (acc := subFrameAccRef st + dt * JS.min 2 (JS.max (1 # 10) (speed st))).
    assert (Hacc : acc / (1 / FPS) == 0).
    { unfold acc. rewrite Ha, Hdt. reflexivity. }
    unfold JS.floor. rewrite (Qfloor_comp _ _ Hacc). reflexivity.
  - apply wrap_id_eq; [|exact Hr]. rewrite Hdt. ring.
Qed.

(** The first tick after the loop has been restarted sees no elapsed time
    and leaves the current time where it is. *)
Theorem first_tick_after_restart (ts : Q) (st : state) :
  lastTsRef st = None -> subFrameAccRef st == 0 ->
  (0 < duration st -> 0 <= time st < duration st) ->
  time (loop ts st) == time st /\ lastTsRef (loop ts st) = Some ts.
Proof. apply loop_first_tick. Qed.

Lemma first_tick_after_restart_witness :
  time (loop 1234 (restart (mkState (3 # 2) 2 true 1 true (Some 7) (1 # 500))))
  == 3 # 2.
Proof.
  apply (first_tick_after_restart 1234
           (restart (mkState (3 # 2) 2 true 1 true (Some 7) (1 # 500)))).
  - reflexivity.
  - reflexivity.
  - intros _. split; [discriminate|reflexivity].
Defined.

Lemma run_app (st : state) (es1 es2 : list event) :
  run st (es1 ++ es2) = run (run st es1) es2.
Proof. unfold run. apply foldl_app. Qed.

Lemma run_idle_ticks (st : state) (tss : list Q) :
  playing st = false ->
  time (run st (Tick <$> tss)) = time st /\
  duration (run st (Tick <$> tss)) = duration st /\
  playing (run st (Tick <$> tss)) = false /\
  snapFrames (run st (Tick <$> tss)) = snapFrames st /\
  speed (run st (Tick <$> tss)) = speed st.
Proof.
  revert st. induction tss as [|ts tss IH]; intros st Hp;
    [repeat split; exact Hp|].
  cbn [fmap list_fmap]. change (run st (Tick ts :: (Tick <$> tss)))
    with (run (loop ts st) (Tick <$> tss)).
  rewrite (loop_idle ts st) by now left.
  destruct (IH (mkState (time st) (duration st) (playing st) (speed st)
                        (snapFrames st) (Some ts) (subFrameAccRef st)) Hp)
    as (H1 & H2 & H3 & H4 & H5).
  now rewrite H1, H2, H3, H4, H5.
Qed.

(** For a clock that is playing an animation of positive duration and
    whose time is at least 0 and less than the duration: pausing, letting any number of
    frames go by and resuming does not move it.  The time spent paused is
    never consumed, and the first tick after the resume sees no elapsed
    time.  (At [time = duration], where a seek to the end leaves the
    clock, that tick wraps the time to 0: [resume_at_the_end_wraps].) *)
Theorem pause_resume_no_jump (st : state) (tss : list Q) (ts : Q) :
  playing st = true -> 0 < duration st -> 0 <= time st < duration st ->
  time (run st ([SetPlaying false] ++ (Tick <$> tss) ++ [SetPlaying true; Tick ts]))
  == time st.
Proof.
  intros Hp Hd Ht. rewrite !run_app.
  set (st1 := run st [SetPlaying false]).
  assert (H1 : playing st1 = false /\ time st1 = time st /\
               duration st1 = duration st).
  { unfold st1, run. cbn [foldl step]. unfold setPlaying, commit.
    destruct (same_deps _ _); repeat split. }
  destruct H1 as (Hp1 & Ht1 & Hd1).
  destruct (run_idle_ticks st1 tss Hp1) as (Ht2 & Hd2 & Hp2 & _ & _).
  set (st2 := run st1 (Tick <$> tss)) in *.
  change (run st2 [SetPlaying true; Tick ts])
    with (loop ts (setPlaying true st2)).
  assert (Hc : setPlaying true st2 =
               mkState (time st2) (duration st2) true (speed st2)
                       (snapFrames st2) None 0).
  { unfold setPlaying, commit, same_deps. cbn [playing]. rewrite Hp2.
    cbn [Bool.eqb]. rewrite andb_false_r. cbn. reflexivity. }
  rewrite Hc.
  destruct (loop_first_tick ts
              (mkState (time st2) (duration st2) true (speed st2)
                       (snapFrames st2) None 0)) as [E _];
    try reflexivity.
  - cbn. intros _. rewrite Ht2, Ht1, Hd2, Hd1. exact Ht.
  - rewrite E. cbn. now rewrite Ht2, Ht1.
Qed.

(** At the very end of the animation the resume tick does move the clock:
    without snapping it wraps the time 2 of a clip of 2 seconds to 0. *)
Example resume_at_the_end_wraps :
  time (run (mkState 2 2 true 1 false (Some 100) 0)
            [SetPlaying false; Tick 116; SetPlaying true; Tick 133]) == 0.
Proof. vm_compute. reflexivity. Qed.

Lemma pause_resume_no_jump_witness :
  time (run (mkState (1 # 3) 2 true (3 # 2) false (Some 100) 0)
            ([SetPlaying false] ++ (Tick <$> [116; 133; 90000])
               ++ [SetPlaying true; Tick 90016]))
  == 1 # 3.
Proof.
  apply (pause_resume_no_jump (mkState (1 # 3) 2 true (3 # 2) false (Some 100) 0)
           [116; 133; 90000] 90016).
  - reflexivity.
  - reflexivity.
  - split; [discriminate|reflexivity].
Defined.

(** With snapping on, what a tick leaves in the accumulator is always less
    than one frame, whatever was in it before. *)
Theorem accumulator_below_one_frame (st : state) (dt prev : Q) :
  playing st = true -> snapFrames st = true -> 0 < duration st ->
  0 <= snd (advance st dt prev) < 1 / FPS.
Proof.
  intros Hp Hs Hd. unfold advance. rewrite Hp, Hs. unfold JS.le.
  assert (G : JS.gt (duration st) 0 = true) by now apply JSFacts.gt_true.
  rewrite G. cbn [negb orb].
  set (acc := subFrameAccRef st + dt * JS.min 2 (JS.max (1 # 10) (speed st))).
  assert (H : 0 <= acc - inject_Z (JS.floor (acc / (1 / FPS))) * (1 / FPS) < 1 / FPS).
  { pose proof (JSFacts.mod_range acc (1 / FPS) eq_refl) as H.
    unfold JS.floor. lra. }
  now destruct (JS.floor _ <=? 0)%Z.
Qed.

Lemma accumulator_below_one_frame_witness :
  0 <= snd (advance (mkState 0 2 true 2 true None (7 # 3)) (5 # 100) 0) < 1 / FPS.
Proof.
  apply (accumulator_below_one_frame (mkState 0 2 true 2 true None (7 # 3)));
    reflexivity.
Defined.

(** With snapping on, no time is lost to the quantisation: away from the
    loop boundary, the time a tick adds to the clock and what it leaves in
    the accumulator make up the accumulator before plus the scaled elapsed
    time. *)
Theorem snapped_tick_conserves_time (st : state) (dt prev : Q) :
  playing st = true -> snapFrames st = true ->
  0 <= subFrameAccRef st -> 0 <= dt -> 0 <= prev ->
  prev + subFrameAccRef st + dt * JS.min 2 (JS.max (1 # 10) (speed st))
    < duration st - 1 / FPS / 2 ->
  fst (advance st dt prev) + snd (advance st dt prev)
  == prev + subFrameAccRef st + dt * JS.min 2 (JS.max (1 # 10) (speed st)).
Proof.
  intros Hp Hs Ha Hdt Hprev Hroom.
  pose proof (speed_clamped (speed st)) as Hsp.
  set (s := JS.min 2 (JS.max (1 # 10) (speed st))) in *.
  assert (Hdelta : 0 <= dt * s) by (apply Qmult_le_0_compat; lra).
  assert (Hd : 0 < duration st) by (assert (0 < 1 / FPS / 2) by reflexivity; lra).
  unfold advance. rewrite Hp, Hs. unfold JS.le.
  assert (G : JS.gt (duration st) 0 = true) by now apply JSFacts.gt_true.
  rewrite G. cbn [negb orb]. fold s.
  set (acc := subFrameAccRef st + dt * s).
  pose proof (JSFacts.mod_range acc (1 / FPS) eq_refl) as Hm.
  unfold JS.floor. set (f := Qfloor (acc / (1 / FPS))) in *.
  assert (Hf : (0 <= f)%Z).
  { unfold f. change 0%Z with (Qfloor 0). apply Qfloor_resp_le.
    apply Qle_shift_div_l; [reflexivity|]. unfold acc. lra. }
  destruct (Z.leb_spec f 0) as [Hle|Hgt]; cbn [fst snd].
  - assert (f = 0%Z) by lia. subst f. rewrite H. change (inject_Z 0) with 0.
    unfold acc. ring.
  - assert (Hn : 0 <= prev + inject_Z f * (1 / FPS) < duration st).
    { assert (0 <= inject_Z f) by (change 0 with (inject_Z 0); now rewrite <- Zle_Qle).
      assert (Hstep : 0 < 1 / FPS) by reflexivity.
      assert (0 <= inject_Z f * (1 / FPS)) by (apply Qmult_le_0_compat; lra).
      split; [lra|].
      assert (0 < 1 / FPS / 2) by reflexivity. unfold acc in Hm. lra. }
    pose proof (ClockTheory.wrap_id _ _ Hn) as Hw.
    generalize dependent (wrap (prev + inject_Z f * (1 / FPS)) (duration st)).
    intros w Hw.
    assert (Hh : 0 < 1 / FPS / 2) by reflexivity.
    unfold acc in *. minmax; lra.
Qed.

Lemma snapped_tick_conserves_time_witness :
  fst (advance (mkState 0 2 true 1 true None (1 # 500)) (16 # 1000) (1 # 4))
  + snd (advance (mkState 0 2 true 1 true None (1 # 500)) (16 # 1000) (1 # 4))
  == (1 # 4) + (1 # 500) + (16 # 1000) * JS.min 2 (JS.max (1 # 10) 1).
Proof.
  apply (snapped_tick_conserves_time (mkState 0 2 true 1 true None (1 # 500)));
    try reflexivity; discriminate.
Defined.

(** Without snapping and away from the loop boundary, a tick moves the
    clock forward, and by no more than a tenth of a second, however long
    the frame took. *)
Theorem continuous_tick_bounded (ts : Q) (st : state) :
  playing st = true -> snapFrames st = false ->
  0 <= time st -> time st + (1 # 10) < duration st ->
  time st <= time (loop ts st) <= time st + (1 # 10).
Proof.
  intros Hp Hs H0 H1. rewrite ClockTheory.loop_time.
  set (dt := JS.min (JS.max _ 0) (5 # 100)).
  pose proof (elapsed_clamped ((ts - default ts (lastTsRef st)) / 1000)) as Hdt.
  fold dt in Hdt.
  pose proof (speed_clamped (speed st)) as Hsp.
  unfold advance. rewrite Hp, Hs. unfold JS.le.
  assert (G : JS.gt (duration st) 0 = true) by (apply JSFacts.gt_true; lra).
  rewrite G. cbn [negb orb fst].
  set (s := JS.min 2 (JS.max (1 # 10) (speed st))) in *.
  assert (Hlo : 0 <= dt * s) by (apply Qmult_le_0_compat; lra).
  assert (Hhi : dt * s <= (5 # 100) * 2).
  { apply Qmult_le_compat_nonneg; split; lra. }
  rewrite ClockTheory.wrap_id; lra.
Qed.

Lemma continuous_tick_bounded_witness :
  1 # 2 <= time (loop 99999 (mkState (1 # 2) 2 true 2 false (Some 0) 0))
        <= (1 # 2) + (1 # 10).
Proof.
  apply (continuous_tick_bounded 99999 (mkState (1 # 2) 2 true 2 false (Some 0) 0));
    try reflexivity. discriminate.
Defined.

(** A seek from a plot never leaves the animation: with both durations
    positive, or with snapping off, the new time is inside
    [[0, duration]]. *)
Theorem handleGraphSeek_in_range (jd tJson : Q) (st : state) :
  0 < duration st -> 0 < jd \/ snapFrames st = false ->
  0 <= time (handleGraphSeek jd tJson st) <= duration st.
Proof.
  intros Hd H. unfold handleGraphSeek.
  assert (G : JS.gt (duration st) 0 = true) by now apply JSFacts.gt_true.
  rewrite G. cbn [andb].
  destruct (JS.gt jd 0) eqn:Gj; cbn [time set_time].
  - match goal with |- context [JS.min ?a ?b] =>
      destruct (JSFacts.min_spec a b) as [[? ?]|[? ?]];
      generalize dependent (JS.min a b); intros end; minmax; lra.
  - destruct H as [H|H]; [apply JSFacts.gt_true in H; congruence|].
    rewrite H.
    match goal with |- context [JS.min ?a ?b] =>
      destruct (JSFacts.min_spec a b) as [[? ?]|[? ?]];
      generalize dependent (JS.min a b); intros end; minmax; lra.
Qed.

Lemma handleGraphSeek_in_range_witness :
  0 <= time (handleGraphSeek 3 7 (mkState 0 (503 # 500) true 1 true None 0))
    <= 503 # 500.
Proof.
  apply (handleGraphSeek_in_range 3 7 (mkState 0 (503 # 500) true 1 true None 0)).
  - reflexivity.
  - left. reflexivity.
Defined.

(** Without snapping, a seek inside the series maps the data time to the
    animation time in proportion: [time / duration = tJson / jsonDuration],
    so that the two ends of the series are the two ends of the animation. *)
Theorem handleGraphSeek_proportional (jd tJson : Q) (st : state) :
  snapFrames st = false -> 0 < duration st -> 0 < jd -> 0 <= tJson <= jd ->
  time (handleGraphSeek jd tJson st) * jd == tJson * duration st.
Proof.
  intros Hs Hd Hj Ht. unfold handleGraphSeek.
  assert (G : JS.gt (duration st) 0 = true) by now apply JSFacts.gt_true.
  assert (Gj : JS.gt jd 0 = true) by now apply JSFacts.gt_true.
  rewrite G, Gj, Hs. cbn [andb time set_time].
  set (x := tJson / jd * duration st).
  assert (Hq : 0 <= tJson / jd <= 1).
  { split; [apply Qle_shift_div_l; lra|apply Qle_shift_div_r; lra]. }
  assert (Hx : 0 <= x <= duration st).
  { unfold x. split; [apply Qmult_le_0_compat; lra|].
    rewrite <- (Qmult_1_l (duration st)) at 2.
    apply Qmult_le_compat_r; lra. }
  assert (E : JS.max 0 (JS.min (duration st) x) == x).
  { destruct (JSFacts.min_spec (duration st) x) as [[? ?]|[? ?]];
      generalize dependent (JS.min (duration st) x); intros; minmax; lra. }
  rewrite E. unfold x. field. lra.
Qed.

Lemma handleGraphSeek_proportional_witness :
  time (handleGraphSeek 4 1 (mkState 0 2 true 1 false None 0)) * 4 == 1 * 2.
Proof.
  apply (handleGraphSeek_proportional 4 1 (mkState 0 2 true 1 false None 0));
    try reflexivity. split; discriminate.
Defined.

(** With snapping on and no series duration, a seek lands on a frame, the
    one nearest to the clamped target: it is within half a frame of it (and
    so may pass the end of the animation by up to half a frame). *)
Theorem handleGraphSeek_snaps_to_frame (jd tJson : Q) (st : state) :
  snapFrames st = true -> 0 < duration st -> jd <= 0 ->
  exists n : Z,
    time (handleGraphSeek jd tJson st) == inject_Z n / FPS /\
    JS.max 0 (JS.min (duration st) tJson) - (1 # 240)
      < time (handleGraphSeek jd tJson st)
      <= JS.max 0 (JS.min (duration st) tJson) + (1 # 240).
Proof.
  intros Hs Hd Hj. unfold handleGraphSeek.
  assert (G : JS.gt (duration st) 0 = true) by now apply JSFacts.gt_true.
  apply JSFacts.gt_false in Hj. rewrite G, Hj, Hs. cbn [andb time set_time].
  set (c := JS.max 0 (JS.min (duration st) tJson)).
  exists (JS.round (c * FPS)). split; [reflexivity|].
  unfold JS.round.
  pose proof (Qfloor_le (c * FPS + (1 # 2))) as Hlo.
  pose proof (JSFacts.floor_upper (c * FPS + (1 # 2))) as Hhi.
  set (r := inject_Z (Qfloor (c * FPS + (1 # 2)))) in *.
  assert (E : r / FPS == r * (1 # 120)) by (unfold FPS; field).
  rewrite E. unfold FPS in *. lra.
Qed.

Lemma handleGraphSeek_snaps_to_frame_witness :
  exists n : Z,
    time (handleGraphSeek 0 (1 # 7) (mkState 0 2 true 1 true None 0))
      == inject_Z n / FPS /\
    JS.max 0 (JS.min 2 (1 # 7)) - (1 # 240)
      < time (handleGraphSeek 0 (1 # 7) (mkState 0 2 true 1 true None 0))
      <= JS.max 0 (JS.min 2 (1 # 7)) + (1 # 240).
Proof.
  apply (handleGraphSeek_snaps_to_frame 0 (1 # 7) (mkState 0 2 true 1 true None 0));
    try reflexivity. discriminate.
Defined.

End ClockExtra.

(* ===================================================================== *)
(** ** The keyboard controls *)
(* ===================================================================== *)

Module ControlsTheory.
Import Clock Controls.

Lemma stepTime_pos (st : state) : 0 < stepTime st.
Proof.
  unfold stepTime. destruct (snapFrames st); [reflexivity|].
  minmax; lra.
Qed.

Lemma mult_pos (shiftKey : bool) : 0 < (if shiftKey then 10 else 1 : Q).
Proof. now destruct shiftKey. Qed.

(** Without snapping, stepping the time with the keyboard keeps it inside
    [[0, duration]]: the right and up arrows never move it back, the left
    and down arrows never move it forward. *)
Theorem onTimeKey_in_range (k : key) (shiftKey : bool) (st : state) :
  snapFrames st = false -> 0 <= time st <= duration st ->
  0 <= time (onTimeKey k shiftKey st) <= duration st /\
  (k = ArrowRight \/ k = ArrowUp -> time st <= time (onTimeKey k shiftKey st)) /\
  (k = ArrowLeft \/ k = ArrowDown -> time (onTimeKey k shiftKey st) <= time st).
Proof.
  intros Hs Ht. unfold onTimeKey, snapTime.
  pose proof (stepTime_pos st) as Hstep. pose proof (mult_pos shiftKey) as Hm.
  assert (Hsm : 0 < stepTime st * (if shiftKey then 10 else 1))
    by (apply Qmult_lt_0_compat; assumption).
  generalize dependent (stepTime st * (if shiftKey then 10 else 1)).
  intros sm Hsm.
  destruct (JS.le (duration st) 0).
  { repeat split; intros; lra. }
  rewrite Hs.
  destruct k; cbn [time set_time];
    (split; [|split; intros [E|E]; try discriminate E]); minmax; lra.
Qed.

Lemma onTimeKey_in_range_witness :
  0 <= time (onTimeKey ArrowUp true (mkState (19 # 10) 2 true 1 false None 0)) <= 2.
Proof.
  apply (onTimeKey_in_range ArrowUp true (mkState (19 # 10) 2 true 1 false None 0)).
  - reflexivity.
  - split; discriminate.
Defined.

(** Without snapping, a step forward followed by a step back returns to the
    same time, as long as the step forward did not hit the end. *)
Theorem onTimeKey_forward_back (shiftKey : bool) (st : state) :
  snapFrames st = false -> 0 <= time st ->
  time st + stepTime st * (if shiftKey then 10 else 1) <= duration st ->
  time (onTimeKey ArrowLeft shiftKey (onTimeKey ArrowRight shiftKey st)) == time st.
Proof.
  intros Hs H0 H1.
  pose proof (stepTime_pos st) as Hstep. pose proof (mult_pos shiftKey) as Hm.
  assert (Hsm : 0 < stepTime st * (if shiftKey then 10 else 1))
    by (apply Qmult_lt_0_compat; assumption).
  assert (Hd : JS.le (duration st) 0 = false).
  { unfold JS.le. apply negb_false_iff, JSFacts.gt_true. lra. }
  assert (E1 : onTimeKey ArrowRight shiftKey st =
               set_time (JS.min (duration st)
                           (time st + stepTime st * (if shiftKey then 10 else 1))) st).
  { unfold onTimeKey, snapTime. now rewrite Hd, Hs. }
  rewrite E1. unfold onTimeKey, snapTime. cbn [duration set_time snapFrames time].
  rewrite Hd, Hs. cbn [time].
  assert (E2 : stepTime (set_time (JS.min (duration st)
                           (time st + stepTime st * (if shiftKey then 10 else 1))) st)
               = stepTime st).
  { unfold stepTime. cbn [snapFrames set_time duration]. reflexivity. }
  rewrite E2. clear E1 E2. cbn [time set_time].
  generalize dependent (stepTime st * (if shiftKey then 10 else 1)).
  intros sm H1 Hsm.
  destruct (JSFacts.min_spec (duration st) (time st + sm)) as [[? ?]|[? ?]];
    generalize dependent (JS.min (duration st) (time st + sm)); intros;
    minmax; lra.
Qed.

Lemma onTimeKey_forward_back_witness :
  time (onTimeKey ArrowLeft false
          (onTimeKey ArrowRight false (mkState (1 # 3) 2 true 1 false None 0)))
  == 1 # 3.
Proof.
  apply (onTimeKey_forward_back false (mkState (1 # 3) 2 true 1 false None 0)).
  - reflexivity.
  - discriminate.
  - discriminate.
Defined.

Lemma round_integer (n : Z) (x : Q) : x == inject_Z n -> JS.round x = n.
Proof.
  intros E. unfold JS.round. apply JSFacts.floor_unique; lra.
Qed.

(** With snapping on, from a frame of the grid, an arrow key moves the
    clock by exactly one frame, or by ten with shift, as long as that stays
    inside the animation. *)
Theorem onTimeKey_steps_frames (shiftKey : bool) (st : state) (k : Z) :
  snapFrames st = true -> 0 < duration st -> time st == inject_Z k / FPS ->
  (inject_Z (k + (if shiftKey then 10 else 1)) / FPS <= duration st ->
   time (onTimeKey ArrowRight shiftKey st)
   == inject_Z (k + (if shiftKey then 10 else 1)) / FPS) /\
  (((if shiftKey then 10 else 1) <= k)%Z ->
   time (onTimeKey ArrowLeft shiftKey st)
   == inject_Z (k - (if shiftKey then 10 else 1)) / FPS).
Proof.
  intros Hs Hd Ht.
  set (m := if shiftKey then 10%Z else 1%Z).
  assert (Hmq : (if shiftKey then 10 else 1 : Q) == inject_Z m)
    by (unfold m; now destruct shiftKey).
  assert (Hstep : stepTime st = 1 / FPS) by (unfold stepTime; now rewrite Hs).
  assert (Hle : JS.le (duration st) 0 = false).
  { unfold JS.le. now apply negb_false_iff, JSFacts.gt_true. }
  unfold onTimeKey, snapTime. rewrite Hle, Hs, Hstep. cbn [time set_time].
  split.
  - intros Hfit.
    assert (Hx : time st + 1 / FPS * (if shiftKey then 10 else 1)
                 == inject_Z (k + m) / FPS).
    { rewrite Ht, Hmq, inject_Z_plus. unfold FPS. field. }
    set (x := time st + 1 / FPS * (if shiftKey then 10 else 1)) in *.
    assert (E : JS.min (duration st) x * FPS == inject_Z (k + m)).
    { assert (E' : JS.min (duration st) x == inject_Z (k + m) / FPS)
        by (minmax; lra).
      rewrite E'. unfold FPS. field. }
    now rewrite (round_integer _ _ E).
  - intros Hk.
    assert (Hx : time st - 1 / FPS * (if shiftKey then 10 else 1)
                 == inject_Z (k - m) / FPS).
    { rewrite Ht, Hmq. unfold Z.sub. rewrite inject_Z_plus, inject_Z_opp.
      unfold FPS. field. }
    set (x := time st - 1 / FPS * (if shiftKey then 10 else 1)) in *.
    assert (Hpos : 0 <= inject_Z (k - m)).
    { change 0 with (inject_Z 0). rewrite <- Zle_Qle. lia. }
    assert (E : JS.max 0 x * FPS == inject_Z (k - m)).
    { assert (E' : JS.max 0 x == inject_Z (k - m) / FPS).
      { assert (G : inject_Z (k - m) / FPS == inject_Z (k - m) * (1 # 120))
          by (unfold FPS; field).
        minmax; lra. }
      rewrite E'. unfold FPS. field. }
    now rewrite (round_integer _ _ E).
Qed.

Lemma onTimeKey_steps_frames_witness :
  time (onTimeKey ArrowRight true (mkState (1 # 4) 2 true 1 true None 0))
  == inject_Z (30 + 10) / FPS.
Proof.
  apply (onTimeKey_steps_frames true (mkState (1 # 4) 2 true 1 true None 0) 30);
    reflexivity || discriminate.
Defined.

Lemma toFixed2_mono_bounds (x : Q) :
  (1 # 10 <= x -> 1 # 10 <= toFixed2 x) /\ (x <= 2 -> toFixed2 x <= 2).
Proof.
  unfold toFixed2. destruct (JS.gt 0 x) eqn:G.
  - apply JSFacts.gt_true in G. split; [lra|]. intros _.
    pose proof (Qfloor_le (- x * 100 + (1 # 2))) as Hu.
    assert (H0 : (0 <= Qfloor (- x * 100 + (1 # 2)))%Z).
    { change 0%Z with (Qfloor 0). apply Qfloor_resp_le. lra. }
    rewrite Zle_Qle in H0. change (inject_Z 0) with 0 in H0.
    set (r := inject_Z (Qfloor (- x * 100 + (1 # 2)))) in *.
    assert (E : r / 100 == r * (1 # 100)) by field. rewrite E. lra.
  - apply JSFacts.gt_false in G. split; intros H.
    + assert (H10 : (10 <= Qfloor (x * 100 + (1 # 2)))%Z).
      { change 10%Z with (Qfloor 10). apply Qfloor_resp_le. lra. }
      rewrite Zle_Qle in H10. change (inject_Z 10) with 10 in H10.
      set (r := inject_Z (Qfloor (x * 100 + (1 # 2)))) in *.
      assert (E : r / 100 == r * (1 # 100)) by field. rewrite E. lra.
    + assert (H200 : (Qfloor (x * 100 + (1 # 2)) <= 200)%Z).
      { change 200%Z with (Qfloor (200 + (1 # 2))). apply Qfloor_resp_le. lra. }
      rewrite Zle_Qle in H200. change (inject_Z 200) with 200 in H200.
      set (r := inject_Z (Qfloor (x * 100 + (1 # 2)))) in *.
      assert (E : r / 100 == r * (1 # 100)) by field. rewrite E. lra.
Qed.

(** Stepping the speed with the keyboard keeps it inside [[0.1, 2]]. *)
Theorem onSpeedKey_in_range (k : key) (shiftKey : bool) (st : state) :
  1 # 10 <= speed st <= 2 ->
  1 # 10 <= speed (onSpeedKey k shiftKey st) <= 2.
Proof.
  intros Hs. unfold onSpeedKey, setSpeed.
  assert (Hd : 0 < (if shiftKey then 2 # 10 else 1 # 10 : Q)) by now destruct shiftKey.
  generalize dependent (if shiftKey then 2 # 10 else 1 # 10 : Q). intros d Hd.
  assert (Hc : forall old new, speed (commit old new) = speed new)
    by (intros; unfold commit; now destruct (same_deps _ _)).
  destruct k; rewrite ?Hc; cbn [speed]; try exact Hs.
  - destruct (toFixed2_mono_bounds (speed st + d)) as [H1 _].
    specialize (H1 ltac:(lra)). minmax; lra.
  - destruct (toFixed2_mono_bounds (speed st + d)) as [H1 _].
    specialize (H1 ltac:(lra)). minmax; lra.
  - destruct (toFixed2_mono_bounds (speed st - d)) as [_ H2].
    specialize (H2 ltac:(lra)). minmax; lra.
  - destruct (toFixed2_mono_bounds (speed st - d)) as [_ H2].
    specialize (H2 ltac:(lra)). minmax; lra.
Qed.

Lemma onSpeedKey_in_range_witness :
  1 # 10 <= speed (onSpeedKey ArrowDown true (mkState 0 2 true (1 # 10) true None 0))
         <= 2.
Proof.
  apply (onSpeedKey_in_range ArrowDown true (mkState 0 2 true (1 # 10) true None 0)).
  split; discriminate.
Defined.

End ControlsTheory.

(* ===================================================================== *)
(** ** More on channels and series *)
(* ===================================================================== *)

Module SeriesExtra.
Import Series Scenarios SeriesTheory.

#[local] Open Scope string_scope.
#[local] Open Scope list_scope.

(** *** Channel discovery *)

(** The channels depend on which rows there are, not on their order nor on
    how often a row occurs. *)
Theorem listNumericChannels_same_rows (data1 data2 : list row) :
  (forall d : row, d ∈ data1 <-> d ∈ data2) ->
  listNumericChannels data1 = listNumericChannels data2.
Proof.
  intros Hrows. apply (StronglySorted_unique str_le).
  - apply SeriesTheory.listNumericChannels_sorted.
  - apply SeriesTheory.listNumericChannels_sorted.
  - apply NoDup_Permutation.
    + apply SeriesTheory.listNumericChannels_NoDup.
    + apply SeriesTheory.listNumericChannels_NoDup.
    + intros k. rewrite !SeriesTheory.elem_of_listNumericChannels.
      split; intros (Hr & f & q & Hf & Hq); (split; [exact Hr|]);
        exists f, q; (split; [now apply Hrows|exact Hq]).
Qed.

Lemma listNumericChannels_same_rows_witness :
  listNumericChannels [row_tv (Fin 0) 1; RNullish; row_ttv (Fin 1) NaN 2]
  = listNumericChannels [row_ttv (Fin 1) NaN 2; row_tv (Fin 0) 1;
                         row_ttv (Fin 1) NaN 2; RNullish].
Proof.
  apply (listNumericChannels_same_rows
           [row_tv (Fin 0) 1; RNullish; row_ttv (Fin 1) NaN 2]
           [row_ttv (Fin 1) NaN 2; row_tv (Fin 0) 1;
            row_ttv (Fin 1) NaN 2; RNullish]).
  intros d. rewrite !elem_of_cons, !elem_of_nil. tauto.
Defined.

(** There is no channel exactly when every finite number of every row
    stands under a reserved name; in particular for no rows at all. *)
Theorem listNumericChannels_empty (data : list row) :
  listNumericChannels data = [] <->
  forall (fields : gmap string jsvalue) (k : string) (q : Q),
    RObject fields ∈ data -> fields !! k = Some (VNumber (Fin q)) ->
    reserved k = true.
Proof.
  split.
  - intros E f k q Hf Hq. destruct (reserved k) eqn:Hr; [reflexivity|].
    assert (H : k ∈ listNumericChannels data).
    { apply SeriesTheory.elem_of_listNumericChannels. eauto. }
    rewrite E in H. now apply elem_of_nil in H.
  - intros H. destruct (listNumericChannels data) as [|k l] eqn:E; [reflexivity|].
    assert (Hk : k ∈ listNumericChannels data) by (rewrite E; apply elem_of_cons; now left).
    apply SeriesTheory.elem_of_listNumericChannels in Hk as (Hr & f & q & Hf & Hq).
    rewrite (H f k q Hf Hq) in Hr. discriminate Hr.
Qed.

Lemma listNumericChannels_empty_witness :
  listNumericChannels [RObject (<["t" := VNumber (Fin 0)]> {["frame" := VNumber (Fin 1)]});
                       RObject {["label" := VString "a"]}; RNullish] = [].
Proof.
  apply (proj2 (listNumericChannels_empty
                  [RObject (<["t" := VNumber (Fin 0)]> {["frame" := VNumber (Fin 1)]});
                   RObject {["label" := VString "a"]}; RNullish])).
  intros fields k q Hf Hk.
  repeat (apply elem_of_cons in Hf as [Hf | Hf]); try discriminate Hf;
    [| |now apply elem_of_nil in Hf]; inversion Hf; subst fields; clear Hf.
  - destruct (decide (k = "t")) as [->|Ht]; [reflexivity|].
    rewrite lookup_insert_ne in Hk by congruence.
    destruct (decide (k = "frame")) as [->|Hfr]; [reflexivity|].
    rewrite lookup_singleton_ne in Hk by congruence. discriminate Hk.
  - destruct (decide (k = "label")) as [->|Hl].
    + rewrite lookup_singleton_eq in Hk. discriminate Hk.
    + rewrite lookup_singleton_ne in Hk by congruence. discriminate Hk.
Defined.

(** *** The preferred channel *)

Lemma find_elem {A} (f : A -> bool) (l : list A) (x : A) :
  List.find f l = Some x -> x ∈ l /\ f x = true.
Proof. intros H. apply List.find_some in H as [H1 H2]. split; [now apply list_elem_of_In|exact H2]. Qed.

Lemma find_none_elem {A} (f : A -> bool) (l : list A) (x : A) :
  List.find f l = None -> x ∈ l -> f x = false.
Proof.
  intros H Hx. apply list_elem_of_In in Hx.
  exact (List.find_none f l H x Hx).
Qed.

(** The preferred channel is one of the channels, and there is one as soon
    as there is a channel. *)
Theorem pickPreferredChannel_elem (list : list string) :
  (forall k, pickPreferredChannel list = Some k -> k ∈ list) /\
  (pickPreferredChannel list = None <-> list = []).
Proof.
  unfold pickPreferredChannel. split.
  - intros k H.
    destruct (List.find _ list) eqn:E1;
      [inversion H; subst; now apply find_elem in E1|].
    destruct (List.find (Regex.test "Velocity") list) eqn:E2;
      [inversion H; subst; now apply find_elem in E2|].
    destruct (List.find (Regex.test "Rotation") list) eqn:E3;
      [inversion H; subst; now apply find_elem in E3|].
    destruct list; inversion H. apply elem_of_cons. now left.
  - split.
    + intros H.
      destruct (List.find _ list); [discriminate|].
      destruct (List.find _ list); [discriminate|].
      destruct (List.find _ list); [discriminate|].
      now destruct list.
    + intros ->. reflexivity.
Qed.

Lemma pickPreferredChannel_elem_witness :
  "knee" ∈ ["knee"; "ankle"] /\ pickPreferredChannel [] = None.
Proof.
  destruct (pickPreferredChannel_elem ["knee"; "ankle"]) as [Hin _].
  destruct (pickPreferredChannel_elem []) as [_ Hnone].
  split; [apply Hin; reflexivity|apply Hnone; reflexivity].
Defined.

(** What matches [/a.*b/i] matches [/b/i]. *)
Lemma test_cons (b : string) (c : ascii) (s : string) :
  Regex.test b s = true -> Regex.test b (String c s) = true.
Proof. intros H. cbn [Regex.test]. destruct (Regex.strip b (String c s)); [reflexivity|exact H]. Qed.

Lemma dots_then_test (b s : string) :
  Regex.dots_then b s = true -> Regex.test b s = true.
Proof.
  induction s as [|c s IH]; cbn [Regex.dots_then Regex.test];
    destruct (Regex.strip b _); try easy.
  destruct (Regex.line_terminator c); [discriminate|exact IH].
Qed.

Lemma strip_test (a b : string) : forall s r : string,
  Regex.strip a s = Some r -> Regex.test b r = true -> Regex.test b s = true.
Proof.
  induction a as [|x a IH]; intros s r Hs Hr.
  - cbn in Hs. destruct s; inversion Hs; subst; exact Hr.
  - destruct s as [|y s]; [discriminate Hs|]. cbn [Regex.strip] in Hs.
    destruct (Ascii.eqb _ _); [|discriminate Hs].
    apply test_cons. now apply (IH s r).
Qed.

Lemma test_seq_test (a b s : string) :
  Regex.test_seq a b s = true -> Regex.test b s = true.
Proof.
  induction s as [|c s IH]; cbn [Regex.test_seq]; intros H.
  - rewrite orb_false_r in H. destruct (Regex.strip a "") as [r|] eqn:E; [|discriminate H].
    apply (strip_test a b "" r E). now apply dots_then_test.
  - apply orb_prop in H as [H|H].
    + destruct (Regex.strip a (String c s)) as [r|] eqn:E; [|discriminate H].
      apply (strip_test a b _ r E). now apply dots_then_test.
    + apply test_cons. now apply IH.
Qed.

(** As soon as one channel name contains "velocity" (in any case), the
    preferred channel is a channel whose name contains "velocity". *)
Theorem pickPreferredChannel_prefers_velocity (list : list string) :
  (exists k, k ∈ list /\ Regex.test "Velocity" k = true) ->
  exists k, pickPreferredChannel list = Some k /\ k ∈ list /\
            Regex.test "Velocity" k = true.
Proof.
  intros (k0 & Hk0 & Hv). unfold pickPreferredChannel.
  destruct (List.find (Regex.test_seq "Wrist" "Velocity") list) as [k|] eqn:E1.
  - apply find_elem in E1 as [Hk Ht]. exists k.
    split; [reflexivity|]. split; [exact Hk|]. now apply (test_seq_test "Wrist").
  - destruct (List.find (Regex.test "Velocity") list) as [k|] eqn:E2.
    + apply find_elem in E2 as [Hk Ht]. now exists k.
    + rewrite (find_none_elem _ _ _ E2 Hk0) in Hv. discriminate Hv.
Qed.

Lemma pickPreferredChannel_prefers_velocity_witness :
  exists k, pickPreferredChannel ["Elbow/Rotation"; "hip_VELOCITY"; "knee"] = Some k
            /\ k ∈ ["Elbow/Rotation"; "hip_VELOCITY"; "knee"]
            /\ Regex.test "Velocity" k = true.
Proof.
  apply (pickPreferredChannel_prefers_velocity
           ["Elbow/Rotation"; "hip_VELOCITY"; "knee"]).
  exists "hip_VELOCITY". split; [|reflexivity].
  apply elem_of_cons. right. apply elem_of_cons. now left.
Defined.

End SeriesExtra.

Module BuildSeriesExtra.
Import Series Scenarios Notions BuildSeriesTheory.

#[local] Open Scope string_scope.
#[local] Open Scope list_scope.

Section WithCoercion.

Variable StringToNumber : string -> jsnum.

#[local] Abbreviation collect := (collect StringToNumber).
#[local] Abbreviation pointOf := (pointOf StringToNumber).
#[local] Abbreviation buildSeries := (buildSeries StringToNumber).
#[local] Abbreviation Number := (Number StringToNumber).

(** What [pointOf] keeps and what it skips. *)
Lemma pointOf_Some tKey c n i d p :
  pointOf tKey c n i d = Some p ->
  finite_number (get d c) = Some (value p) /\
  match tKey with
  | Some k => isFinite (Number (get d k)) = Some (t p)
  | None => t p = indexTime n i
  end.
Proof.
  unfold Series.pointOf. destruct (finite_number (get d c)) as [v|]; [|discriminate].
  destruct tKey as [k|].
  - destruct (isFinite _) as [tv|]; [|discriminate].
    intros H; inversion H; subst; now cbn.
  - intros H; inversion H; subst; now cbn.
Qed.

Lemma pointOf_no_value tKey c n i d :
  finite_number (get d c) = None -> pointOf tKey c n i d = None.
Proof. intros H. unfold Series.pointOf. now rewrite H. Qed.

Lemma collect_no_value tKey c n i (l : list row) :
  (forall d, d ∈ l -> finite_number (get d c) = None) ->
  collect tKey c n i l = [].
Proof.
  revert i. induction l as [|d l IH]; intros i H; [reflexivity|].
  cbn [Series.collect]. rewrite pointOf_no_value by (apply H, elem_of_cons; now left).
  apply IH. intros d' Hd'. apply H, elem_of_cons. now right.
Qed.

(** Nothing to plot: without rows, without a channel (null or the empty
    name), or with a channel that is a finite number in no row, the series
    is empty and its duration is 0. *)
Theorem buildSeries_empty (data : list row) (channel : option string) :
  data = [] \/ truthy channel = None \/
  (exists c, truthy channel = Some c /\
             forall d, d ∈ data -> finite_number (get d c) = None) ->
  buildSeries data channel = mkResult [] 0.
Proof.
  intros [H|[H|(c & Hc & H)]].
  - apply buildSeries_no_input. now left.
  - apply buildSeries_no_input. now right.
  - destruct data as [|d data]; [apply buildSeries_no_input; now left|].
    rewrite (buildSeries_unfold _ _ _ c) by easy. cbv zeta.
    now rewrite collect_no_value.
Qed.

Lemma collect_values tKey c n i (l : list row) :
  (value <$> collect tKey c n i l)
    `sublist_of` omap (fun d => finite_number (get d c)) l.
Proof.
  revert i. induction l as [|d l IH]; intros i; [constructor|].
  cbn [Series.collect omap list_omap].
  destruct (pointOf tKey c n i d) as [p|] eqn:E.
  - apply pointOf_Some in E as [Hv _]. rewrite Hv. cbn. now constructor.
  - destruct (finite_number (get d c)); [constructor|]; apply IH.
Qed.

Lemma collect_values_fallback c n i (l : list row) :
  value <$> collect None c n i l = omap (fun d => finite_number (get d c)) l.
Proof.
  revert i. induction l as [|d l IH]; intros i; [reflexivity|].
  cbn [Series.collect omap list_omap]. unfold Series.pointOf.
  destruct (finite_number (get d c)); cbn; now rewrite IH.
Qed.

Lemma collect_length tKey c n i (l : list row) :
  (length (collect tKey c n i l) <= length l)%nat.
Proof.
  revert i. induction l as [|d l IH]; intros i; [reflexivity|].
  cbn [Series.collect]. specialize (IH (S i)).
  destruct (pointOf tKey c n i d); cbn [length] in *; lia.
Qed.

Lemma buildSeries_pts_values (data : list row) (channel : option string) (c : string) :
  truthy channel = Some c ->
  value <$> pts (buildSeries data channel)
  = value <$> collect (timeKey data) c (length data) 0 data.
Proof.
  intros Hc. destruct data as [|d data]; [reflexivity|].
  rewrite (buildSeries_unfold _ _ _ c) by easy. cbv zeta.
  destruct (collect _ c _ 0 (d :: data)) as [|p0 raw]; [reflexivity|].
  cbn [pts]. rewrite <- list_fmap_compose. reflexivity.
Qed.

(** The values of the series are values of the channel, in the order of
    the rows: a row contributes at most one point, a kept row contributes
    its own value unchanged, and without a time key every row in which the
    channel is a finite number is kept. *)
Theorem buildSeries_values (data : list row) (channel : option string) (c : string) :
  truthy channel = Some c ->
  (value <$> pts (buildSeries data channel))
    `sublist_of` omap (fun d => finite_number (get d c)) data /\
  (length (pts (buildSeries data channel)) <= length data)%nat /\
  (timeKey data = None ->
   value <$> pts (buildSeries data channel)
   = omap (fun d => finite_number (get d c)) data).
Proof.
  intros Hc. rewrite (buildSeries_pts_values _ _ _ Hc).
  split; [apply collect_values|]. split.
  - rewrite <- (length_fmap value), (buildSeries_pts_values _ _ _ Hc).
    rewrite length_fmap. apply collect_length.
  - intros ->. apply collect_values_fallback.
Qed.

(** *** Rows in the order of time *)

Lemma collect_elem_time k c n i (l : list row) (q : SeriesPoint) :
  q ∈ collect (Some k) c n i l ->
  exists (j : nat) (d : row),
    l !! j = Some d /\ isFinite (Number (get d k)) = Some (t q).
Proof.
  revert i. induction l as [|d l IH]; intros i H; [now apply elem_of_nil in H|].
  cbn [Series.collect] in H.
  destruct (pointOf (Some k) c n i d) as [p|] eqn:E.
  - apply elem_of_cons in H as [-> | H].
    + apply pointOf_Some in E as [_ Ht]. now exists 0%nat, d.
    + destruct (IH _ H) as (j & d' & Hj & Hd'). now exists (S j), d'.
  - destruct (IH _ H) as (j & d' & Hj & Hd'). now exists (S j), d'.
Qed.

Lemma collect_ordered k c n i (l : list row) :
  (forall (a b : nat) (da db : row) (ta tb : Q),
     (a <= b)%nat -> l !! a = Some da -> l !! b = Some db ->
     isFinite (Number (get da k)) = Some ta ->
     isFinite (Number (get db k)) = Some tb -> ta <= tb) ->
  StronglySorted (fun p q => t p <= t q) (collect (Some k) c n i l).
Proof.
  revert i. induction l as [|d l IH]; intros i Hord; [constructor|].
  assert (Hord' : forall (a b : nat) (da db : row) (ta tb : Q),
     (a <= b)%nat -> l !! a = Some da -> l !! b = Some db ->
     isFinite (Number (get da k)) = Some ta ->
     isFinite (Number (get db k)) = Some tb -> ta <= tb).
  { intros a b da db ta tb Hab Ha Hb. apply (Hord (S a) (S b)); [lia|exact Ha|exact Hb]. }
  cbn [Series.collect].
  destruct (pointOf (Some k) c n i d) as [p|] eqn:E; [|now apply IH].
  constructor; [now apply IH|].
  apply Forall_forall. intros q Hq.
  apply pointOf_Some in E as [_ Ht].
  destruct (collect_elem_time _ _ _ _ _ _ Hq) as (j & d' & Hj & Hd').
  apply (Hord 0%nat (S j) d d'); [lia|reflexivity|exact Hj|exact Ht|exact Hd'].
Qed.

Lemma last_elem {A} (l : list A) (x : A) : List.last (x :: l) x ∈ x :: l.
Proof.
  revert x. induction l as [|y l IH]; intros x; [apply elem_of_cons; now left|].
  change (List.last (x :: y :: l) x) with (List.last (y :: l) x).
  apply elem_of_cons. right.
  destruct l as [|z l]; [apply elem_of_cons; now left|].
  specialize (IH y).
  change (List.last (y :: z :: l) x) with (List.last (z :: l) x).
  change (List.last (y :: z :: l) y) with (List.last (z :: l) y) in IH.
  assert (E : List.last (z :: l) x = List.last (z :: l) y).
  { clear. revert z. induction l as [|w l IHl]; intros z; [reflexivity|].
    exact (IHl w). }
  now rewrite E.
Qed.

(** When the rows come in the order of their times, so do the points of
    the series: the relative times never decrease, none is negative, and
    the duration is the relative time of the last point. *)
Theorem buildSeries_ordered (data : list row) (channel : option string)
    (c k : string) :
  truthy channel = Some c -> timeKey data = Some k ->
  (forall (a b : nat) (da db : row) (ta tb : Q),
     (a <= b)%nat -> data !! a = Some da -> data !! b = Some db ->
     isFinite (Number (get da k)) = Some ta ->
     isFinite (Number (get db k)) = Some tb -> ta <= tb) ->
  StronglySorted (fun p q => t p <= t q) (pts (buildSeries data channel)) /\
  Forall (fun p => 0 <= t p) (pts (buildSeries data channel)) /\
  (forall p rest, pts (buildSeries data channel) = p :: rest ->
     dur (buildSeries data channel) == t (List.last (p :: rest) p)).
Proof.
  intros Hc Hk Hord.
  destruct data as [|d data]; [repeat split; try constructor; discriminate|].
  rewrite (buildSeries_unfold _ _ _ c) by easy. cbv zeta. rewrite Hk.
  pose proof (collect_ordered k c (length (d :: data)) 0 (d :: data) Hord) as Hs.
  destruct (collect (Some k) c _ 0 (d :: data)) as [|p0 raw];
    [repeat split; try constructor; discriminate|].
  cbn [pts dur].
  assert (Hall : Forall (fun q => t p0 <= t q) (p0 :: raw)).
  { constructor; [lra|]. now apply StronglySorted_inv in Hs as [_ Hs]. }
  split; [|split].
  - apply (StronglySorted_fmap (fun q => mkPoint (t q - t p0) (value q))
                               (fun p q => t p <= t q));
      [|exact Hs].
    intros p q H. cbn [t]. lra.
  - apply (proj2 (Forall_fmap (fun q => mkPoint (t q - t p0) (value q)) _ _)).
    eapply Forall_impl; [exact Hall|].
    intros q Hq. unfold compose. cbn beta in Hq. cbn [t]. lra.
  - intros p rest Hp.
    assert (Hl : t p0 <= t (List.last (p0 :: raw) p0)).
    { rewrite Forall_forall in Hall. apply Hall, last_elem. }
    assert (E : List.last (p :: rest) p
                = mkPoint (t (List.last (p0 :: raw) p0) - t p0)
                          (value (List.last (p0 :: raw) p0))).
    { rewrite <- Hp.
      assert (Ep : p = mkPoint (t p0 - t p0) (value p0))
        by (cbn [List.map] in Hp; now inversion Hp).
      rewrite Ep.
      apply (last_map (fun q => mkPoint (t q - t p0) (value q)) (p0 :: raw) p0). }
    rewrite E. cbn [t]. minmax; lra.
Qed.

(** *** Index-based timing *)

Lemma pointOf_fallback c n i d v :
  finite_number (get d c) = Some v ->
  pointOf None c n i d = Some (mkPoint (indexTime n i) v).
Proof. intros H. unfold Series.pointOf. now rewrite H. Qed.

(** Without a time key the duration is the distance between the first and
    the last row in which the channel is a finite number, counted in rows
    and divided by the number of all rows minus one; rows dropped at either
    end shorten it. *)
Theorem buildSeries_index_duration (data pre mid post : list row)
    (di dj : row) (channel : option string) (c : string) :
  truthy channel = Some c -> timeKey data = None ->
  data = pre ++ [di] ++ mid ++ [dj] ++ post ->
  (forall d, d ∈ pre -> finite_number (get d c) = None) ->
  (forall d, d ∈ post -> finite_number (get d c) = None) ->
  is_Some (finite_number (get di c)) -> is_Some (finite_number (get dj c)) ->
  dur (buildSeries data channel)
  == inject_Z (Z.of_nat (length mid + 1)) / inject_Z (Z.of_nat (length data - 1)).
Proof.
  intros Hc Hk Hdata Hpre Hpost [vi Hvi] [vj Hvj].
  assert (Hn : (1 < length data)%nat).
  { rewrite Hdata, !length_app. cbn. lia. }
  rewrite (buildSeries_unfold _ _ _ c); [|now destruct data|exact Hc].
  cbv zeta. rewrite Hk.
  set (n := length data) in *.
  set (i := length pre). set (j := (i + 1 + length mid)%nat).
  assert (E : collect None c n 0 data
              = mkPoint (indexTime n i) vi
                  :: (collect None c n (i + 1) mid ++ [mkPoint (indexTime n j) vj])).
  { rewrite Hdata, !collect_app.
    rewrite (collect_no_value None c n _ pre Hpre).
    rewrite (collect_no_value None c n _ post Hpost).
    cbn [Series.collect app length].
    rewrite (pointOf_fallback c n _ di vi Hvi), (pointOf_fallback c n _ dj vj Hvj).
    rewrite app_nil_r. reflexivity. }
  rewrite E. cbn [dur]. rewrite app_comm_cons, List.last_last. cbn [t].
  rewrite !(indexTime_many n) by exact Hn.
  assert (Hm : 0 < inject_Z (Z.of_nat n) - 1).
  { assert (H2 : inject_Z 2 <= inject_Z (Z.of_nat n)) by (rewrite <- Zle_Qle; lia).
    change (inject_Z 2) with 2 in H2. lra. }
  assert (Em : inject_Z (Z.of_nat (n - 1)) == inject_Z (Z.of_nat n) - 1).
  { replace (Z.of_nat (n - 1)) with (Z.of_nat n + - (1))%Z by lia.
    rewrite inject_Z_plus, inject_Z_opp. reflexivity. }
  rewrite Em.
  assert (Ej : inject_Z (Z.of_nat j)
               == inject_Z (Z.of_nat i) + inject_Z (Z.of_nat (length mid + 1))).
  { rewrite <- inject_Z_plus. unfold j. f_equiv. lia. }
  assert (Hpos : 0 <= inject_Z (Z.of_nat (length mid + 1))).
  { change 0 with (inject_Z 0). rewrite <- Zle_Qle. lia. }
  unfold Qdiv. set (u := / (inject_Z (Z.of_nat n) - 1)).
  assert (Hu : 0 < u) by (apply Qinv_lt_0_compat; exact Hm).
  assert (Hprod : 0 <= inject_Z (Z.of_nat (length mid + 1)) * u)
    by (apply Qmult_le_0_compat; lra).
  rewrite Ej.
  set (x := inject_Z (Z.of_nat (length mid + 1))) in *.
  set (y := inject_Z (Z.of_nat i)) in *.
  assert (Er : (y + x) * u - y * u == x * u) by ring.
  minmax; lra.
Qed.

(** *** The origin of time *)

Lemma get_shiftRow (k k' : string) (c : Q) (d : row) :
  get (shiftRow k c d) k' = if decide (k = k') then shiftValue c (get d k') else get d k'.
Proof.
  destruct d as [|f]; cbn [shiftRow get]; [now destruct (decide _)|].
  destruct (decide (k = k')) as [->|Hne].
  - rewrite lookup_alter_eq. now destruct (f !! k').
  - now rewrite lookup_alter_ne.
Qed.

Lemma typeof_number_shiftValue (c : Q) (v : jsvalue) :
  typeof_number (shiftValue c v) = typeof_number v.
Proof. now destruct v as [| | |[]|]. Qed.

Lemma hasKey_shiftRow (k k' : string) (c : Q) (data : list row) :
  hasKey k' (shiftRow k c <$> data) = hasKey k' data.
Proof.
  unfold hasKey. induction data as [|d data IH]; [reflexivity|].
  cbn [fmap list_fmap existsb]. fold (fmap (shiftRow k c) data). rewrite IH. f_equal.
  rewrite get_shiftRow. destruct (decide _); [apply typeof_number_shiftValue|reflexivity].
Qed.

Lemma timeKey_shiftRow (k : string) (c : Q) (data : list row) :
  timeKey (shiftRow k c <$> data) = timeKey data.
Proof. unfold timeKey. now rewrite !hasKey_shiftRow. Qed.

Lemma pointOf_shiftRow (k c0 : string) (c : Q) (n i : nat) (d : row) :
  c0 <> k ->
  (forall tv, isFinite (Number (get d k)) = Some tv -> get d k = VNumber (Fin tv)) ->
  pointOf (Some k) c0 n i (shiftRow k c d)
  = (fun p => mkPoint (t p + c) (value p)) <$> pointOf (Some k) c0 n i d.
Proof.
  intros Hne Hnum. unfold Series.pointOf. rewrite !get_shiftRow.
  destruct (decide (k = c0)) as [E|_]; [congruence|].
  destruct (decide (k = k)) as [_|E]; [|congruence].
  destruct (finite_number (get d c0)) as [v|]; [|reflexivity].
  destruct (isFinite (Number (get d k))) as [tv|] eqn:Ht.
  - rewrite (Hnum tv eq_refl). reflexivity.
  - destruct (get d k) as [| | |[]|] eqn:G; cbn in *; try discriminate; now rewrite ?Ht.
Qed.

Lemma collect_shiftRow (k c0 : string) (c : Q) (n i : nat) (l : list row) :
  c0 <> k ->
  (forall d tv, d ∈ l -> isFinite (Number (get d k)) = Some tv ->
                get d k = VNumber (Fin tv)) ->
  collect (Some k) c0 n i (shiftRow k c <$> l)
  = (fun p => mkPoint (t p + c) (value p)) <$> collect (Some k) c0 n i l.
Proof.
  intros Hne. revert i. induction l as [|d l IH]; intros i Hnum; [reflexivity|].
  cbn [fmap list_fmap Series.collect]. fold (fmap (shiftRow k c) l).
  rewrite pointOf_shiftRow;
    [|exact Hne|intros tv; apply Hnum, elem_of_cons; now left].
  rewrite IH by (intros d' tv Hd'; apply Hnum, elem_of_cons; now right).
  now destruct (pointOf (Some k) c0 n i d).
Qed.

Lemma last_fmap {A B} (f : A -> B) (l : list A) (a : A) :
  List.last (f <$> l) (f a) = f (List.last l a).
Proof.
  induction l as [|x l IH]; [reflexivity|].
  destruct l; [reflexivity|exact IH].
Qed.

(** Only differences of time count: moving every time of the recording
    by the same amount gives the same series and the same duration. *)
Theorem buildSeries_shift_invariant (data : list row) (channel : option string)
    (c0 k : string) (c : Q) :
  truthy channel = Some c0 -> timeKey data = Some k -> c0 <> k ->
  (forall d tv, d ∈ data -> isFinite (Number (get d k)) = Some tv ->
                get d k = VNumber (Fin tv)) ->
  Forall2 (fun p q => t p == t q /\ value p = value q)
          (pts (buildSeries data channel))
          (pts (buildSeries (shiftRow k c <$> data) channel)) /\
  dur (buildSeries data channel)
  == dur (buildSeries (shiftRow k c <$> data) channel).
Proof.
  intros Hc Hk Hne Hnum.
  destruct data as [|d data]; [split; [constructor|reflexivity]|].
  rewrite !(buildSeries_unfold _ _ _ c0) by easy. cbv zeta.
  rewrite timeKey_shiftRow, Hk, length_fmap.
  rewrite (collect_shiftRow k c0 c _ 0 (d :: data) Hne Hnum).
  destruct (collect (Some k) c0 _ 0 (d :: data)) as [|p0 raw];
    [split; [constructor|reflexivity]|].
  set (h := fun p : SeriesPoint => mkPoint (t p + c) (value p)).
  change (h <$> (p0 :: raw)) with (h p0 :: (h <$> raw)). cbn [pts dur].
  change (h p0 :: (h <$> raw)) with (h <$> (p0 :: raw)).
  split.
  - change (Forall2 (fun p q => t p == t q /\ value p = value q)
              ((fun p => mkPoint (t p - t p0) (value p)) <$> (p0 :: raw))
              ((fun p => mkPoint (t p - t (h p0)) (value p)) <$> (h <$> (p0 :: raw)))).
    rewrite <- list_fmap_compose.
    apply Forall2_fmap, Forall_Forall2_diag, Forall_forall.
    intros p _. unfold compose, h. cbn [t value]. split; [ring|reflexivity].
  - rewrite (last_fmap h (p0 :: raw) p0). unfold h. cbn [t].
    generalize (t (List.last (p0 :: raw) p0)) (t p0). intros t1 t0.
    minmax; lra.
Qed.

End WithCoercion.

Lemma buildSeries_empty_witness :
  buildSeries noStrings [row_tv (Fin 0) 1; RNullish; row_tv (Fin 1) 2] (Some "speed")
  = mkResult [] 0.
Proof.
  apply (buildSeries_empty noStrings [row_tv (Fin 0) 1; RNullish; row_tv (Fin 1) 2]
           (Some "speed")).
  right. right. exists "speed". split; [reflexivity|].
  intros d Hd. repeat (apply elem_of_cons in Hd as [-> | Hd]);
    [reflexivity ..|now apply elem_of_nil in Hd].
Defined.

Lemma buildSeries_values_witness :
  (value <$> pts (buildSeries noStrings [row_tv (Fin 0) 1; row_tv NaN 7; row_tv (Fin 1) 2]
                              (Some "v")))
    `sublist_of` omap (fun d => finite_number (get d "v"))
                      [row_tv (Fin 0) 1; row_tv NaN 7; row_tv (Fin 1) 2].
Proof.
  apply (buildSeries_values noStrings [row_tv (Fin 0) 1; row_tv NaN 7; row_tv (Fin 1) 2]
           (Some "v") "v"). reflexivity.
Defined.

Lemma buildSeries_ordered_witness :
  StronglySorted (fun p q => t p <= t q)
    (pts (buildSeries noStrings [row_tv (Fin 3) 1; row_tv NaN 7; row_tv (Fin 5) 2]
                      (Some "v"))).
Proof.
  apply (buildSeries_ordered noStrings [row_tv (Fin 3) 1; row_tv NaN 7; row_tv (Fin 5) 2]
           (Some "v") "v" "t"); try reflexivity.
  intros a b da db ta tb Hab Ha Hb Hta Htb.
  destruct a as [|[|[|a]]], b as [|[|[|b]]]; try lia;
    cbn in Ha, Hb; inversion Ha; inversion Hb; subst;
    cbn in Hta, Htb; inversion Hta; inversion Htb; subst;
    discriminate.
Defined.

Lemma buildSeries_index_duration_witness :
  dur (buildSeries noStrings
         [RNullish; RObject {["v" := VNumber (Fin 1)]}; RNullish;
          RObject {["v" := VNumber (Fin 2)]}; RObject {["w" := VNumber (Fin 9)]}]
         (Some "v"))
  == inject_Z (Z.of_nat (1 + 1)) / inject_Z (Z.of_nat (5 - 1)).
Proof.
  apply (buildSeries_index_duration noStrings
           [RNullish; RObject {["v" := VNumber (Fin 1)]}; RNullish;
            RObject {["v" := VNumber (Fin 2)]}; RObject {["w" := VNumber (Fin 9)]}]
           [RNullish] [RNullish] [RObject {["w" := VNumber (Fin 9)]}]
           (RObject {["v" := VNumber (Fin 1)]}) (RObject {["v" := VNumber (Fin 2)]})
           (Some "v") "v"); try reflexivity.
  - intros d Hd. apply elem_of_cons in Hd as [-> | Hd];
      [reflexivity|now apply elem_of_nil in Hd].
  - intros d Hd. apply elem_of_cons in Hd as [-> | Hd];
      [reflexivity|now apply elem_of_nil in Hd].
  - eexists; reflexivity.
  - eexists; reflexivity.
Defined.

Lemma buildSeries_shift_invariant_witness :
  dur (buildSeries noStrings [row_tv (Fin 3) 1; row_tv NaN 7; row_tv (Fin 5) 2] (Some "v"))
  == dur (buildSeries noStrings (shiftRow "t" 1000 <$>
                         [row_tv (Fin 3) 1; row_tv NaN 7; row_tv (Fin 5) 2])
                      (Some "v")).
Proof.
  apply (buildSeries_shift_invariant noStrings
           [row_tv (Fin 3) 1; row_tv NaN 7; row_tv (Fin 5) 2] (Some "v")
           "v" "t" 1000); try reflexivity.
  - discriminate.
  - intros d tv Hd. repeat (apply elem_of_cons in Hd as [-> | Hd]);
      [| |  |now apply elem_of_nil in Hd]; cbn; intros H; inversion H; reflexivity.
Defined.

End BuildSeriesExtra.

(* ===================================================================== *)
(** ** More on the loaders *)
(* ===================================================================== *)

Module LoaderExtra.
Import Series Loader Scenarios SeriesTheory.

#[local] Open Scope string_scope.
#[local] Open Scope list_scope.

Lemma includes_true (l : list string) (k : string) :
  includes l k = true <-> k ∈ l.
Proof.
  unfold includes. rewrite existsb_exists. split.
  - intros (x & Hx & E). apply String.eqb_eq in E. subst x. now apply list_elem_of_In.
  - intros H. exists k. split; [now apply list_elem_of_In|apply String.eqb_refl].
Qed.

Lemma pickPreferredChannel_in (l : list string) (k : string) :
  pickPreferredChannel l = Some k -> k ∈ l.
Proof.
  unfold pickPreferredChannel. intros H.
  destruct (List.find _ l) eqn:E1;
    [inversion H; subst; apply List.find_some in E1 as [E1 _]; now apply list_elem_of_In|].
  destruct (List.find (Regex.test "Velocity") l) eqn:E2;
    [inversion H; subst; apply List.find_some in E2 as [E2 _]; now apply list_elem_of_In|].
  destruct (List.find (Regex.test "Rotation") l) eqn:E3;
    [inversion H; subst; apply List.find_some in E3 as [E3 _]; now apply list_elem_of_In|].
  destruct l; inversion H. apply elem_of_cons. now left.
Qed.

Lemma pickPreferredChannel_some (l : list string) :
  l <> [] -> is_Some (pickPreferredChannel l).
Proof.
  intros H. unfold pickPreferredChannel.
  destruct (List.find _ l); [eauto|].
  destruct (List.find _ l); [eauto|].
  destruct (List.find _ l); [eauto|].
  destruct l; [contradiction|eauto].
Qed.

(** *** What [recompute] selects *)

(** The form of the result when there is a dataset and a sheet. *)
Lemma recompute_ran (a a' : AppState) (sets : RowsBySheet) (sh : string) :
  rowsBySheet a = Some sets -> truthy (sheet a) = Some sh ->
  recompute a = Some a' ->
  exists newRows : list row,
    sheetRows sets sh = Some newRows /\
    rows a' = Some newRows /\
    channels a' = listNumericChannels newRows /\
    selectedChannel a' =
      match truthy (selectedChannel a) with
      | Some k => if includes (listNumericChannels newRows) k then Some k
                  else pickPreferredChannel (listNumericChannels newRows)
      | None => pickPreferredChannel (listNumericChannels newRows)
      end /\
    selectedChannelB a' =
      match truthy (selectedChannelB a) with
      | Some k =>
          if includes (listNumericChannels newRows) k then Some k
          else match List.find (fun k => negb (bool_decide
                                 (Some k = pickPreferredChannel (listNumericChannels newRows))))
                               (listNumericChannels newRows) with
               | Some k' => Some k'
               | None => pickPreferredChannel (listNumericChannels newRows)
               end
      | None =>
          match List.find (fun k => negb (bool_decide
                            (Some k = pickPreferredChannel (listNumericChannels newRows))))
                          (listNumericChannels newRows) with
          | Some k' => Some k'
          | None => pickPreferredChannel (listNumericChannels newRows)
          end
      end /\
    rowsBySheet a' = Some sets /\ sheet a' = sheet a /\ sheetNames a' = sheetNames a.
Proof.
  intros Hr Hs H. unfold recompute in H. rewrite Hr, Hs in H.
  destruct (sheetRows sets sh) as [newRows|]; [|discriminate H].
  inversion H; subst a'; clear H. exists newRows. split; [reflexivity|].
  cbn [rows channels selectedChannel selectedChannelB rowsBySheet sheet
       sheetNames with_channels].
  repeat split; try assumption.
  - destruct (truthy (selectedChannel a)); [|reflexivity].
    now destruct (includes _ s).
  - destruct (truthy (selectedChannelB a)); [|reflexivity].
    now destruct (includes _ s).
Qed.

(** After [recompute] the two selections are channels of the sheet, and
    there is a selection as soon as there is a channel. *)
Theorem recompute_selects_channels (a a' : AppState) (sets : RowsBySheet)
    (sh : string) :
  rowsBySheet a = Some sets -> truthy (sheet a) = Some sh ->
  recompute a = Some a' ->
  (forall k, selectedChannel a' = Some k -> k ∈ channels a') /\
  (forall k, selectedChannelB a' = Some k -> k ∈ channels a') /\
  (channels a' <> [] ->
   is_Some (selectedChannel a') /\ is_Some (selectedChannelB a')).
Proof.
  intros Hr Hs H.
  destruct (recompute_ran a a' sets sh Hr Hs H)
    as (newRows & _ & _ & Hch & HA & HB & _).
  rewrite Hch, HA, HB. set (chs := listNumericChannels newRows).
  assert (Hfind : forall k,
    match List.find (fun k => negb (bool_decide (Some k = pickPreferredChannel chs))) chs with
    | Some k' => Some k'
    | None => pickPreferredChannel chs
    end = Some k -> k ∈ chs).
  { intros k. destruct (List.find _ chs) eqn:E.
    - intros Hk; inversion Hk; subst. apply List.find_some in E as [E _].
      now apply list_elem_of_In.
    - apply pickPreferredChannel_in. }
  split; [|split].
  - intros k. destruct (truthy (selectedChannel a)) as [p|];
      [|apply pickPreferredChannel_in].
    destruct (includes chs p) eqn:E; [|apply pickPreferredChannel_in].
    intros Hk; inversion Hk; subst. now apply includes_true.
  - intros k. destruct (truthy (selectedChannelB a)) as [p|]; [|apply Hfind].
    destruct (includes chs p) eqn:E; [|apply Hfind].
    intros Hk; inversion Hk; subst. now apply includes_true.
  - intros Hne. pose proof (pickPreferredChannel_some chs Hne) as Hp.
    split.
    + destruct (truthy (selectedChannel a)) as [p|]; [|exact Hp].
      destruct (includes chs p); [eauto|exact Hp].
    + assert (Hf : is_Some
        match List.find (fun k => negb (bool_decide (Some k = pickPreferredChannel chs))) chs with
        | Some k' => Some k'
        | None => pickPreferredChannel chs
        end) by (destruct (List.find _ chs); [eauto|exact Hp]).
      destruct (truthy (selectedChannelB a)) as [p|]; [|exact Hf].
      destruct (includes chs p); [eauto|exact Hf].
Qed.

Lemma recompute_selects_channels_witness : "a" ∈ channels recomputedTwo.
Proof.
  destruct (recompute_selects_channels storedTwo recomputedTwo setsTwo "Data")
    as [HA _]; try reflexivity.
  apply HA. reflexivity.
Defined.

(** With no selection to keep and at least two channels, the two plots
    start on two different channels. *)
Theorem recompute_fresh_selections_differ (a a' : AppState)
    (sets : RowsBySheet) (sh : string) :
  rowsBySheet a = Some sets -> truthy (sheet a) = Some sh ->
  selectedChannel a = None -> selectedChannelB a = None ->
  recompute a = Some a' -> (2 <= length (channels a'))%nat ->
  selectedChannel a' <> selectedChannelB a' /\
  is_Some (selectedChannel a') /\ is_Some (selectedChannelB a').
Proof.
  intros Hr Hs HA0 HB0 H Hlen.
  destruct (recompute_ran a a' sets sh Hr Hs H)
    as (newRows & _ & _ & Hch & HA & HB & _).
  rewrite HA0 in HA. rewrite HB0 in HB. cbn [truthy] in HA, HB.
  rewrite Hch in Hlen. set (chs := listNumericChannels newRows) in *.
  pose proof (listNumericChannels_NoDup newRows) as Hnd. fold chs in Hnd.
  destruct (pickPreferredChannel_some chs) as [first Hfirst];
    [intros E; rewrite E in Hlen; cbn in Hlen; lia|].
  rewrite Hfirst in HA, HB.
  assert (Hother : exists k, k ∈ chs /\ k <> first).
  { destruct chs as [|x [|y chs']]; cbn in Hlen; try lia.
    apply NoDup_cons in Hnd as [Hx _].
    destruct (decide (x = first)) as [->|Hxf].
    - exists y. split; [set_solver|]. intros ->. apply Hx. set_solver.
    - exists x. split; [set_solver|exact Hxf]. }
  destruct Hother as (k & Hk & Hkf).
  destruct (List.find (fun k => negb (bool_decide (Some k = Some first))) chs)
    as [k'|] eqn:E.
  - apply List.find_some in E as [_ E]. apply negb_true_iff in E.
    apply bool_decide_eq_false in E.
    rewrite HA, HB. split; [congruence|]. split; eauto.
  - exfalso. apply list_elem_of_In in Hk.
    pose proof (List.find_none _ _ E k Hk) as Hn. cbn in Hn.
    apply negb_false_iff, bool_decide_eq_true in Hn. congruence.
Qed.

Lemma recompute_fresh_selections_differ_witness :
  selectedChannel recomputedTwo <> selectedChannelB recomputedTwo.
Proof.
  apply (recompute_fresh_selections_differ storedTwo recomputedTwo setsTwo "Data");
    try reflexivity; try (vm_compute; lia).
Defined.

(** *** The manifest of a player *)

(** After a manifest has been applied, the player it was loaded for is in
    the list of players, which has no duplicates if it had none; a locked
    viewer lists that player alone.  The session is one the manifest names
    (listed in [sessions], or its [defaultSession]), and a previous session
    that the manifest lists is kept. *)
Theorem manifestLoaded_players_session (locked : bool) (p : string)
    (m : PlayerManifest) (a : AppState) :
  (p ∈ players (manifestLoaded locked p m a)) /\
  (NoDup (players a) -> NoDup (players (manifestLoaded locked p m a))) /\
  (locked = true -> players (manifestLoaded locked p m a) = [p]) /\
  (locked = false ->
   forall q, q ∈ players a -> q ∈ players (manifestLoaded locked p m a)) /\
  (forall s, session (manifestLoaded locked p m a) = Some s ->
     s ∈ default [] (m_sessions m) \/ defaultSession m = Some s) /\
  (forall prev, truthy (session a) = Some prev ->
     prev ∈ default [] (m_sessions m) ->
     session (manifestLoaded locked p m a) = Some prev).
Proof.
  unfold manifestLoaded. cbn [players session with_manifest].
  set (ss := default [] (m_sessions m)).
  assert (Hfallback : forall s,
    match defaultSession m with Some d => Some d | None => head ss end = Some s ->
    s ∈ ss \/ defaultSession m = Some s).
  { intros s. destruct (defaultSession m); [now right|].
    destruct ss; [discriminate|]. intros H; inversion H; subst. left. set_solver. }
  repeat split.
  - destruct locked; [set_solver|].
    destruct (Loader.includes (players a) p) eqn:E; [now apply includes_true|set_solver].
  - intros Hnd. destruct locked; [apply NoDup_singleton|].
    destruct (Loader.includes (players a) p) eqn:E; [exact Hnd|].
    apply NoDup_app. split; [exact Hnd|]. split; [|apply NoDup_singleton].
    intros x Hx Hx'. apply list_elem_of_singleton in Hx'. subst x.
    apply includes_true in Hx. congruence.
  - now intros ->.
  - intros -> q Hq. destruct (Loader.includes (players a) p); set_solver.
  - intros s. destruct (truthy (session a)) as [prev|]; [|apply Hfallback].
    destruct (Loader.includes ss prev) eqn:E; [|apply Hfallback].
    intros H; inversion H; subst. left. now apply includes_true.
  - intros prev Hprev Hin. rewrite Hprev.
    apply includes_true in Hin. now rewrite Hin.
Qed.

Lemma manifestLoaded_players_session_witness :
  NoDup (players (manifestLoaded false "B" manifestB (initialApp "A" None ["A"]))).
Proof.
  apply (manifestLoaded_players_session false "B" manifestB (initialApp "A" None ["A"])).
  apply NoDup_singleton.
Defined.

(** *** Which manifest can be applied *)

Section WithCoercion.

Variable StringToNumber : string -> jsnum.

#[local] Abbreviation step := (step StringToNumber).
#[local] Abbreviation run := (run StringToNumber).
#[local] Abbreviation settle := (settle StringToNumber).

Lemma sessionEffect_keeps (w : World) :
  playerName (app (sessionEffect w)) = playerName (app w) /\
  manifestLoads (sessionEffect w) = manifestLoads w.
Proof.
  unfold sessionEffect.
  destruct (manifest (app w)), (truthy (session (app w))); split; reflexivity.
Qed.

Lemma recompute_playerName (a a' : AppState) :
  recompute a = Some a' -> playerName a' = playerName a.
Proof.
  unfold recompute. intros H.
  destruct (rowsBySheet a) as [sets|], (truthy (sheet a)) as [sh|];
    try (inversion H; subst; reflexivity).
  destruct (sheetRows sets sh); inversion H; subst. reflexivity.
Qed.

Lemma seriesEffects_playerName (a : AppState) :
  playerName (seriesEffectB StringToNumber (seriesEffect StringToNumber a))
  = playerName a.
Proof.
  destruct a as [? ? ? ? ? ? ? ? ? ? rs ? selA ? selB ? ?].
  unfold seriesEffectB, seriesEffect. cbn.
  destruct rs, (truthy selA); cbn; destruct (truthy selB); reflexivity.
Qed.

Lemma settle_playerName (a a' : AppState) :
  settle a = Some a' -> playerName a' = playerName a.
Proof.
  unfold Loader.settle. destruct (recompute a) as [a1|] eqn:E; [|discriminate].
  cbn. intros H; inversion H; subst.
  rewrite seriesEffects_playerName. now apply recompute_playerName.
Qed.

Lemma excelLoaded_playerName (r : option RowsBySheet) (a : AppState) :
  playerName (excelLoaded r a) = playerName a.
Proof.
  unfold excelLoaded. destruct r as [sets|]; [|reflexivity].
  now destruct (preferredSheet sets.*1).
Qed.

(** One event keeps this: every manifest load that is in flight and not
    cancelled is a load for the player now selected. *)
Lemma step_live_manifest (w w' : World) (e : event) :
  (forall id l, manifestLoads w !! id = Some (Some l) -> cancelled l = false ->
                ml_player l = playerName (app w)) ->
  step w e = Some w' ->
  forall id l, manifestLoads w' !! id = Some (Some l) -> cancelled l = false ->
               ml_player l = playerName (app w').
Proof.
  intros Inv Hstep id l Hl Hc. destruct e as [p|s|id0 r|id0 r]; cbn [Loader.step] in Hstep.
  - destruct (String.eqb p (playerName (app w))).
    { inversion Hstep; subst. now apply (Inv id). }
    inversion Hstep; subst; clear Hstep.
    destruct (sessionEffect_keeps
                (manifestEffect (with_app (with_player p (app w)) w))) as [Hp Hm].
    rewrite Hp. rewrite Hm in Hl. cbn in Hl |- *.
    apply lookup_app_Some in Hl as [Hl|[Hlen Hl]].
    + rewrite list_lookup_fmap in Hl.
      destruct (manifestLoads w !! id) as [[l0|]|]; cbn in Hl; inversion Hl; subst.
      discriminate Hc.
    + destruct (id - length (cancel <$> manifestLoads w))%nat; cbn in Hl; [|discriminate].
      now inversion Hl.
  - destruct (bool_decide _).
    { inversion Hstep; subst. now apply (Inv id). }
    inversion Hstep; subst; clear Hstep.
    destruct (sessionEffect_keeps (with_app (with_session (Some s) (app w)) w)) as [Hp Hm].
    rewrite Hp. rewrite Hm in Hl. now apply (Inv id).
  - destruct (manifestLoads w !! id0) as [[l0|]|] eqn:E0;
      try (inversion Hstep; subst; now apply (Inv id)).
    assert (Hold : manifestLoads w !! id = Some (Some l) ->
                   ml_player l = playerName (app w)) by (intros H; now apply (Inv id)).
    assert (Hins : (<[id0 := None]> (manifestLoads w)) !! id = Some (Some l) ->
                   manifestLoads w !! id = Some (Some l)).
    { intros H. destruct (decide (id0 = id)) as [->|Hne].
      - rewrite list_lookup_insert_eq in H by (now apply lookup_lt_Some in E0).
        discriminate H.
      - now rewrite list_lookup_insert_ne in H. }
    destruct r as [m|].
    + destruct (cancelled l0).
      * inversion Hstep; subst. cbn in Hl |- *. now apply Hold, Hins.
      * inversion Hstep; subst; clear Hstep.
        match goal with |- context [sessionEffect ?x] =>
          destruct (sessionEffect_keeps x) as [Hp Hm] end.
        rewrite Hp. rewrite Hm in Hl. cbn in Hl |- *. now apply Hold, Hins.
    + inversion Hstep; subst; clear Hstep.
      match goal with |- context [sessionEffect ?x] =>
        destruct (sessionEffect_keeps x) as [Hp Hm] end.
      rewrite Hp. rewrite Hm in Hl. cbn in Hl |- *. now apply Hold, Hins.
  - destruct (excelLoads w !! id0) as [[l0|]|];
      try (inversion Hstep; subst; now apply (Inv id)).
    destruct (settle (excelLoaded r (app w))) as [a|] eqn:E; [|discriminate Hstep].
    cbn in Hstep. inversion Hstep; subst; clear Hstep. cbn in Hl |- *.
    rewrite (settle_playerName _ _ E), excelLoaded_playerName. now apply (Inv id).
Qed.

Lemma mount_live_manifest (locked : bool) (p0 : string) (s0 : option string)
    (ps : list string) (id : nat) (l : ManifestLoad) :
  manifestLoads (mount locked p0 s0 ps) !! id = Some (Some l) ->
  cancelled l = false ->
  ml_player l = playerName (app (mount locked p0 s0 ps)).
Proof.
  unfold mount.
  match goal with |- context [sessionEffect ?x] =>
    destruct (sessionEffect_keeps x) as [Hp Hm] end.
  rewrite Hp, Hm. cbn. intros Hl _.
  destruct id; cbn in Hl; [now inversion Hl|discriminate].
Qed.

(** The session effect of a page is the session effect of its component. *)
Lemma sessionEffectUrl_world (pg : Url.Page) :
  Url.world (Url.sessionEffectUrl pg) = sessionEffect (Url.world pg).
Proof.
  unfold Url.sessionEffectUrl, sessionEffect.
  destruct (manifest (app (Url.world pg))), (truthy (session (app (Url.world pg))));
    reflexivity.
Qed.

Lemma sessionEffect_live (w : World) :
  (forall id l, manifestLoads w !! id = Some (Some l) -> cancelled l = false ->
                ml_player l = playerName (app w)) ->
  forall id l, manifestLoads (sessionEffect w) !! id = Some (Some l) ->
               cancelled l = false ->
               ml_player l = playerName (app (sessionEffect w)).
Proof.
  intros Inv id l. destruct (sessionEffect_keeps w) as [Hp Hm].
  rewrite Hp, Hm. apply Inv.
Qed.

(** A run of the manifest effect leaves one load with a clear flag, its
    own. *)
Lemma manifestEffect_live (w : World) (id : nat) (l : ManifestLoad) :
  manifestLoads (manifestEffect w) !! id = Some (Some l) -> cancelled l = false ->
  ml_player l = playerName (app (manifestEffect w)).
Proof.
  cbn. intros Hl Hc.
  apply lookup_app_Some in Hl as [Hl|[Hlen Hl]].
  - rewrite list_lookup_fmap in Hl.
    destruct (manifestLoads w !! id) as [[l0|]|]; cbn in Hl; inversion Hl; subst.
    discriminate Hc.
  - destruct (id - length (cancel <$> manifestLoads w))%nat; cbn in Hl; [|discriminate].
    now inversion Hl.
Qed.

(** A render keeps it, with or without a change of the lock. *)
Lemma render_live (pg : Url.Page) :
  (forall id l, manifestLoads (Url.world pg) !! id = Some (Some l) ->
                cancelled l = false -> ml_player l = playerName (app (Url.world pg))) ->
  forall id l, manifestLoads (Url.world (Url.render pg)) !! id = Some (Some l) ->
               cancelled l = false ->
               ml_player l = playerName (app (Url.world (Url.render pg))).
Proof.
  intros Inv. unfold Url.render.
  destruct (Bool.eqb _ _); [exact Inv|].
  rewrite sessionEffectUrl_world. cbn [Url.world].
  apply sessionEffect_live. intros id l. apply manifestEffect_live.
Qed.

(** What an event does to a page is what it does to the component, with
    one more render where the session effect has run. *)
Lemma stepPage_step (pg pg' : Url.Page) (e : event) :
  Url.stepPage StringToNumber pg e = Some pg' ->
  exists (w1 : World) (pg1 : Url.Page),
    step (Url.world pg) e = Some w1 /\ Url.world pg1 = w1 /\
    (pg' = pg1 \/ pg' = Url.render pg1).
Proof.
  intros H. destruct e as [p|s|id0 r|id0 r]; cbn [Url.stepPage Loader.step] in *.
  - destruct (String.eqb p (playerName (app (Url.world pg)))).
    + inversion H; subst. exists (Url.world pg'), pg'. auto.
    + inversion H; subst. eexists _, _. split; [reflexivity|].
      split; [|right; reflexivity]. apply sessionEffectUrl_world.
  - destruct (bool_decide _).
    + inversion H; subst. exists (Url.world pg'), pg'. auto.
    + inversion H; subst. eexists _, _. split; [reflexivity|].
      split; [|right; reflexivity]. apply sessionEffectUrl_world.
  - destruct (manifestLoads (Url.world pg) !! id0) as [[l0|]|];
      try (inversion H; subst; exists (Url.world pg'), pg'; now auto).
    destruct r as [m|]; [destruct (cancelled l0)|].
    + inversion H; subst. eexists _, _. split; [reflexivity|].
      split; [|left; reflexivity]. reflexivity.
    + inversion H; subst. eexists _, _. split; [reflexivity|].
      split; [|right; reflexivity]. apply sessionEffectUrl_world.
    + inversion H; subst. eexists _, _. split; [reflexivity|].
      split; [|right; reflexivity]. apply sessionEffectUrl_world.
  - destruct (excelLoads (Url.world pg) !! id0) as [[l0|]|];
      try (cbn in H; inversion H; subst; eexists _, _;
           split; [reflexivity|]; split; [|left; reflexivity]; reflexivity).
    destruct (settle _) as [a|]; cbn in H; [|discriminate H].
    inversion H; subst. eexists _, _.
    split; [reflexivity|]. split; [|left; reflexivity]. reflexivity.
Qed.

Lemma stepPage_live_manifest (pg pg' : Url.Page) (e : event) :
  (forall id l, manifestLoads (Url.world pg) !! id = Some (Some l) ->
                cancelled l = false -> ml_player l = playerName (app (Url.world pg))) ->
  Url.stepPage StringToNumber pg e = Some pg' ->
  forall id l, manifestLoads (Url.world pg') !! id = Some (Some l) ->
               cancelled l = false -> ml_player l = playerName (app (Url.world pg')).
Proof.
  intros Inv H.
  destruct (stepPage_step pg pg' e H) as (w1 & pg1 & Hs & Hw & Hpg).
  assert (Inv1 : forall id l, manifestLoads (Url.world pg1) !! id = Some (Some l) ->
                   cancelled l = false ->
                   ml_player l = playerName (app (Url.world pg1))).
  { rewrite Hw. intros id l. now apply (step_live_manifest (Url.world pg) w1 e). }
  destruct Hpg as [-> | ->]; [exact Inv1|now apply render_live].
Qed.

(** The lock of the component is the one its URL gives, after every
    event: one more render is all a rewritten URL asks for. *)
Lemma sessionEffectUrl_lock (pg : Url.Page) :
  isPlayerLocked (Url.world (Url.sessionEffectUrl pg)) = isPlayerLocked (Url.world pg) /\
  Url.isPlayer (Url.sessionEffectUrl pg) = Url.isPlayer pg /\
  ((Url.paramPlayerRaw (Url.sessionEffectUrl pg) = Url.paramPlayerRaw pg /\
    Url.lockParam (Url.sessionEffectUrl pg) = Url.lockParam pg) \/
   Url.lockParam (Url.sessionEffectUrl pg) = isPlayerLocked (Url.world pg)).
Proof.
  unfold Url.sessionEffectUrl, sessionEffect.
  destruct (manifest (app (Url.world pg))), (truthy (session (app (Url.world pg))));
    cbn; auto.
Qed.

Lemma changed_lock_derived (pg : Url.Page) (w : World) :
  isPlayerLocked w
    = Url.derivedLock (Url.isPlayer pg) (Url.paramPlayerRaw pg) (Url.lockParam pg) ->
  isPlayerLocked (Url.world (Url.changed pg w))
    = Url.derivedLock (Url.isPlayer (Url.changed pg w))
                      (Url.paramPlayerRaw (Url.changed pg w))
                      (Url.lockParam (Url.changed pg w)).
Proof.
  intros Hl. unfold Url.changed.
  destruct (sessionEffectUrl_lock
              (Url.mkPage w (Url.isPlayer pg) (Url.paramPlayerRaw pg) (Url.lockParam pg)))
    as (G1 & G2 & G3).
  revert G1 G2 G3. generalize (Url.sessionEffectUrl
    (Url.mkPage w (Url.isPlayer pg) (Url.paramPlayerRaw pg) (Url.lockParam pg))).
  cbn [Url.world Url.isPlayer Url.paramPlayerRaw Url.lockParam].
  intros pg1 G1 G2 G3. unfold Url.render.
  destruct (Bool.eqb _ (isPlayerLocked (Url.world pg1))) eqn:E.
  { apply Bool.eqb_prop in E. now symmetry. }
  match goal with |- context [Url.sessionEffectUrl ?x] =>
    destruct (sessionEffectUrl_lock x) as (H1 & H2 & H3);
    revert H1 H2 H3; generalize (Url.sessionEffectUrl x) end.
  cbn [Url.world Url.isPlayer Url.paramPlayerRaw Url.lockParam isPlayerLocked].
  intros pg2 H1 H2 H3. rewrite H1, H2.
  destruct H3 as [[H3 H4]|H3]; [now rewrite H3, H4|].
  destruct (Url.derivedLock (Url.isPlayer pg1) (Url.paramPlayerRaw pg1)
                            (Url.lockParam pg1)) eqn:D.
  { unfold Url.derivedLock. now rewrite H3. }
  exfalso. rewrite G1, Hl in E.
  destruct G3 as [[G3 G4]|G3].
  - rewrite G2, G3, G4 in D. rewrite D in E. discriminate E.
  - rewrite Hl in G3. unfold Url.derivedLock in D. rewrite G3 in D.
    apply orb_false_elim in D as [D _]. rewrite D in E. discriminate E.
Qed.

Lemma stepPage_lock_derived (pg pg' : Url.Page) (e : event) :
  isPlayerLocked (Url.world pg)
    = Url.derivedLock (Url.isPlayer pg) (Url.paramPlayerRaw pg) (Url.lockParam pg) ->
  Url.stepPage StringToNumber pg e = Some pg' ->
  isPlayerLocked (Url.world pg')
    = Url.derivedLock (Url.isPlayer pg') (Url.paramPlayerRaw pg') (Url.lockParam pg').
Proof.
  intros Hl H. destruct e as [p|s|id0 r|id0 r]; cbn [Url.stepPage] in H.
  - destruct (String.eqb p (playerName (app (Url.world pg)))); inversion H; subst;
      [exact Hl|]. now apply changed_lock_derived.
  - destruct (bool_decide _); inversion H; subst; [exact Hl|].
    now apply changed_lock_derived.
  - destruct (manifestLoads (Url.world pg) !! id0) as [[l0|]|];
      try (inversion H; subst; exact Hl).
    destruct r as [m|]; [destruct (cancelled l0)|]; inversion H; subst;
      [exact Hl|now apply changed_lock_derived ..].
  - cbn [Loader.step] in H.
    destruct (excelLoads (Url.world pg) !! id0) as [[l0|]|];
      try (cbn in H; inversion H; subst; exact Hl).
    destruct (settle _) as [a|]; cbn in H; [|discriminate H].
    inversion H; subst. exact Hl.
Qed.

Lemma mount_lock (locked : bool) (p0 : string) (s0 : option string)
    (ps : list string) :
  isPlayerLocked (mount locked p0 s0 ps) = locked.
Proof. reflexivity. Qed.

Lemma runPage_lock_derived (pg0 pg : Url.Page) (es : list event) :
  isPlayerLocked (Url.world pg0)
    = Url.derivedLock (Url.isPlayer pg0) (Url.paramPlayerRaw pg0) (Url.lockParam pg0) ->
  Url.runPage StringToNumber pg0 es = Some pg ->
  isPlayerLocked (Url.world pg)
    = Url.derivedLock (Url.isPlayer pg) (Url.paramPlayerRaw pg) (Url.lockParam pg).
Proof.
  revert pg0. induction es as [|e es IH]; intros pg0 H0 Hrun.
  - cbn in Hrun. inversion Hrun; subst. exact H0.
  - cbn [Url.runPage] in Hrun.
    destruct (Url.stepPage StringToNumber pg0 e) as [pg1|] eqn:E; [|discriminate Hrun].
    cbn in Hrun. apply (IH pg1); [|exact Hrun].
    now apply (stepPage_lock_derived pg0 pg1 e).
Qed.

Lemma mountPage_lock_derived (isPlayer : bool) (paramPlayerRaw : option string)
    (lockParam : bool) (urlSession : option string) (playersFromUrl : list string)
    (es : list event) (pg : Url.Page) :
  Url.runPage StringToNumber
    (Url.mountPage isPlayer paramPlayerRaw lockParam urlSession playersFromUrl) es
    = Some pg ->
  isPlayerLocked (Url.world pg)
    = Url.derivedLock (Url.isPlayer pg) (Url.paramPlayerRaw pg) (Url.lockParam pg).
Proof. apply runPage_lock_derived. apply mount_lock. Qed.

(** In admin mode, and where the player is locked, the lock never changes:
    there an event does to the page what [Loader.step] does to the
    component. *)
Lemma changed_same_lock (pg : Url.Page) (w : World) :
  isPlayerLocked w
    = Url.derivedLock (Url.isPlayer pg) (Url.paramPlayerRaw pg) (Url.lockParam pg) ->
  Url.isPlayer pg = false \/ isPlayerLocked w = true ->
  Url.world (Url.changed pg w) = sessionEffect w /\
  Url.isPlayer (Url.changed pg w) = Url.isPlayer pg.
Proof.
  intros Hl Hm. unfold Url.changed.
  assert (E : Url.render (Url.sessionEffectUrl
                (Url.mkPage w (Url.isPlayer pg) (Url.paramPlayerRaw pg) (Url.lockParam pg)))
              = Url.sessionEffectUrl
                  (Url.mkPage w (Url.isPlayer pg) (Url.paramPlayerRaw pg) (Url.lockParam pg))).
  { unfold Url.render.
    match goal with |- (if Bool.eqb ?a ?b then _ else _) = _ =>
      assert (Eab : a = b); [|rewrite Eab, Bool.eqb_reflx; reflexivity] end.
    unfold Url.sessionEffectUrl, sessionEffect. cbn [Url.world].
    destruct (manifest (app w)), (truthy (session (app w)));
      cbn [Url.world Url.isPlayer Url.paramPlayerRaw Url.lockParam isPlayerLocked];
      try (now symmetry).
    unfold Url.derivedLock. destruct Hm as [-> | ->]; [|reflexivity].
    cbn. apply orb_false_r. }
  rewrite E. split; [apply sessionEffectUrl_world|].
  now destruct (sessionEffectUrl_lock
                  (Url.mkPage w (Url.isPlayer pg) (Url.paramPlayerRaw pg) (Url.lockParam pg)))
    as (_ & G2 & _).
Qed.

Lemma stepPage_same_lock (pg pg' : Url.Page) (e : event) :
  isPlayerLocked (Url.world pg)
    = Url.derivedLock (Url.isPlayer pg) (Url.paramPlayerRaw pg) (Url.lockParam pg) ->
  Url.isPlayer pg = false \/ isPlayerLocked (Url.world pg) = true ->
  Url.stepPage StringToNumber pg e = Some pg' ->
  step (Url.world pg) e = Some (Url.world pg') /\
  Url.isPlayer pg' = Url.isPlayer pg /\
  isPlayerLocked (Url.world pg') = isPlayerLocked (Url.world pg).
Proof.
  intros Hl Hm H.
  assert (K : forall w, isPlayerLocked w = isPlayerLocked (Url.world pg) ->
              Url.world (Url.changed pg w) = sessionEffect w /\
              Url.isPlayer (Url.changed pg w) = Url.isPlayer pg /\
              isPlayerLocked (Url.world (Url.changed pg w))
                = isPlayerLocked (Url.world pg)).
  { intros w Hw.
    destruct (changed_same_lock pg w) as [K1 K2];
      [now rewrite Hw|rewrite Hw; exact Hm|].
    split; [exact K1|]. split; [exact K2|]. rewrite K1.
    unfold sessionEffect.
    now destruct (manifest (app w)), (truthy (session (app w))). }
  destruct e as [p|s|id0 r|id0 r]; cbn [Url.stepPage Loader.step] in *.
  - destruct (String.eqb p (playerName (app (Url.world pg)))); inversion H; subst;
      [auto|].
    match goal with |- context [Url.changed pg ?w] =>
      destruct (K w eq_refl) as (K1 & K2 & K3) end.
    rewrite K3, K1, K2; auto.
  - destruct (bool_decide _); inversion H; subst; [auto|].
    match goal with |- context [Url.changed pg ?w] =>
      destruct (K w eq_refl) as (K1 & K2 & K3) end.
    rewrite K3, K1, K2; auto.
  - destruct (manifestLoads (Url.world pg) !! id0) as [[l0|]|];
      try (inversion H; subst; now auto).
    destruct r as [m|]; [destruct (cancelled l0)|]; inversion H; subst;
      [now auto| |];
      match goal with |- context [Url.changed pg ?w] =>
        destruct (K w eq_refl) as (K1 & K2 & K3) end;
      rewrite K3, K1, K2; auto.
  - destruct (excelLoads (Url.world pg) !! id0) as [[l0|]|];
      try (cbn in H; inversion H; subst; now auto).
    destruct (settle _) as [a|]; cbn in H; [|discriminate H].
    inversion H; subst. now auto.
Qed.

Lemma runPage_same_lock (pg0 pg : Url.Page) (es : list event) :
  isPlayerLocked (Url.world pg0)
    = Url.derivedLock (Url.isPlayer pg0) (Url.paramPlayerRaw pg0) (Url.lockParam pg0) ->
  Url.isPlayer pg0 = false \/ isPlayerLocked (Url.world pg0) = true ->
  Url.runPage StringToNumber pg0 es = Some pg ->
  run (Url.world pg0) es = Some (Url.world pg).
Proof.
  revert pg0. induction es as [|e es IH]; intros pg0 Hl Hm Hrun.
  - cbn in Hrun. inversion Hrun; subst. reflexivity.
  - cbn [Url.runPage] in Hrun.
    destruct (Url.stepPage StringToNumber pg0 e) as [pg1|] eqn:E; [|discriminate Hrun].
    cbn in Hrun. destruct (stepPage_same_lock pg0 pg1 e Hl Hm E) as (S1 & S2 & S3).
    cbn [Loader.run]. rewrite S1. cbn. apply IH; [|now rewrite S2, S3|exact Hrun].
    now apply (stepPage_lock_derived pg0 pg1 e).
Qed.

(** Whatever the user selects and in whatever order the responses come, in
    player mode and in admin mode, with or without a player or a lock in
    the URL, a manifest load that is in flight and not cancelled is a load
    for the player now selected: no manifest of another player can be
    applied. *)
Theorem live_manifest_is_current (isPlayer : bool)
    (paramPlayerRaw : option string) (lockParam : bool)
    (urlSession : option string) (playersFromUrl : list string)
    (es : list event) (pg : Url.Page) :
  Url.runPage StringToNumber
    (Url.mountPage isPlayer paramPlayerRaw lockParam urlSession playersFromUrl) es
    = Some pg ->
  forall id l, manifestLoads (Url.world pg) !! id = Some (Some l) ->
               cancelled l = false ->
               ml_player l = playerName (app (Url.world pg)).
Proof.
  assert (Inv0 : forall id l,
            manifestLoads (Url.world (Url.mountPage isPlayer paramPlayerRaw lockParam
                                        urlSession playersFromUrl)) !! id
              = Some (Some l) ->
            cancelled l = false ->
            ml_player l = playerName (app (Url.world (Url.mountPage isPlayer
                               paramPlayerRaw lockParam urlSession playersFromUrl)))).
  { intros id l. cbn [Url.mountPage Url.world]. apply mount_live_manifest. }
  revert Inv0. generalize (Url.mountPage isPlayer paramPlayerRaw lockParam
                             urlSession playersFromUrl).
  intros pg0 Inv. revert pg0 Inv.
  induction es as [|e es IH]; intros pg0 Inv Hrun.
  - cbn in Hrun. inversion Hrun; subst. exact Inv.
  - cbn [Url.runPage] in Hrun.
    destruct (Url.stepPage StringToNumber pg0 e) as [pg1|] eqn:E; [|discriminate Hrun].
    cbn in Hrun. apply (IH pg1); [|exact Hrun].
    intros id l. now apply (stepPage_live_manifest pg0 pg1 e).
Qed.

(** *** A table that has arrived *)

Lemma truthy_nonempty (n : string) : n <> "" -> truthy (Some n) = Some n.
Proof. destruct n; [contradiction|reflexivity]. Qed.

(** When a table arrives, everything that is shown comes from it: the
    active sheet is one of its sheets, the rows are the rows of that sheet,
    the channels are the channels of those rows, and the two series and the
    series duration are built from those rows and the channels selected
    now. *)
Theorem table_loaded_consistent (w : World) (id : nat) (l : ExcelLoad)
    (sets : RowsBySheet) (n : string) :
  excelLoads w !! id = Some (Some l) ->
  preferredSheet sets.*1 = Some n -> n <> "" ->
  exists (w' : World) (rs : list row),
    step w (ExcelResponse id (Some sets)) = Some w' /\
    rowsBySheet (app w') = Some sets /\ sheetNames (app w') = sets.*1 /\
    sheet (app w') = Some n /\ n ∈ sheetNames (app w') /\
    sheetRows sets n = Some rs /\ rows (app w') = Some rs /\
    channels (app w') = listNumericChannels rs /\
    series (app w') =
      match truthy (selectedChannel (app w')) with
      | Some _ => Some (pts (buildSeries StringToNumber rs (selectedChannel (app w'))))
      | None => None
      end /\
    jsonDuration (app w') =
      match truthy (selectedChannel (app w')) with
      | Some _ => dur (buildSeries StringToNumber rs (selectedChannel (app w')))
      | None => 0
      end /\
    seriesB (app w') =
      match truthy (selectedChannelB (app w')) with
      | Some _ => Some (pts (buildSeries StringToNumber rs (selectedChannelB (app w'))))
      | None => None
      end.
Proof.
  intros Hl Hn Hne.
  pose proof (LoaderTheory.preferredSheet_elem _ _ Hn) as Hin.
  destruct (LoaderTheory.sheetRows_elem sets n Hin) as [rs Hrs].
  unfold Loader.step. rewrite Hl. cbn [excelLoaded]. rewrite Hn, Hrs.
  unfold Loader.settle, recompute.
  cbn [rowsBySheet sheet with_dataset]. rewrite (truthy_nonempty n Hne), Hrs.
  cbn [mbind option_bind].
  set (a1 := with_channels _ _ _ _ _).
  exists (with_app (seriesEffectB StringToNumber (seriesEffect StringToNumber a1))
                   (mkWorld (app w) (isPlayerLocked w) (manifestLoads w)
                            (<[id := None]> (excelLoads w)))), rs.
  split; [reflexivity|]. cbn [app with_app].
  assert (H1 : rows a1 = Some rs) by reflexivity.
  assert (H2 : rowsBySheet a1 = Some sets) by reflexivity.
  assert (H3 : sheetNames a1 = sets.*1) by reflexivity.
  assert (H4 : sheet a1 = Some n) by reflexivity.
  assert (H5 : channels a1 = listNumericChannels rs) by reflexivity.
  clearbody a1.
  destruct a1 as [? ? ? ? ? ? ? sets' names' sheet' rows' chs' selA ? selB ? ?].
  cbn in H1, H2, H3, H4, H5. subst sets' names' sheet' rows' chs'.
  unfold seriesEffectB, seriesEffect. cbn.
  destruct (truthy selA) eqn:EA; cbn; destruct (truthy selB) eqn:EB; cbn;
    rewrite ?EA, ?EB; repeat split; exact Hin.
Qed.

End WithCoercion.

(** In player mode with no player in the URL, the first manifest puts the
    player in the URL: the lock is set at the next render, and the manifest
    and the table are requested once more. *)
Example player_mode_locks :
  let pg := default (Url.mountPage true None false None [])
              (Url.runPage noStrings (Url.mountPage true None false None [])
                           [ManifestResponse 0
                              (Some (mkManifest "Pete Alonso" (Some "s1") (Some ["s1"])
                                                None None []))]) in
  isPlayerLocked (Url.world (Url.mountPage true None false None [])) = false /\
  isPlayerLocked (Url.world pg) = true /\
  manifestLoads (Url.world pg) = [None; Some (mkManifestLoad "Pete Alonso" false)] /\
  length (excelLoads (Url.world pg)) = 2%nat.
Proof. vm_compute. repeat split. Qed.

Lemma live_manifest_is_current_witness :
  ml_player (mkManifestLoad "Pete Alonso" false)
  = playerName
      (app (Url.world
              (default (Url.mountPage true None false None [])
                 (Url.runPage noStrings (Url.mountPage true None false None [])
                    [ManifestResponse 0
                       (Some (mkManifest "Pete Alonso" (Some "s1") (Some ["s1"])
                                         None None []))])))).
Proof.
  apply (live_manifest_is_current noStrings true None false None []
           [ManifestResponse 0
              (Some (mkManifest "Pete Alonso" (Some "s1") (Some ["s1"]) None None []))]
           (default (Url.mountPage true None false None [])
              (Url.runPage noStrings (Url.mountPage true None false None [])
                 [ManifestResponse 0
                    (Some (mkManifest "Pete Alonso" (Some "s1") (Some ["s1"])
                                      None None []))]))
           ltac:(vm_compute; reflexivity)
           1%nat (mkManifestLoad "Pete Alonso" false)).
  - vm_compute. reflexivity.
  - reflexivity.
Defined.

Lemma table_loaded_consistent_witness :
  exists (w' : World) (rs : list row),
    Loader.step noStrings secondSession (ExcelResponse 1 (Some setsB)) = Some w' /\
    rowsBySheet (app w') = Some setsB /\
    rows (app w') = Some rs /\ channels (app w') = listNumericChannels rs.
Proof.
  destruct (table_loaded_consistent noStrings secondSession 1
              (mkExcelLoad (mkPath "A" "s2" "Kinematic_Data (1).xlsx")) setsB "Data")
    as (w' & rs & Hs & Hr & _ & _ & _ & _ & Hrows & Hch & _).
  - vm_compute. reflexivity.
  - reflexivity.
  - discriminate.
  - exists w', rs. repeat split; assumption.
Defined.

End LoaderExtra.

(* ===================================================================== *)
(** ** Addresses and the list of players *)
(* ===================================================================== *)

Module SetupTheory.
Import Setup.

#[local] Open Scope string_scope.
#[local] Open Scope list_scope.

(** *** [joinPath] *)

Lemma dropTrailingSlashes_slash (a : string) :
  dropTrailingSlashes (String.append a "/") = dropTrailingSlashes a.
Proof.
  induction a as [|c a IH]; [reflexivity|].
  change (String.append (String c a) "/") with (String c (String.append a "/")).
  cbn [dropTrailingSlashes]. now rewrite IH.
Qed.

Lemma dropTrailingSlashes_no_slash (a x : string) :
  dropTrailingSlashes a <> String.append x "/".
Proof.
  revert x. induction a as [|c a IH]; intros x; cbn [dropTrailingSlashes].
  - destruct x; discriminate.
  - destruct (dropTrailingSlashes a) as [|c' r] eqn:E.
    + destruct (is_slash c) eqn:Hc; [destruct x; discriminate|].
      destruct x as [|c1 x]; cbn.
      * intros H; inversion H; subst. discriminate Hc.
      * intros H; inversion H. destruct x; discriminate.
    + destruct x as [|c1 x]; cbn; [discriminate|].
      intros H; inversion H; subst. now apply (IH x).
Qed.

Lemma dropLeadingSlashes_no_slash (b y : string) :
  dropLeadingSlashes b <> String "/" y.
Proof.
  induction b as [|c b IH]; cbn [dropLeadingSlashes]; [discriminate|].
  destruct (is_slash c) eqn:Hc; [exact IH|].
  intros H; inversion H; subst. discriminate Hc.
Qed.

(** [joinPath] puts exactly one slash between the two parts: the slashes at
    the end of the first part and at the start of the second do not count
    (adding one changes nothing), and in the result the slash stands
    between a part that does not end with a slash and a part that does not
    start with one. *)
Theorem joinPath_one_slash (a b : string) :
  joinPath (String.append a "/") b = joinPath a b /\
  joinPath a (String "/" b) = joinPath a b /\
  exists x y : string,
    joinPath a b = String.append x (String "/" y) /\
    (forall x', x <> String.append x' "/") /\ (forall y', y <> String "/" y').
Proof.
  unfold joinPath. split; [now rewrite dropTrailingSlashes_slash|].
  split; [reflexivity|].
  exists (dropTrailingSlashes a), (dropLeadingSlashes b).
  split; [reflexivity|]. split.
  - intros x'. apply dropTrailingSlashes_no_slash.
  - intros y'. apply dropLeadingSlashes_no_slash.
Qed.

(** *** [initialPlayers] *)

Lemma players_includes_true (l : list string) (p : string) : includes l p = true <-> p ∈ l.
Proof.
  unfold includes. rewrite existsb_exists. split.
  - intros (x & Hx & E). apply String.eqb_eq in E. subst x. now apply list_elem_of_In.
  - intros H. exists p. split; [now apply list_elem_of_In|apply String.eqb_refl].
Qed.

Lemma pushNew_spec (base : list string) (p : string) :
  (NoDup base -> NoDup (pushNew base p)) /\
  (forall q, q ∈ pushNew base p <-> q ∈ base \/ q = p).
Proof.
  unfold pushNew. destruct (includes base p) eqn:E.
  - apply players_includes_true in E. split; [auto|]. intros q. split; [now left|].
    intros [H| ->]; assumption.
  - split.
    + intros Hnd. apply NoDup_app. split; [exact Hnd|].
      split; [|apply NoDup_singleton].
      intros x Hx Hx'. apply list_elem_of_singleton in Hx'. subst x.
      apply players_includes_true in Hx. congruence.
    + intros q. rewrite elem_of_app, list_elem_of_singleton. reflexivity.
Qed.

Lemma foldl_pushNew_spec (l base : list string) :
  (NoDup base -> NoDup (foldl pushNew base l)) /\
  (forall q, q ∈ foldl pushNew base l <-> q ∈ base \/ q ∈ l).
Proof.
  revert base. induction l as [|p l IH]; intros base; cbn [foldl].
  - split; [auto|]. intros q. rewrite elem_of_nil. tauto.
  - destruct (IH (pushNew base p)) as [IH1 IH2].
    destruct (pushNew_spec base p) as [P1 P2].
    split; [auto|]. intros q. rewrite IH2, P2, elem_of_cons. tauto.
Qed.

(** The list of players has no duplicates and holds the initial player; a
    locked viewer lists that player alone; otherwise the list holds the
    default players and the players of the URL, and nobody else. *)
Theorem initialPlayers_spec (locked : bool) (initialPlayer : string)
    (playersFromUrl : list string) :
  NoDup (initialPlayers locked initialPlayer playersFromUrl) /\
  (initialPlayer ∈ initialPlayers locked initialPlayer playersFromUrl) /\
  (locked = true ->
   initialPlayers locked initialPlayer playersFromUrl = [initialPlayer]) /\
  (locked = false ->
   forall q, q ∈ initialPlayers locked initialPlayer playersFromUrl <->
             q = initialPlayer \/ q ∈ DEFAULT_PLAYERS \/ q ∈ playersFromUrl).
Proof.
  unfold initialPlayers.
  destruct (foldl_pushNew_spec playersFromUrl DEFAULT_PLAYERS) as [F1 F2].
  assert (Hd : NoDup DEFAULT_PLAYERS) by apply NoDup_singleton.
  destruct locked.
  - split; [apply NoDup_singleton|].
    split; [apply list_elem_of_singleton; reflexivity|].
    split; [reflexivity|discriminate].
  - destruct (includes (foldl pushNew DEFAULT_PLAYERS playersFromUrl) initialPlayer) eqn:E.
    + apply players_includes_true in E. split; [auto|]. split; [exact E|].
      split; [discriminate|]. intros _ q. rewrite (F2 q). split; [tauto|].
      intros [-> |H]; [now apply F2|exact H].
    + split.
      { apply NoDup_cons. split; [|auto].
        intros H. apply players_includes_true in H. congruence. }
      split; [apply elem_of_cons; now left|]. split; [discriminate|].
      intros _ q. rewrite elem_of_cons, (F2 q). reflexivity.
Qed.

Lemma initialPlayers_spec_witness :
  NoDup (initialPlayers false "Bo" ["Al"; "Pete Alonso"; "Al"; "Cy"]) /\
  initialPlayers true "Bo" ["Al"; "Cy"] = ["Bo"] /\
  ("Cy" ∈ initialPlayers false "Bo" ["Al"; "Pete Alonso"; "Al"; "Cy"]).
Proof.
  destruct (initialPlayers_spec false "Bo" ["Al"; "Pete Alonso"; "Al"; "Cy"])
    as (Hnd & _ & _ & Hall).
  destruct (initialPlayers_spec true "Bo" ["Al"; "Cy"]) as (_ & _ & Hlock & _).
  split; [exact Hnd|]. split; [apply Hlock; reflexivity|].
  apply (Hall eq_refl). right. right.
  do 3 (apply elem_of_cons; right). apply elem_of_cons. now left.
Defined.

End SetupTheory.
